(** * The throttled task dispatcher of [src/utils/RequestQueue.mjs], its logger and its caller

    The class keeps five fields ([maxConcurrent], [requestsPerSecond],
    [activeRequests], [queue], [requestTimestamps]) and three methods
    ([waitForRateLimit], [add], [process]).  The methods are [async]: each
    runs to its next [await] without interruption, and is resumed later by
    the host.  The embedding below follows that shape.

    - The object is a record with the five fields of the class.
    - A synchronous stretch of a method is a function on the world.
    - A suspended activation of [process] is kept in the world together with
      the [await] it stopped at.
    - The host (callers, timers, the job queue, the tasks themselves) is
      a list of events; it chooses which suspended activation continues
      next.  Every schedule of the real host is one of these lists, so a
      property proved for all lists holds for the real host as well.

    Numbers are integers ([Z]): [Date.now()] counts milliseconds and the
    limits are passed as integers ([new RequestQueue(25, 40)] in
    [src/index.mjs]).  The one
    place where the source computes with [undefined] (the first element of
    an empty array) is kept: the resulting NaN is [None]. *)

From Stdlib Require Import ZArith List Bool Lia Sorted.
From stdpp Require Import base option list strings pretty gmap.
Import ListNotations.

Local Open Scope Z_scope.

(** * The logger and the scraper

    The dispatcher has one caller, [src/index.mjs], and both use the logger
    (the second file in [src/utils/RequestQueue.mjs]).  Their parts that
    compute are embedded here; the dispatcher follows.  What the host
    answers (the date, the HTTP call, the database) is an argument of the
    function that asks for it. *)

(** ** logger.mjs *)

Module Logger.

(** The four methods that write a line. *)
Inductive Level := Info | Success | Warning | Error.

(** The fields of [new Date()] that [getLogFileName] reads. *)
Record LocalDate := mkLocalDate {
  getDate : Z;
  getMonth : Z;
  getFullYear : Z
}.

Definition logsDir : string := "./logs".

(** The first [n] characters of [rest] followed by [padString] over and
    over. *)
Fixpoint take_cycle (n : nat) (padString rest : string) : string :=
  match n with
  | O => ""
  | S n' =>
      match rest with
      | String c rest' => String c (take_cycle n' padString rest')
      | EmptyString =>
          match padString with
          | String c pad' => String c (take_cycle n' padString pad')
          | EmptyString => ""
          end
      end
  end.

(** [s.padStart(targetLength, padString)]. *)
Definition padStart (s : string) (targetLength : nat) (padString : string) : string :=
  if (targetLength <=? String.length s)%nat then s
  else take_cycle (targetLength - String.length s) padString padString +:+ s.

(** The template literal of line 85 of the logger (line 26 of its own
    file): [log_${day}_${month}_${year}.txt]. *)
Definition baseName (date : LocalDate) : string :=
  let day := padStart (pretty (getDate date)) 2 "0" in
  let month := padStart (pretty (getMonth date + 1)) 2 "0" in
  let year := getFullYear date in
  "log_" +:+ day +:+ "_" +:+ month +:+ "_" +:+ pretty year +:+ ".txt".

(** [getLogFileName()]; [path_join] is [path.join] of the host. *)
Definition getLogFileName (path_join : string -> string -> string)
    (date : LocalDate) : string :=
  path_join logsDir (baseName date).

(** What the logger writes to: the console, line by line, and the files
    by name. *)
Record Output := mkOutput {
  console : list string;
  files : gmap string string
}.

Definition contents (out : Output) (file : string) : string :=
  default "" (files out !! file).

Definition newline : string := String (Ascii.ascii_of_nat 10) "".

(** [fs.appendFileSync(file, data, "utf8")]: the file is made when it is
    not there. *)
Definition appendFileSync (file data : string) (fs : gmap string string)
    : gmap string string :=
  <[file := default "" (fs !! file) +:+ data]> fs.

(** [writeToFile(message)]. *)
Definition writeToFile (path_join : string -> string -> string)
    (date : LocalDate) (message : string) (out : Output) : Output :=
  let logFile := getLogFileName path_join date in
  mkOutput (console out) (appendFileSync logFile (message +:+ newline) (files out)).

(** What the clock of the host hands to one call: the string
    [new Date().toISOString()] of [getTimestamp] and the date
    [getLogFileName] sees. *)
Record Moment := mkMoment {
  timestamp : string;
  date : LocalDate
}.

(** The body the four methods share, [symbol] being [logSymbols.info],
    [logSymbols.success], [logSymbols.warning] or [logSymbols.error]. *)
Definition write (symbol : string) (path_join : string -> string -> string)
    (at_ : Moment) (message : string) (out : Output) : Output :=
  let formatted := "[" +:+ timestamp at_ +:+ "] " +:+ symbol +:+ " " +:+ message in
  let out := mkOutput (console out ++ [formatted]) (files out) in
  writeToFile path_join (date at_) formatted out.

(** One call of [info], [success], [warning] or [error]. *)
Record Call := mkCall {
  level : Level;
  message : string
}.

(** [logger.info(message)] and its three sisters. *)
Definition logger (logSymbols : Level -> string)
    (path_join : string -> string -> string)
    (at_ : Moment) (c : Call) (out : Output) : Output :=
  write (logSymbols (level c)) path_join at_ (message c) out.

(** The line a call writes. *)
Definition line (logSymbols : Level -> string) (at_ : Moment) (c : Call) : string :=
  "[" +:+ timestamp at_ +:+ "] " +:+ logSymbols (level c) +:+ " " +:+ message c.

(** Calls one after the other, each at its moment. *)
Fixpoint loggerAll (logSymbols : Level -> string)
    (path_join : string -> string -> string)
    (calls : list (Moment * Call)) (out : Output) : Output :=
  match calls with
  | [] => out
  | (at_, c) :: calls' =>
      loggerAll logSymbols path_join calls' (logger logSymbols path_join at_ c out)
  end.

(** What [calls] append to [file]. *)
Fixpoint appended (logSymbols : Level -> string)
    (path_join : string -> string -> string)
    (file : string) (calls : list (Moment * Call)) : string :=
  match calls with
  | [] => ""
  | (at_, c) :: calls' =>
      (if bool_decide (getLogFileName path_join (date at_) = file)
       then line logSymbols at_ c +:+ newline else "")
      +:+ appended logSymbols path_join file calls'
  end.

(** The fields of a date that is one: the day of the month from 1 to 31,
    the month from 0 to 11. *)
Definition is_date (date : LocalDate) : Prop :=
  1 <= getDate date <= 31 /\ 0 <= getMonth date <= 11.

(** The lines [calls] print. *)
Definition printed (logSymbols : Level -> string)
    (calls : list (Moment * Call)) : list string :=
  map (fun call => line logSymbols (fst call) (snd call)) calls.

End Logger.

(** ** index.mjs

    Show ids and the counts are integers (JavaScript numbers below 2^53);
    [maxId], the result of [parseInt], may also be NaN.  A call of the
    logger returns; what it writes is kept as a list of calls. *)

Module Scraper.

(** What the scraper reads of a thrown value: [error.response?.status],
    [error.code] and [error.message]. *)
Record JsError := mkJsError {
  status : option Z;
  code : option string;
  message : string
}.

(** What the scraper reads of a show: [id] and [name] ([None]:
    [undefined]). *)
Record Show := mkShow {
  id : Z;
  name : option string
}.

(** A value in a template literal. *)
Definition shown (x : option string) : string := default "undefined" x.

(** The answer of [axios.get]: a response and its [data] ([None]: no body,
    reading [name] of it throws), or the error it rejects with. *)
Record Response := mkResponse {
  data : option Show
}.

(** What the database does for one show: the answer of [TV.findOne], then
    the answer of [TV.updateOne] or of [save]. *)
Record Database := mkDatabase {
  findOne : bool + JsError;
  written : option JsError
}.

(** What the host does for one show id. *)
Record Circumstances := mkCircumstances {
  answer : Response + JsError;
  typeError : JsError;           (* what reading [name] of no body throws *)
  database : Database
}.

Definition say (l : Logger.Level) (m : string) : Logger.Call := Logger.mkCall l m.

(** The [catch] block of [fetchShowData] (lines 34-45). *)
Definition fetchFailed (showId : Z) (error : JsError)
    : list Logger.Call * (Show + JsError) :=
  ([if bool_decide (status error = Some 404) then
      say Logger.Warning
        ("404 Not Found - Show ID: " +:+ pretty showId
         +:+ " - Show may have been deleted or is unavailable")
    else if bool_decide (status error = Some 429) then
      say Logger.Error
        ("Rate limited (429) - Show ID: " +:+ pretty showId
         +:+ " - Waiting before retry")
    else if bool_decide (code error = Some "ECONNABORTED") then
      say Logger.Error
        ("Timeout - Show ID: " +:+ pretty showId +:+ " - Request took too long")
    else
      say Logger.Error
        ("Error fetching Show ID " +:+ pretty showId +:+ ": " +:+ message error)],
   inr error).

(** The task [fetchShowData] passes to [requestQueue.add] (lines 26-46):
    what it logs and what it hands back.  The promise of [add] settles with
    what the task hands back. *)
Definition fetchShowData (showId : Z) (here : Circumstances)
    : list Logger.Call * (Show + JsError) :=
  match answer here with
  | inl response =>
      match data response with
      | Some show =>
          ([say Logger.Success
              ("Fetched show ID: " +:+ pretty showId +:+ " - " +:+ shown (name show))],
           inl show)
      | None => fetchFailed showId (typeError here)
      end
  | inr error => fetchFailed showId error
  end.

(** The [catch] block of [saveShowToDatabase] (lines 62-65). *)
Definition saveFailed (error : JsError) : list Logger.Call * option JsError :=
  ([say Logger.Error ("Failed to save show to database: " +:+ message error)],
   Some error).

(** [saveShowToDatabase(showData)] (lines 50-66): what it logs and the
    error it throws, if any. *)
Definition saveShowToDatabase (showData : Show) (db : Database)
    : list Logger.Call * option JsError :=
  match findOne db with
  | inr error => saveFailed error
  | inl existingShow =>
      match written db with
      | Some error => saveFailed error
      | None =>
          ([if existingShow then
              say Logger.Info
                ("Updated show ID: " +:+ pretty (id showData) +:+ " - "
                 +:+ shown (name showData))
            else
              say Logger.Success
                ("Saved new show ID: " +:+ pretty (id showData) +:+ " - "
                 +:+ shown (name showData))],
           None)
      end
  end.

(** What the [try] block of [fetchShowData] throws, if it throws: the
    error of [axios.get], or the [TypeError] of reading [name] of no
    body. *)
Definition fetchError (here : Circumstances) : option JsError :=
  match answer here with
  | inl response =>
      match data response with
      | Some _ => None
      | None => Some (typeError here)
      end
  | inr error => Some error
  end.

(** What the [try] block of [saveShowToDatabase] throws, if it throws. *)
Definition saveError (db : Database) : option JsError :=
  match findOne db with
  | inl _ => written db
  | inr error => Some error
  end.

(** An element of the array [processMultipleShows] resolves to:
    [undefined] from [saveShowToDatabase], [null] from the [catch]. *)
Inductive Result := Undefined | Null.

(** [r !== null] and [r === null] (lines 138-139). *)
Definition not_null (r : Result) : bool :=
  match r with Undefined => true | Null => false end.

Definition is_null (r : Result) : bool :=
  match r with Undefined => false | Null => true end.

(** The [catch] of lines 73-79. *)
Definition processFailed (id : Z) (err : JsError) : list Logger.Call * Result :=
  (if bool_decide (status err = Some 404) then []
   else [say Logger.Error
           ("Failed to process show ID " +:+ pretty id +:+ ": " +:+ message err)],
   Null).

(** The chain of one id (lines 71-79): [fetchShowData], then
    [saveShowToDatabase], and the [catch] for both. *)
Definition processShow (host : Z -> Circumstances) (id : Z)
    : list Logger.Call * Result :=
  let '(fetchLog, fetched) := fetchShowData id (host id) in
  match fetched with
  | inl showData =>
      let '(saveLog, thrown) := saveShowToDatabase showData (database (host id)) in
      match thrown with
      | None => (fetchLog ++ saveLog, Undefined)
      | Some err =>
          let '(failLog, r) := processFailed id err in
          (fetchLog ++ saveLog ++ failLog, r)
      end
  | inr err =>
      let '(failLog, r) := processFailed id err in
      (fetchLog ++ failLog, r)
  end.

(** [processMultipleShows(showIds)] (lines 69-83): what each chain logs
    and the array [Promise.all] resolves to, in the order of the ids. *)
Definition processMultipleShows (host : Z -> Circumstances) (showIds : list Z)
    : list (list Logger.Call * Result) :=
  map (processShow host) showIds.

(** A JavaScript number that may be NaN ([None]), as [parseInt] returns
    it. *)
Definition js_le (a : Z) (b : option Z) : bool :=
  match b with
  | Some b => a <=? b
  | None => false
  end.

(** [Math.min(a, b)]. *)
Definition Math_min (a : Z) (b : option Z) : option Z :=
  match b with
  | Some b => Some (Z.min a b)
  | None => None
  end.

Definition js_shown (x : option Z) : string :=
  match x with
  | Some z => pretty z
  | None => "NaN"
  end.

Definition batchSize : Z := 100.

(** The inner loop of [main] (lines 130-132).  [None]: out of fuel. *)
Fixpoint fillBatch (fuel : nat) (j : Z) (batchEnd : option Z) (batch : list Z)
    : option (list Z) :=
  if js_le j batchEnd then
    match fuel with
    | O => None
    | S fuel' => fillBatch fuel' (j + 1) batchEnd (batch ++ [j])
    end
  else Some batch.

Record Tally := mkTally {
  successCount : Z;
  errorCount : Z
}.

(** What the loop of [main] does, in order. *)
Inductive Step :=
| Logged (c : Logger.Call)
| Processed (batch : list Z) (results : list (list Logger.Call * Result))
| Slept (ms : Z).

(** The loop of [main] (lines 126-150), from [i] on.  [None]: out of
    fuel. *)
Fixpoint batchLoop (fuel : nat) (host : Z -> Circumstances) (i : Z)
    (maxId : option Z) (tally : Tally) (steps : list Step)
    : option (Tally * list Step) :=
  if js_le i maxId then
    match fuel with
    | O => None
    | S fuel' =>
        let batchEnd := Math_min (i + batchSize - 1) maxId in
        match fillBatch fuel i batchEnd [] with
        | None => None
        | Some batch =>
            let steps :=
              steps ++ [Logged (say Logger.Info
                          ("Processing batch: " +:+ pretty i +:+ " to "
                           +:+ js_shown batchEnd +:+ " ("
                           +:+ pretty (length batch) +:+ " shows)"))] in
            let results := processMultipleShows host batch in
            let steps := steps ++ [Processed batch results] in
            let batchSuccess :=
              length (List.filter (fun r => not_null (snd r)) results) in
            let batchSkipped :=
              length (List.filter (fun r => is_null (snd r)) results) in
            let tally :=
              mkTally (successCount tally + Z.of_nat batchSuccess)
                      (errorCount tally + Z.of_nat batchSkipped) in
            let steps :=
              steps ++ [Logged (say Logger.Info
                          ("Batch completed - Success: " +:+ pretty batchSuccess
                           +:+ ", Failed/Skipped: " +:+ pretty batchSkipped))] in
            let steps :=
              if js_le (i + batchSize) maxId then steps ++ [Slept 500] else steps in
            batchLoop fuel' host (i + batchSize) maxId tally steps
        end
    end
  else Some (tally, steps).

(** The loop as [main] starts it (lines 121-126). *)
Definition scrape (fuel : nat) (host : Z -> Circumstances)
    (lastProcessedId : Z) (maxId : option Z) : option (Tally * list Step) :=
  batchLoop fuel host (lastProcessedId + 1) maxId (mkTally 0 0) [].

(** The batches a list of steps processed, the results they got and the
    pauses, each in order. *)
Fixpoint batches_of (steps : list Step) : list (list Z) :=
  match steps with
  | [] => []
  | Processed batch _ :: steps' => batch :: batches_of steps'
  | _ :: steps' => batches_of steps'
  end.

Fixpoint results_of (steps : list Step) : list Result :=
  match steps with
  | [] => []
  | Processed _ results :: steps' => map snd results ++ results_of steps'
  | _ :: steps' => results_of steps'
  end.

Fixpoint pauses_of (steps : list Step) : list Z :=
  match steps with
  | [] => []
  | Slept ms :: steps' => ms :: pauses_of steps'
  | _ :: steps' => pauses_of steps'
  end.

(** The batches and the pauses of a list of steps, in the order they
    happen. *)
Fixpoint work_of (steps : list Step) : list (list Z + Z) :=
  match steps with
  | [] => []
  | Processed batch _ :: steps' => inl batch :: work_of steps'
  | Slept ms :: steps' => inr ms :: work_of steps'
  | Logged _ :: steps' => work_of steps'
  end.

(** Batches with a pause of [ms] between one and the next. *)
Fixpoint pause_between (ms : Z) (batches : list (list Z)) : list (list Z + Z) :=
  match batches with
  | [] => []
  | [batch] => [inl batch]
  | batch :: batches' => inl batch :: inr ms :: pause_between ms batches'
  end.

(** The ids from [first] to [last], in order. *)
Definition ids (first last : Z) : list Z :=
  map (fun k => first + Z.of_nat k) (seq 0 (Z.to_nat (last - first + 1))).

(** What the loop adds to the steps and to the tally, from [i] on. *)
Definition loop_adds (host : Z -> Circumstances) (i M : Z)
    (tally tally' : Tally) (new : list Step) : Prop :=
  concat (batches_of new) = ids i M
  /\ (forall k b,
        batches_of new !! k = Some b ->
        i + batchSize * Z.of_nat k <= M
        /\ b = ids (i + batchSize * Z.of_nat k)
                 (Z.min (i + batchSize * Z.of_nat k + batchSize - 1) M))
  /\ Z.of_nat (length (batches_of new))
     = (if i <=? M then (M - i) / batchSize + 1 else 0)
  /\ pauses_of new = repeat 500 (pred (length (batches_of new)))
  /\ results_of new = map (fun id => snd (processShow host id)) (ids i M)
  /\ successCount tally'
     = successCount tally
       + Z.of_nat (length (List.filter not_null (results_of new)))
  /\ errorCount tally'
     = errorCount tally
       + Z.of_nat (length (List.filter is_null (results_of new))).

End Scraper.

(** * The dispatcher *)

(** ** Data *)

Section Dispatcher.

Context {Task Value Error : Type}.

(** What a task hands back when it is awaited (line 49). *)
Inductive Outcome :=
| Returned (v : Value)
| Threw (e : Error).

(** The promise made in [add] (line 33). *)
Inductive Promise :=
| Pending
| Fulfilled (v : Value)
| Rejected (e : Error).

(** [{ fn, resolve, reject }] (line 34).  [resolve] and [reject] are the two
    settling functions of one promise; [handle] is the position of that
    promise in the promise table of the world. *)
Record Entry := mkEntry {
  fn : Task;
  handle : nat
}.

(** The fields set by the constructor (lines 5-9). *)
Record RequestQueue := mkRequestQueue {
  maxConcurrent : Z;
  requestsPerSecond : Z;
  activeRequests : Z;
  queue : list Entry;
  requestTimestamps : list Z
}.

(** [constructor(maxConcurrent = 30, requestsPerSecond = 40)]: an argument
    left out (or [undefined]) is [None] and takes the default. *)
Definition constructor (maxConcurrent requestsPerSecond : option Z) : RequestQueue :=
  {| maxConcurrent := default 30 maxConcurrent;
     requestsPerSecond := default 40 requestsPerSecond;
     activeRequests := 0;
     queue := [];
     requestTimestamps := [] |}.

Definition with_activeRequests (n : Z) (q : RequestQueue) : RequestQueue :=
  {| maxConcurrent := maxConcurrent q;
     requestsPerSecond := requestsPerSecond q;
     activeRequests := n;
     queue := queue q;
     requestTimestamps := requestTimestamps q |}.

Definition with_queue (l : list Entry) (q : RequestQueue) : RequestQueue :=
  {| maxConcurrent := maxConcurrent q;
     requestsPerSecond := requestsPerSecond q;
     activeRequests := activeRequests q;
     queue := l;
     requestTimestamps := requestTimestamps q |}.

Definition with_requestTimestamps (l : list Z) (q : RequestQueue) : RequestQueue :=
  {| maxConcurrent := maxConcurrent q;
     requestsPerSecond := requestsPerSecond q;
     activeRequests := activeRequests q;
     queue := queue q;
     requestTimestamps := l |}.

(** ** The rate limiter *)

(** How one evaluation of [waitForRateLimit] ends: it returns (line 29), or
    it stops at the timer of line 24 for [waitTime] milliseconds. *)
Inductive Clearance :=
| Granted
| Wait (waitTime : Z).

(** [ts > oneSecondAgo], the predicate of line 17. *)
Definition recent (oneSecondAgo : Z) (l : list Z) : list Z :=
  List.filter (fun ts => oneSecondAgo <? ts) l.

(** [waitTime > 0] on a JavaScript number; NaN compares false. *)
Definition js_positive (x : option Z) : bool :=
  match x with
  | Some z => 0 <? z
  | None => false
  end.

(** One evaluation of [waitForRateLimit] (lines 13-29), from the reading of
    the clock to the return or to the timer.  The recursive call of line 25
    is made by the host event [TimerFires] below. *)
Definition waitForRateLimit (now : Z) (q : RequestQueue) : Clearance * RequestQueue :=
  let oneSecondAgo := now - 1000 in
  let q := with_requestTimestamps (recent oneSecondAgo (requestTimestamps q)) q in
  let pushed := with_requestTimestamps (requestTimestamps q ++ [now]) q in
  if requestsPerSecond q <=? Z.of_nat (length (requestTimestamps q)) then
    let oldestTimestamp := head (requestTimestamps q) in
    let waitTime := (fun oldest => oldest + 1000 - now) <$> oldestTimestamp in
    if js_positive waitTime then (Wait (default 0 waitTime), q)
    else (Granted, pushed)
  else (Granted, pushed).

(** ** The world around the object *)

(** The [await] at which an activation of [process] is stopped. *)
Inductive Stage :=
| AwaitTimer (deadline : Z)   (* line 24, inside [waitForRateLimit] *)
| AwaitClearance              (* line 48, [waitForRateLimit] has returned *)
| AwaitTask.                  (* line 49, [fn()] has been called *)

Record Activation := mkActivation {
  entry : Entry;
  stage : Stage
}.

(** What the dispatcher did, in the order it did it. *)
Inductive Obs :=
| Shifted (h : nat)                (* line 45 *)
| Stamped (h : nat) (ts : Z)       (* line 29 *)
| Invoked (h : nat)                (* line 49 *)
| ResolveCalled (h : nat) (v : Value)   (* line 50 *)
| RejectCalled (h : nat) (e : Error).   (* line 52 *)

Record World := mkWorld {
  rq : RequestQueue;
  clock : Z;                       (* the value [Date.now()] returns *)
  suspended : list Activation;
  promises : list Promise;
  trace : list Obs
}.

Definition with_rq (q : RequestQueue) (w : World) : World :=
  {| rq := q; clock := clock w; suspended := suspended w;
     promises := promises w; trace := trace w |}.

Definition with_clock (t : Z) (w : World) : World :=
  {| rq := rq w; clock := t; suspended := suspended w;
     promises := promises w; trace := trace w |}.

Definition with_suspended (l : list Activation) (w : World) : World :=
  {| rq := rq w; clock := clock w; suspended := l;
     promises := promises w; trace := trace w |}.

Definition with_promises (l : list Promise) (w : World) : World :=
  {| rq := rq w; clock := clock w; suspended := suspended w;
     promises := l; trace := trace w |}.

Definition observe (o : Obs) (w : World) : World :=
  {| rq := rq w; clock := clock w; suspended := suspended w;
     promises := promises w; trace := trace w ++ [o] |}.

Definition suspend (e : Entry) (s : Stage) (w : World) : World :=
  with_suspended (suspended w ++ [mkActivation e s]) w.

(** [new RequestQueue(...)] in a host whose clock reads [t0]. *)
Definition boot (q : RequestQueue) (t0 : Z) : World :=
  {| rq := q; clock := t0; suspended := []; promises := []; trace := [] |}.

(** A settling function called on a promise: only a pending promise
    changes. *)
Definition settle (h : nat) (p : Promise) (l : list Promise) : list Promise :=
  match l !! h with
  | Some Pending => <[h := p]> l
  | _ => l
  end.

(** ** The methods *)

(** [await this.waitForRateLimit()] (line 48) for the activation of [e],
    up to the next suspension: the activation stops at the timer, or the
    limiter returns and the activation waits to be resumed. *)
Definition awaitRateLimit (e : Entry) (w : World) : World :=
  let '(c, q) := waitForRateLimit (clock w) (rq w) in
  match c with
  | Granted =>
      suspend e AwaitClearance (observe (Stamped (handle e) (clock w)) (with_rq q w))
  | Wait waitTime =>
      suspend e (AwaitTimer (clock w + waitTime)) (with_rq q w)
  end.

(** [process()] (lines 39-48), up to its first suspension. *)
Definition process (w : World) : World :=
  let q := rq w in
  if (maxConcurrent q <=? activeRequests q) || (length (queue q) =? 0)%nat then w
  else
    match queue q with
    | [] => w      (* not reached: the queue has an element here *)
    | e :: rest =>
        let q := with_activeRequests (activeRequests q + 1) q in
        let q := with_queue rest q in
        awaitRateLimit e (observe (Shifted (handle e)) (with_rq q w))
    end.

(** [add(requestFn)] (lines 32-37).  The promise it returns is the new last
    element of the promise table. *)
Definition add (requestFn : Task) (w : World) : World :=
  let h := length (promises w) in
  let w := with_promises (promises w ++ [Pending]) w in
  let w := with_rq (with_queue (queue (rq w) ++ [mkEntry requestFn h]) (rq w)) w in
  process w.

(** Lines 50 and 52: the outcome of the task goes to the entry's promise. *)
Definition deliver (e : Entry) (o : Outcome) (w : World) : World :=
  match o with
  | Returned v =>
      observe (ResolveCalled (handle e) v)
        (with_promises (settle (handle e) (Fulfilled v) (promises w)) w)
  | Threw err =>
      observe (RejectCalled (handle e) err)
        (with_promises (settle (handle e) (Rejected err) (promises w)) w)
  end.

(** Lines 54-55, the [finally] block. *)
Definition finally (w : World) : World :=
  process (with_rq (with_activeRequests (activeRequests (rq w) - 1) (rq w)) w).

(** ** The host *)

(** What the host can do.  A task that throws before it has returned a
    promise is a [Resume] followed at once by a [TaskDone] with [Threw]; a
    task or a callback that submits more work is followed by [Add]. *)
Inductive Event :=
| Tick (t : Z)                     (* the clock now reads [t] *)
| Add (requestFn : Task)           (* a caller runs [add(requestFn)] *)
| TimerFires (h : nat)             (* the timer of line 24 is due *)
| Resume (h : nat)                 (* the [await] of line 48 continues *)
| TaskDone (h : nat) (o : Outcome). (* the [await] of line 49 continues *)

(** The first suspended activation of the entry with handle [h], and the
    others. *)
Fixpoint take (h : nat) (l : list Activation) : option (Activation * list Activation) :=
  match l with
  | [] => None
  | a :: l' =>
      if (handle (entry a) =? h)%nat then Some (a, l')
      else match take h l' with
           | Some (b, rest) => Some (b, a :: rest)
           | None => None
           end
  end.

(** One event.  [None]: the event cannot happen in this world. *)
Definition exec (ev : Event) (w : World) : option World :=
  match ev with
  | Tick t => Some (with_clock t w)
  | Add requestFn => Some (add requestFn w)
  | TimerFires h =>
      match take h (suspended w) with
      | Some (mkActivation e (AwaitTimer deadline), rest) =>
          if deadline <=? clock w
          then Some (awaitRateLimit e (with_suspended rest w))
          else None
      | _ => None
      end
  | Resume h =>
      match take h (suspended w) with
      | Some (mkActivation e AwaitClearance, rest) =>
          Some (suspend e AwaitTask (observe (Invoked h) (with_suspended rest w)))
      | _ => None
      end
  | TaskDone h o =>
      match take h (suspended w) with
      | Some (mkActivation e AwaitTask, rest) =>
          Some (finally (deliver e o (with_suspended rest w)))
      | _ => None
      end
  end.

Fixpoint run (evs : list Event) (w : World) : option World :=
  match evs with
  | [] => Some w
  | ev :: evs' =>
      match exec ev w with
      | Some w' => run evs' w'
      | None => None
      end
  end.

(** ** Reading the trace and the world *)

(** Handles in the order their entries left the queue. *)
Fixpoint shifts (tr : list Obs) : list nat :=
  match tr with
  | [] => []
  | Shifted h :: tr' => h :: shifts tr'
  | _ :: tr' => shifts tr'
  end.

(** The instants the limiter logged at clearance (line 29), in the order it
    logged them. *)
Fixpoint stamps (tr : list Obs) : list Z :=
  match tr with
  | [] => []
  | Stamped _ ts :: tr' => ts :: stamps tr'
  | _ :: tr' => stamps tr'
  end.

(** Handles of the entries that got clearance, in that order. *)
Fixpoint cleared (tr : list Obs) : list nat :=
  match tr with
  | [] => []
  | Stamped h _ :: tr' => h :: cleared tr'
  | _ :: tr' => cleared tr'
  end.

(** Handles in the order their tasks were called. *)
Fixpoint invocations (tr : list Obs) : list nat :=
  match tr with
  | [] => []
  | Invoked h :: tr' => h :: invocations tr'
  | _ :: tr' => invocations tr'
  end.

(** Every call of [resolve] or [reject] of the promise [h], in order. *)
Fixpoint calls (h : nat) (tr : list Obs) : list Outcome :=
  match tr with
  | [] => []
  | ResolveCalled h' v :: tr' =>
      if (h' =? h)%nat then Returned v :: calls h tr' else calls h tr'
  | RejectCalled h' e :: tr' =>
      if (h' =? h)%nat then Threw e :: calls h tr' else calls h tr'
  | _ :: tr' => calls h tr'
  end.

(** The instants of [l] in the window of 1000ms that ends at [t]:
    [t - 1000 < ts <= t]. *)
Definition window (t : Z) (l : list Z) : list Z :=
  List.filter (fun ts => (t - 1000 <? ts) && (ts <=? t)) l.

Definition queued_handles (w : World) : list nat :=
  map handle (queue (rq w)).

Definition suspended_handles (w : World) : list nat :=
  map (fun a => handle (entry a)) (suspended w).

(** The activations whose task has been called and has not finished. *)
Definition executing (w : World) : list Activation :=
  List.filter (fun a => match stage a with AwaitTask => true | _ => false end)
    (suspended w).

(** The clock is never set back along [evs], starting from the reading
    [t0]. *)
Fixpoint steady (t0 : Z) (evs : list Event) : Prop :=
  match evs with
  | [] => True
  | Tick t :: evs' => t0 <= t /\ steady t evs'
  | _ :: evs' => steady t0 evs'
  end.

(** The calls of tasks along [evs], in order, each with the reading of
    the clock at which it happens: line 49 runs when the [await] of line 48
    continues, in a [Resume] and nowhere else. *)
Fixpoint calls_at (evs : list Event) (w : World) : list (nat * Z) :=
  match evs with
  | [] => []
  | ev :: evs' =>
      match exec ev w with
      | Some w' =>
          match ev with
          | Resume h => (h, clock w) :: calls_at evs' w'
          | _ => calls_at evs' w'
          end
      | None => []
      end
  end.

(** The instants at which tasks are called along [evs]. *)
Definition call_instants (evs : list Event) (w : World) : list Z :=
  map snd (calls_at evs w).

(** No clearance was logged at an instant later than the clock reads. *)
Definition stamps_past (w : World) : Prop :=
  forall h ts, In (Stamped h ts) (trace w) -> ts <= clock w.

(** The state a promise takes from the outcome of its task. *)
Definition of_outcome (o : Outcome) : Promise :=
  match o with
  | Returned v => Fulfilled v
  | Threw e => Rejected e
  end.

(** The settling calls a promise in state [p] has received. *)
Definition calls_for (p : option Promise) : list Outcome :=
  match p with
  | Some (Fulfilled v) => [Returned v]
  | Some (Rejected e) => [Threw e]
  | _ => []
  end.

(** The bookkeeping of entries, on what it depends on: the handles shifted
    so far [sh], the handles in the queue [qh], the handles of the suspended
    activations [suh], the promise table [ps] and the settling calls [cl].
    - Handles leave the queue in the order they were given out.
    - No entry has two activations, and every activation was shifted.
    - A promise is pending exactly while its entry is queued or
      suspended.
    - A promise has received no settling call while pending and exactly
      one, the one that made its state, afterwards. *)
Definition lifecycle (sh qh suh : list nat) (ps : list Promise)
    (cl : nat -> list Outcome) : Prop :=
  sh ++ qh = seq 0 (length ps)
  /\ NoDup suh
  /\ (forall h, h ∈ suh -> h ∈ sh)
  /\ (forall h, ps !! h = Some Pending <-> h ∈ qh \/ h ∈ suh)
  /\ (forall h, cl h = calls_for (ps !! h)).

Definition lifecycle_ok (w : World) : Prop :=
  lifecycle (shifts (trace w)) (queued_handles w) (suspended_handles w)
    (promises w) (fun h => calls h (trace w)).

(** What must have happened before the dispatcher does [o]: an entry is
    shifted once, gets clearance once and after its shift, has its task called
    once and after its clearance, and has its promise settled once and after
    the call. *)
Definition may_follow (past : list Obs) (o : Obs) : Prop :=
  match o with
  | Shifted h => h ∉ shifts past
  | Stamped h _ => (h ∈ shifts past) /\ (h ∉ cleared past)
  | Invoked h => (h ∈ cleared past) /\ (h ∉ invocations past)
  | ResolveCalled h _ | RejectCalled h _ =>
      (h ∈ invocations past) /\ (calls h past = [])
  end.

Definition orderly (tr : list Obs) : Prop :=
  forall past o rest, tr = past ++ o :: rest -> may_follow past o.

(** Where an activation stands and what the trace says of its entry. *)
Definition stage_ok (tr : list Obs) (a : Activation) : Prop :=
  match stage a with
  | AwaitTimer _ =>
      (handle (entry a) ∉ cleared tr) /\ (handle (entry a) ∉ invocations tr)
  | AwaitClearance =>
      (handle (entry a) ∈ cleared tr) /\ (handle (entry a) ∉ invocations tr)
  | AwaitTask =>
      (handle (entry a) ∈ cleared tr) /\ (handle (entry a) ∈ invocations tr)
  end.

Definition starts_ok (w : World) : Prop :=
  orderly (trace w)
  /\ Forall (stage_ok (trace w)) (suspended w)
  /\ (forall h, h ∈ cleared (trace w) -> h ∈ shifts (trace w))
  /\ (forall h, h ∈ invocations (trace w) -> h ∈ cleared (trace w)).

(** The states of an entry: [Queued -> Dispatched -> {Succeeded | Failed}]. *)
Inductive Phase :=
| Queued
| Dispatched
| Succeeded (v : Value)
| Failed (e : Error).

(** The entry with handle [h] is in phase [p]: where it is held, the state
    of its promise, and the settling calls its promise has received. *)
Definition in_phase (w : World) (h : nat) (p : Phase) : Prop :=
  match p with
  | Queued =>
      (h ∈ queued_handles w) /\ (h ∉ suspended_handles w)
      /\ promises w !! h = Some Pending /\ calls h (trace w) = []
  | Dispatched =>
      (h ∉ queued_handles w) /\ (h ∈ suspended_handles w)
      /\ promises w !! h = Some Pending /\ calls h (trace w) = []
  | Succeeded v =>
      (h ∉ queued_handles w) /\ (h ∉ suspended_handles w)
      /\ promises w !! h = Some (Fulfilled v) /\ calls h (trace w) = [Returned v]
  | Failed e =>
      (h ∉ queued_handles w) /\ (h ∉ suspended_handles w)
      /\ promises w !! h = Some (Rejected e) /\ calls h (trace w) = [Threw e]
  end.

(** The moves between phases that the state machine of an entry allows,
    over any number of events. *)
Definition phase_step (p p' : Phase) : Prop :=
  match p, p' with
  | Queued, _ => True
  | Dispatched, Queued => False
  | Dispatched, _ => True
  | Succeeded v, Succeeded v' => v = v'
  | Failed e, Failed e' => e = e'
  | _, _ => False
  end.

(** The phase an entry ends in when its task ends with [o]. *)
Definition terminal (o : Outcome) : Phase :=
  match o with
  | Returned v => Succeeded v
  | Threw e => Failed e
  end.

(** What the task of the entry [h] handed back during [evs], if it has
    finished. *)
Fixpoint outcome_of (h : nat) (evs : list Event) : option Outcome :=
  match evs with
  | [] => None
  | TaskDone h' o :: evs' => if (h' =? h)%nat then Some o else outcome_of h evs'
  | _ :: evs' => outcome_of h evs'
  end.

(** The events of a continuation in which nothing new is submitted and
    every task that ends hands back what [out] says. *)
Definition plays (out : nat -> Outcome) (ev : Event) : Prop :=
  match ev with
  | Add _ => False
  | TaskDone h o => o = out h
  | _ => True
  end.

(** The last reading a run on [evs] leaves on the clock. *)
Fixpoint clock_after (t0 : Z) (evs : list Event) : Z :=
  match evs with
  | [] => t0
  | Tick t :: evs' => clock_after t evs'
  | _ :: evs' => clock_after t0 evs'
  end.

(** The youngest of a list of timestamps (0 for the empty list). *)
Definition latest (l : list Z) : Z := fold_right Z.max 0 l.

(** Entries submitted and not settled. *)
Definition backlog (w : World) : nat :=
  (length (queue (rq w)) + length (suspended w))%nat.

(** The tasks passed to [add] during [evs], in that order. *)
Fixpoint submissions (evs : list Event) : list Task :=
  match evs with
  | [] => []
  | Add requestFn :: evs' => requestFn :: submissions evs'
  | _ :: evs' => submissions evs'
  end.

(** The entries the dispatcher holds: queued or in an activation. *)
Definition entries_of (w : World) : list Entry :=
  queue (rq w) ++ map entry (suspended w).

(** Handles count the submissions: the entry with handle [k] carries the
    task of the [k]-th call of [add] (counting from 0). *)
Definition tasks_ok (subs : list Task) (w : World) : Prop :=
  length subs = length (promises w)
  /\ forall x, x ∈ entries_of w -> subs !! handle x = Some (fn x).

(** The stage at which the entry with handle [h] is stopped, if it is. *)
Definition stage_of (h : nat) (w : World) : option Stage :=
  (fun p => stage (fst p)) <$> take h (suspended w).

(** The counter is the number of activations between line 44 and line 54,
    and it went up only from below the limit. *)
Definition counter_ok (w : World) : Prop :=
  activeRequests (rq w) = Z.of_nat (length (suspended w))
  /\ (suspended w = [] \/ activeRequests (rq w) <= maxConcurrent (rq w))
  /\ (queue (rq w) <> [] -> maxConcurrent (rq w) <= activeRequests (rq w)).

(** The log holds every start that a later check can still count: the
    starts younger than any bound from [clock - 1000] on are the same in
    the log and in the history. *)
Definition log_agrees (w : World) : Prop :=
  forall c, clock w - 1000 <= c ->
    recent c (stamps (trace w)) = recent c (requestTimestamps (rq w)).

(** No window of 1000ms holds more logged starts than
    [requestsPerSecond]. *)
Definition rate_ok (w : World) : Prop :=
  forall t, Z.of_nat (length (window t (stamps (trace w)))) <= requestsPerSecond (rq w).

(** Everything the later proofs use of a world a run can reach. *)
Definition well_formed (w : World) : Prop :=
  counter_ok w /\ lifecycle_ok w /\ starts_ok w.

(** The log never holds more timestamps than the limit, or one when the
    limit is below one. *)
Definition log_short (w : World) : Prop :=
  Z.of_nat (length (requestTimestamps (rq w)))
    <= Z.max 1 (requestsPerSecond (rq w)).

(** The timer of line 24 is set for [deadline]. *)
Definition due_by (t : Z) (a : Activation) : Prop :=
  match stage a with
  | AwaitTimer deadline => deadline <= t
  | _ => True
  end.

(** On a clock that is never set back: the log is in the order of the
    clock and holds no instant of the future, and no timer is set further
    than 1000ms ahead. *)
Definition log_in_order (w : World) : Prop :=
  Forall (fun ts => ts <= clock w) (requestTimestamps (rq w))
  /\ StronglySorted Z.le (requestTimestamps (rq w))
  /\ Forall (due_by (clock w + 1000)) (suspended w).

(** A dispatcher with the limits [m] and [r] that has taken [j]
    submissions in a row at the instant [t0], with nothing else happening in
    between. *)
Definition after_burst (m r t0 j : Z) (w : World) : Prop :=
  maxConcurrent (rq w) = m
  /\ requestsPerSecond (rq w) = r
  /\ clock w = t0
  /\ activeRequests (rq w) = Z.min j m
  /\ Z.of_nat (length (queue (rq w))) = j - Z.min j m
  /\ requestTimestamps (rq w) = stamps (trace w)
  /\ stamps (trace w) = repeat t0 (length (stamps (trace w)))
  /\ Z.of_nat (length (stamps (trace w))) = Z.min (Z.min j m) (Z.max 1 r)
  /\ Forall (fun a => match stage a with
                      | AwaitTimer deadline => deadline = t0 + 1000
                      | AwaitClearance => True
                      | AwaitTask => False
                      end) (suspended w).

(** ** The constructor, the idle dispatch loop, one clearance check *)

(** C10.  [new RequestQueue()] has the limits 30 and 40; whatever limits
    are passed are stored as they are, there is no check on them (a limit
    left out takes its default); the counter starts at 0, the queue and the
    timestamp log start empty. *)
Theorem constructor_defaults_unvalidated :
  constructor None None
    = {| maxConcurrent := 30; requestsPerSecond := 40; activeRequests := 0;
         queue := []; requestTimestamps := [] |}
  /\ (forall m r : Z,
        constructor (Some m) (Some r)
          = {| maxConcurrent := m; requestsPerSecond := r; activeRequests := 0;
               queue := []; requestTimestamps := [] |})
  /\ (forall m : Z,
        constructor (Some m) None
          = {| maxConcurrent := m; requestsPerSecond := 40; activeRequests := 0;
               queue := []; requestTimestamps := [] |})
  /\ (forall r : Z,
        constructor None (Some r)
          = {| maxConcurrent := 30; requestsPerSecond := r; activeRequests := 0;
               queue := []; requestTimestamps := [] |}).
Proof.
  split; [reflexivity |]. split; [intros m r; reflexivity |].
  split; [intros m; reflexivity | intros r; reflexivity].
Qed.

(** C9.  Called with an empty queue, or with the counter at or above
    [maxConcurrent], [process] returns at line 41: the world (queue, counter,
    timestamp log and all the rest) is the one it was called in. *)
Theorem process_idle_unchanged (w : World) :
  queue (rq w) = [] \/ maxConcurrent (rq w) <= activeRequests (rq w) ->
  process w = w
  /\ queue (rq (process w)) = queue (rq w)
  /\ activeRequests (rq (process w)) = activeRequests (rq w)
  /\ requestTimestamps (rq (process w)) = requestTimestamps (rq w).
Proof.
  intros H.
  assert (E : process w = w).
  { unfold process. destruct H as [H | H].
    - rewrite H. simpl. rewrite orb_true_r. reflexivity.
    - apply Z.leb_le in H. rewrite H. reflexivity. }
  rewrite E. repeat split.
Qed.

Lemma recent_In (c ts : Z) (l : list Z) :
  In ts (recent c l) <-> In ts l /\ c < ts.
Proof.
  unfold recent. rewrite filter_In. rewrite Z.ltb_lt. reflexivity.
Qed.

Lemma recent_head_young (c oldest : Z) (l : list Z) :
  head (recent c l) = Some oldest -> c < oldest.
Proof.
  intros H. apply (recent_In c oldest l).
  destruct (recent c l) as [| x l']; [discriminate |].
  injection H as ->. left. reflexivity.
Qed.

(** The three ways one evaluation of [waitForRateLimit] can go. *)
Lemma waitForRateLimit_below (now : Z) (q : RequestQueue) :
  Z.of_nat (length (recent (now - 1000) (requestTimestamps q))) < requestsPerSecond q ->
  waitForRateLimit now q
    = (Granted,
       with_requestTimestamps (recent (now - 1000) (requestTimestamps q) ++ [now]) q).
Proof.
  intros H. unfold waitForRateLimit. simpl.
  apply Z.leb_gt in H. rewrite H. reflexivity.
Qed.

Lemma waitForRateLimit_full (now oldest : Z) (q : RequestQueue) :
  requestsPerSecond q <= Z.of_nat (length (recent (now - 1000) (requestTimestamps q))) ->
  head (recent (now - 1000) (requestTimestamps q)) = Some oldest ->
  waitForRateLimit now q
    = (Wait (oldest + 1000 - now),
       with_requestTimestamps (recent (now - 1000) (requestTimestamps q)) q).
Proof.
  intros H Hh. unfold waitForRateLimit. simpl.
  apply Z.leb_le in H. rewrite H, Hh. simpl.
  apply recent_head_young in Hh.
  assert (E : (0 <? oldest + 1000 - now) = true) by (apply Z.ltb_lt; lia).
  rewrite E. reflexivity.
Qed.

Lemma waitForRateLimit_none_left (now : Z) (q : RequestQueue) :
  recent (now - 1000) (requestTimestamps q) = [] ->
  waitForRateLimit now q = (Granted, with_requestTimestamps [now] q).
Proof.
  intros H. unfold waitForRateLimit. simpl. rewrite H. simpl.
  destruct (requestsPerSecond q <=? _); reflexivity.
Qed.

Lemma take_length (h : nat) (l rest : list Activation) (a : Activation) :
  take h l = Some (a, rest) -> length l = S (length rest).
Proof.
  revert a rest. induction l as [| b l IH]; intros a rest H; simpl in H.
  - discriminate.
  - destruct (handle (entry b) =? h)%nat.
    + injection H as <- <-. reflexivity.
    + destruct (take h l) as [[c r] |] eqn:E; [| discriminate].
      injection H as <- <-. simpl. f_equal. eapply IH. reflexivity.
Qed.

Lemma take_handle (h : nat) (l rest : list Activation) (a : Activation) :
  take h l = Some (a, rest) -> handle (entry a) = h.
Proof.
  revert a rest. induction l as [| b l IH]; intros a rest H; simpl in H.
  - discriminate.
  - destruct (handle (entry b) =? h)%nat eqn:Eb.
    + injection H as <- <-. apply Nat.eqb_eq. exact Eb.
    + destruct (take h l) as [[c r] |] eqn:E; [| discriminate].
      injection H as <- <-. eapply IH. reflexivity.
Qed.

(** C3.  One evaluation of the clearance check at clock reading [now]:
    the log keeps exactly the timestamps younger than [now - 1000], so
    every older one is gone; with fewer kept timestamps than
    [requestsPerSecond] the check returns at once and [now] is appended;
    otherwise, [oldest] being the first kept timestamp, the check stops at a
    timer of [oldest + 1000 - now] milliseconds, a positive time.  When that
    timer fires the check is evaluated again on the log and the clock of that
    moment, and the activation is cleared or put on a new timer according to
    that evaluation.  With a positive [requestsPerSecond] these cases are
    all there are: a full log has a first element. *)
Theorem waitForRateLimit_algorithm (now : Z) (q : RequestQueue) :
  let kept := recent (now - 1000) (requestTimestamps q) in
  (forall ts, In ts kept <-> In ts (requestTimestamps q) /\ now - 1000 < ts)
  /\ (Z.of_nat (length kept) < requestsPerSecond q ->
      waitForRateLimit now q = (Granted, with_requestTimestamps (kept ++ [now]) q))
  /\ (forall oldest,
        requestsPerSecond q <= Z.of_nat (length kept) ->
        head kept = Some oldest ->
        0 < oldest + 1000 - now
        /\ waitForRateLimit now q
             = (Wait (oldest + 1000 - now), with_requestTimestamps kept q))
  /\ (0 < requestsPerSecond q ->
      requestsPerSecond q <= Z.of_nat (length kept) ->
      exists oldest, head kept = Some oldest)
  /\ (forall (w : World) h e deadline rest,
        rq w = q -> clock w = now ->
        take h (suspended w) = Some (mkActivation e (AwaitTimer deadline), rest) ->
        deadline <= now ->
        exists w',
          exec (TimerFires h) w = Some w'
          /\ rq w' = snd (waitForRateLimit now q)
          /\ suspended w'
               = rest ++ [mkActivation e
                            match fst (waitForRateLimit now q) with
                            | Granted => AwaitClearance
                            | Wait waitTime => AwaitTimer (now + waitTime)
                            end]).
Proof.
  intros kept. split; [| split; [| split; [| split]]].
  - intros ts. apply recent_In.
  - apply waitForRateLimit_below.
  - intros oldest Hfull Hhead. split.
    + apply recent_head_young in Hhead. lia.
    + apply waitForRateLimit_full; assumption.
  - intros Hpos Hfull. destruct kept as [| x l]; [simpl in Hfull; lia |].
    exists x. reflexivity.
  - intros w h e deadline rest Hq Hc Ht Hd. subst q now.
    simpl. rewrite Ht. apply Z.leb_le in Hd. rewrite Hd.
    eexists. split; [reflexivity |].
    unfold awaitRateLimit. simpl.
    destruct (waitForRateLimit (clock w) (rq w)) as [[| wt] q']; simpl; split; reflexivity.
Qed.

(** C4, as the code has it.  With [requestsPerSecond <= 0] the check
    grants clearance exactly when no logged start is younger than 1000ms
    (the first element of the empty log is [undefined], so [waitTime] is NaN
    and line 23 is false); with a younger start in the log it waits until the
    oldest of them is 1000ms old.  A limit of zero or less therefore
    throttles like a limit of one. *)
Theorem nonpositive_limit_acts_as_one (now : Z) (q : RequestQueue) :
  requestsPerSecond q <= 0 ->
  let kept := recent (now - 1000) (requestTimestamps q) in
  (kept = [] ->
   waitForRateLimit now q = (Granted, with_requestTimestamps [now] q))
  /\ (forall oldest, head kept = Some oldest ->
      waitForRateLimit now q
        = (Wait (oldest + 1000 - now), with_requestTimestamps kept q))
  /\ fst (waitForRateLimit now q)
       = fst (waitForRateLimit now
                {| maxConcurrent := maxConcurrent q; requestsPerSecond := 1;
                   activeRequests := activeRequests q; queue := queue q;
                   requestTimestamps := requestTimestamps q |}).
Proof.
  intros Hrps kept. split; [| split].
  - apply waitForRateLimit_none_left.
  - intros oldest Hh. apply waitForRateLimit_full; [| exact Hh]. lia.
  - unfold waitForRateLimit. simpl. fold kept.
    destruct kept as [| x l] eqn:Ek.
    + simpl. destruct (requestsPerSecond q <=? _); reflexivity.
    + assert (E1 : (requestsPerSecond q <=? Z.of_nat (length (x :: l))) = true)
        by (apply Z.leb_le; lia).
      assert (E2 : (1 <=? Z.of_nat (length (x :: l))) = true)
        by (apply Z.leb_le; simpl length; lia).
      rewrite E1, E2. destruct (js_positive _); reflexivity.
Qed.

(** ** How the methods change the world *)

Lemma awaitRateLimit_cases (e : Entry) (w : World) :
  let kept := recent (clock w - 1000) (requestTimestamps (rq w)) in
  (awaitRateLimit e w
     = {| rq := with_requestTimestamps (kept ++ [clock w]) (rq w);
          clock := clock w;
          suspended := suspended w ++ [mkActivation e AwaitClearance];
          promises := promises w;
          trace := trace w ++ [Stamped (handle e) (clock w)] |}
   /\ (Z.of_nat (length kept) < requestsPerSecond (rq w)
       \/ kept = [] /\ requestsPerSecond (rq w) <= 0))
  \/ (exists oldest,
        head kept = Some oldest
        /\ requestsPerSecond (rq w) <= Z.of_nat (length kept)
        /\ awaitRateLimit e w
           = {| rq := with_requestTimestamps kept (rq w);
                clock := clock w;
                suspended :=
                  suspended w ++ [mkActivation e (AwaitTimer (clock w + (oldest + 1000 - clock w)))];
                promises := promises w;
                trace := trace w |}).
Proof.
  intros kept.
  destruct (Z_lt_le_dec (Z.of_nat (length kept)) (requestsPerSecond (rq w))) as [Hlt | Hle].
  - left. split; [| left; exact Hlt].
    unfold awaitRateLimit. rewrite waitForRateLimit_below by exact Hlt. reflexivity.
  - destruct (head kept) as [oldest |] eqn:Hh.
    + right. exists oldest. split; [reflexivity | split; [exact Hle |]].
      unfold awaitRateLimit.
      rewrite (waitForRateLimit_full _ oldest) by assumption. reflexivity.
    + left. assert (Hk : kept = []) by (destruct kept; [reflexivity | discriminate]).
      split.
      * unfold awaitRateLimit. rewrite waitForRateLimit_none_left by exact Hk.
        fold kept. rewrite Hk. reflexivity.
      * right. split; [exact Hk |]. rewrite Hk in Hle. simpl in Hle. lia.
Qed.

Lemma process_cases (w : World) :
  (process w = w
   /\ (maxConcurrent (rq w) <= activeRequests (rq w) \/ queue (rq w) = []))
  \/ (exists e rest,
        queue (rq w) = e :: rest
        /\ activeRequests (rq w) < maxConcurrent (rq w)
        /\ process w
           = awaitRateLimit e
               {| rq := {| maxConcurrent := maxConcurrent (rq w);
                           requestsPerSecond := requestsPerSecond (rq w);
                           activeRequests := activeRequests (rq w) + 1;
                           queue := rest;
                           requestTimestamps := requestTimestamps (rq w) |};
                  clock := clock w;
                  suspended := suspended w;
                  promises := promises w;
                  trace := trace w ++ [Shifted (handle e)] |}).
Proof.
  unfold process.
  destruct (maxConcurrent (rq w) <=? activeRequests (rq w)) eqn:Hsat.
  - left. split; [reflexivity | left; apply Z.leb_le; exact Hsat].
  - destruct (queue (rq w)) as [| e rest] eqn:Hq.
    + left. split; [reflexivity | right; reflexivity].
    + right. exists e, rest. split; [reflexivity |].
      split; [apply Z.leb_gt; exact Hsat | reflexivity].
Qed.

Lemma take_Permutation (h : nat) (l rest : list Activation) (a : Activation) :
  take h l = Some (a, rest) -> Permutation l (a :: rest).
Proof.
  revert a rest. induction l as [| b l IH]; intros a rest H; simpl in H.
  - discriminate.
  - destruct (handle (entry b) =? h)%nat.
    + injection H as <- <-. reflexivity.
    + destruct (take h l) as [[c r] |] eqn:E; [| discriminate].
      injection H as <- <-.
      rewrite (IH c r eq_refl). apply perm_swap.
Qed.

(** ** The concurrency counter *)

Lemma awaitRateLimit_counter (e : Entry) (w : World) :
  activeRequests (rq w) = Z.of_nat (S (length (suspended w))) ->
  activeRequests (rq w) <= maxConcurrent (rq w) ->
  (queue (rq w) <> [] -> maxConcurrent (rq w) <= activeRequests (rq w)) ->
  counter_ok (awaitRateLimit e w).
Proof.
  intros Ha Hm Hq. unfold counter_ok.
  destruct (awaitRateLimit_cases e w) as [[-> _] | (oldest & _ & _ & ->)];
    simpl; rewrite length_app; simpl length; rewrite Nat.add_1_r;
    (split; [exact Ha | split; [right; exact Hm | exact Hq]]).
Qed.

Lemma process_counter (w : World) :
  activeRequests (rq w) = Z.of_nat (length (suspended w)) ->
  (suspended w = [] \/ activeRequests (rq w) <= maxConcurrent (rq w)) ->
  (tail (queue (rq w)) <> [] -> maxConcurrent (rq w) <= activeRequests (rq w) + 1) ->
  counter_ok (process w).
Proof.
  intros Ha Hm Hq.
  destruct (process_cases w) as [[-> Hidle] | (e & rest & Hqe & Hlt & ->)].
  - split; [exact Ha | split; [exact Hm |]].
    intros Hne. destruct Hidle as [H | H]; [exact H | contradiction].
  - rewrite Hqe in Hq. simpl in Hq.
    apply awaitRateLimit_counter; simpl.
    + rewrite Ha. lia.
    + lia.
    + exact Hq.
Qed.

Lemma exec_counter (ev : Event) (w w' : World) :
  exec ev w = Some w' -> counter_ok w -> counter_ok w'.
Proof.
  intros Hex (Ha & Hm & Hq). destruct ev as [t | f | h | h | h o]; simpl in Hex.
  - injection Hex as <-. split; [exact Ha | split; [exact Hm | exact Hq]].
  - injection Hex as <-. unfold add. apply process_counter; simpl.
    + exact Ha.
    + exact Hm.
    + intros Ht. assert (Hne : queue (rq w) <> []).
      { intros E. rewrite E in Ht. simpl in Ht. contradiction. }
      specialize (Hq Hne). lia.
  - destruct (take h (suspended w)) as [[[e [d | |]] rest] |] eqn:Ht; try discriminate.
    destruct (d <=? clock w); [| discriminate]. injection Hex as <-.
    pose proof (take_length _ _ _ _ Ht) as Hl.
    assert (Hle : activeRequests (rq w) <= maxConcurrent (rq w)).
    { destruct Hm as [E | H]; [rewrite E in Hl; discriminate | exact H]. }
    apply awaitRateLimit_counter; simpl.
    + rewrite Ha, Hl. reflexivity.
    + exact Hle.
    + exact Hq.
  - destruct (take h (suspended w)) as [[[e [d | |]] rest] |] eqn:Ht; try discriminate.
    injection Hex as <-.
    pose proof (take_length _ _ _ _ Ht) as Hl.
    assert (Hle : activeRequests (rq w) <= maxConcurrent (rq w)).
    { destruct Hm as [E | H]; [rewrite E in Hl; discriminate | exact H]. }
    unfold counter_ok. simpl. rewrite length_app. simpl length.
    split; [rewrite Ha, Hl; f_equal; lia | split; [right; exact Hle | exact Hq]].
  - destruct (take h (suspended w)) as [[[e [d | |]] rest] |] eqn:Ht; try discriminate.
    injection Hex as <-.
    pose proof (take_length _ _ _ _ Ht) as Hl.
    assert (Hle : activeRequests (rq w) <= maxConcurrent (rq w)).
    { destruct Hm as [E | H]; [rewrite E in Hl; discriminate | exact H]. }
    unfold finally. apply process_counter; destruct o; simpl.
    all: try (rewrite Ha, Hl; lia).
    all: try (right; lia).
    all: intros Hne; assert (Hne' : queue (rq w) <> [])
           by (intros E; rewrite E in Hne; simpl in Hne; contradiction);
         specialize (Hq Hne'); lia.
Qed.

Lemma run_invariant (P : World -> Prop) :
  (forall ev w w', exec ev w = Some w' -> P w -> P w') ->
  forall evs w w', run evs w = Some w' -> P w -> P w'.
Proof.
  intros Hstep evs. induction evs as [| ev evs IH]; intros w w' Hrun Hw; simpl in Hrun.
  - injection Hrun as <-. exact Hw.
  - destruct (exec ev w) as [w1 |] eqn:Hex; [| discriminate].
    apply (IH w1 w' Hrun). eapply Hstep; eassumption.
Qed.

Lemma boot_counter (q : RequestQueue) (t0 : Z) :
  activeRequests q = 0 -> queue q = [] -> counter_ok (boot q t0).
Proof.
  intros Ha Hq. unfold counter_ok. simpl. rewrite Ha, Hq.
  split; [reflexivity | split; [left; reflexivity | intros H; contradiction]].
Qed.

Lemma executing_le_suspended (w : World) :
  (length (executing w) <= length (suspended w))%nat.
Proof. unfold executing. apply filter_length_le. Qed.

Lemma awaitRateLimit_limits (e : Entry) (w : World) (m r : Z) :
  maxConcurrent (rq w) = m -> requestsPerSecond (rq w) = r ->
  maxConcurrent (rq (awaitRateLimit e w)) = m
  /\ requestsPerSecond (rq (awaitRateLimit e w)) = r.
Proof.
  intros <- <-.
  destruct (awaitRateLimit_cases e w) as [[-> _] | (oldest & _ & _ & ->)];
    split; reflexivity.
Qed.

Lemma process_limits (w : World) (m r : Z) :
  maxConcurrent (rq w) = m -> requestsPerSecond (rq w) = r ->
  maxConcurrent (rq (process w)) = m
  /\ requestsPerSecond (rq (process w)) = r.
Proof.
  intros <- <-.
  destruct (process_cases w) as [[-> _] | (e & rest & _ & _ & ->)].
  - split; reflexivity.
  - apply awaitRateLimit_limits; reflexivity.
Qed.

(** No method assigns to the two limits. *)
Lemma exec_limits (ev : Event) (w w' : World) :
  exec ev w = Some w' ->
  maxConcurrent (rq w') = maxConcurrent (rq w)
  /\ requestsPerSecond (rq w') = requestsPerSecond (rq w).
Proof.
  intros Hex. destruct ev as [t | f | h | h | h o]; simpl in Hex.
  - injection Hex as <-. split; reflexivity.
  - injection Hex as <-. unfold add. apply process_limits; reflexivity.
  - destruct (take h (suspended w)) as [[[e [d | |]] rest] |]; try discriminate.
    destruct (d <=? clock w); [| discriminate]. injection Hex as <-.
    apply awaitRateLimit_limits; reflexivity.
  - destruct (take h (suspended w)) as [[[e [d | |]] rest] |]; try discriminate.
    injection Hex as <-. split; reflexivity.
  - destruct (take h (suspended w)) as [[[e [d | |]] rest] |]; try discriminate.
    injection Hex as <-. unfold finally.
    destruct o; apply process_limits; reflexivity.
Qed.

Lemma run_limits (evs : list Event) (w w' : World) :
  run evs w = Some w' ->
  maxConcurrent (rq w') = maxConcurrent (rq w)
  /\ requestsPerSecond (rq w') = requestsPerSecond (rq w).
Proof.
  revert w. induction evs as [| ev evs IH]; intros w Hrun; simpl in Hrun.
  - injection Hrun as <-. split; reflexivity.
  - destruct (exec ev w) as [w1 |] eqn:Hex; [| discriminate].
    destruct (exec_limits _ _ _ Hex) as [<- <-]. apply IH. exact Hrun.
Qed.

(** C2.  In every world a run can reach from a new dispatcher whose
    [maxConcurrent] is not negative, the counter is between 0 and
    [maxConcurrent], and so is the number of tasks that have been called and
    have not finished. *)
Theorem activeRequests_bounded
    (mc rps : option Z) (t0 : Z) (evs : list Event) (w : World) :
  0 <= maxConcurrent (constructor mc rps) ->
  run evs (boot (constructor mc rps) t0) = Some w ->
  0 <= activeRequests (rq w) <= maxConcurrent (rq w)
  /\ Z.of_nat (length (executing w)) <= activeRequests (rq w)
  /\ Z.of_nat (length (executing w)) <= maxConcurrent (rq w).
Proof.
  intros Hmc Hrun.
  assert (Hinv : counter_ok w).
  { apply (run_invariant counter_ok exec_counter evs _ _ Hrun).
    apply boot_counter; reflexivity. }
  destruct (run_limits _ _ _ Hrun) as [Hm _]. simpl rq in Hm.
  destruct Hinv as (Ha & Hb & _).
  pose proof (executing_le_suspended w) as Hle.
  assert (Hub : activeRequests (rq w) <= maxConcurrent (rq w)).
  { destruct Hb as [E | H]; [| exact H]. rewrite Ha, E. simpl. lia. }
  lia.
Qed.

(** ** The rate window *)

Lemma stamps_app (tr tr' : list Obs) :
  stamps (tr ++ tr') = stamps tr ++ stamps tr'.
Proof.
  induction tr as [| o tr IH]; simpl; [reflexivity |].
  destruct o; simpl; rewrite IH; reflexivity.
Qed.

Lemma recent_app (c : Z) (l l' : list Z) :
  recent c (l ++ l') = recent c l ++ recent c l'.
Proof. unfold recent. apply List.filter_app. Qed.

Lemma recent_recent (c c' : Z) (l : list Z) :
  c <= c' -> recent c' (recent c l) = recent c' l.
Proof.
  intros Hc. unfold recent. induction l as [| x l IH]; simpl; [reflexivity |].
  destruct (c <? x) eqn:E1; simpl.
  - rewrite IH. reflexivity.
  - assert (E2 : (c' <? x) = false) by (apply Z.ltb_ge; apply Z.ltb_ge in E1; lia).
    rewrite E2. exact IH.
Qed.

Lemma window_le_recent (t c : Z) (l : list Z) :
  c <= t - 1000 -> (length (window t l) <= length (recent c l))%nat.
Proof.
  intros Hc. unfold window, recent. induction l as [| x l IH]; simpl; [lia |].
  destruct ((t - 1000 <? x) && (x <=? t)) eqn:E.
  - apply andb_true_iff in E. destruct E as [E _]. apply Z.ltb_lt in E.
    assert (E2 : (c <? x) = true) by (apply Z.ltb_lt; lia).
    rewrite E2. simpl. lia.
  - destruct (c <? x); simpl; lia.
Qed.

Lemma window_app (t : Z) (l l' : list Z) :
  window t (l ++ l') = window t l ++ window t l'.
Proof. unfold window. apply List.filter_app. Qed.

Lemma awaitRateLimit_rate (e : Entry) (w : World) :
  0 < requestsPerSecond (rq w) ->
  log_agrees w -> rate_ok w ->
  log_agrees (awaitRateLimit e w) /\ rate_ok (awaitRateLimit e w).
Proof.
  intros Hpos Hlog Hrate.
  destruct (awaitRateLimit_cases e w) as [[-> Hroom] | (oldest & _ & _ & ->)].
  - destruct Hroom as [Hroom | [_ Hneg]]; [| lia].
    split.
    + intros c Hc. simpl in *. rewrite stamps_app. simpl.
      rewrite !recent_app. rewrite recent_recent by exact Hc.
      rewrite (Hlog c Hc). reflexivity.
    + intros t. simpl. rewrite stamps_app. simpl.
      destruct (Z_lt_le_dec t (clock w)) as [Hbefore | Hafter].
      * rewrite window_app. rewrite length_app.
        assert (E : window t [clock w] = []).
        { unfold window. simpl.
          assert (E : (clock w <=? t) = false) by (apply Z.leb_gt; exact Hbefore).
          rewrite E, andb_false_r. reflexivity. }
        rewrite E. simpl. rewrite Nat.add_0_r. apply Hrate.
      * pose proof (window_le_recent t (clock w - 1000) (stamps (trace w) ++ [clock w])) as Hw.
        rewrite recent_app in Hw. rewrite (Hlog (clock w - 1000)) in Hw by lia.
        rewrite length_app in Hw.
        assert (E : recent (clock w - 1000) [clock w] = [clock w]).
        { unfold recent. simpl.
          assert (E : (clock w - 1000 <? clock w) = true) by (apply Z.ltb_lt; lia).
          rewrite E. reflexivity. }
        rewrite E in Hw. simpl length in Hw.
        specialize (Hw ltac:(lia)). lia.
  - split.
    + intros c Hc. simpl in *. rewrite recent_recent by exact Hc. apply Hlog. exact Hc.
    + exact Hrate.
Qed.

Lemma process_rate (w : World) :
  0 < requestsPerSecond (rq w) ->
  log_agrees w -> rate_ok w ->
  log_agrees (process w) /\ rate_ok (process w).
Proof.
  intros Hpos Hlog Hrate.
  destruct (process_cases w) as [[-> _] | (e & rest & _ & _ & ->)].
  - split; assumption.
  - apply awaitRateLimit_rate.
    + exact Hpos.
    + intros c Hc. simpl in *. rewrite stamps_app. simpl. rewrite app_nil_r.
      apply Hlog. exact Hc.
    + intros t. simpl. rewrite stamps_app. simpl. rewrite app_nil_r. apply Hrate.
Qed.

Lemma exec_rate (ev : Event) (w w' : World) :
  exec ev w = Some w' ->
  (forall t, ev = Tick t -> clock w <= t) ->
  0 < requestsPerSecond (rq w) ->
  log_agrees w -> rate_ok w ->
  log_agrees w' /\ rate_ok w'.
Proof.
  intros Hex Hmono Hpos Hlog Hrate.
  destruct ev as [t | f | h | h | h o]; simpl in Hex.
  - injection Hex as <-. specialize (Hmono t eq_refl). split.
    + intros c Hc. simpl in *. apply Hlog. lia.
    + exact Hrate.
  - injection Hex as <-. unfold add. apply process_rate; assumption.
  - destruct (take h (suspended w)) as [[[e [d | |]] rest] |]; try discriminate.
    destruct (d <=? clock w); [| discriminate]. injection Hex as <-.
    apply awaitRateLimit_rate; assumption.
  - destruct (take h (suspended w)) as [[[e [d | |]] rest] |]; try discriminate.
    injection Hex as <-. split.
    + intros c Hc. simpl in *. rewrite stamps_app. simpl. rewrite app_nil_r.
      apply Hlog. exact Hc.
    + intros t. simpl. rewrite stamps_app. simpl. rewrite app_nil_r. apply Hrate.
  - destruct (take h (suspended w)) as [[[e [d | |]] rest] |]; try discriminate.
    injection Hex as <-. unfold finally.
    destruct o; apply process_rate; try assumption.
    all: try (intros c Hc; simpl in *; rewrite stamps_app; simpl; rewrite app_nil_r;
              apply Hlog; exact Hc).
    all: intros t; simpl; rewrite stamps_app; simpl; rewrite app_nil_r; apply Hrate.
Qed.

Lemma awaitRateLimit_clock (e : Entry) (w : World) :
  clock (awaitRateLimit e w) = clock w.
Proof.
  destruct (awaitRateLimit_cases e w) as [[-> _] | (oldest & _ & _ & ->)]; reflexivity.
Qed.

Lemma process_clock (w : World) : clock (process w) = clock w.
Proof.
  destruct (process_cases w) as [[-> _] | (e & rest & _ & _ & ->)];
    [reflexivity | rewrite awaitRateLimit_clock; reflexivity].
Qed.

(** Only [Tick] changes what the clock reads. *)
Lemma exec_clock (ev : Event) (w w' : World) :
  exec ev w = Some w' ->
  clock w' = match ev with Tick t => t | _ => clock w end.
Proof.
  intros Hex. destruct ev as [t | f | h | h | h o]; simpl in Hex.
  - injection Hex as <-. reflexivity.
  - injection Hex as <-. unfold add. rewrite process_clock. reflexivity.
  - destruct (take h (suspended w)) as [[[e [d | |]] rest] |]; try discriminate.
    destruct (d <=? clock w); [| discriminate]. injection Hex as <-.
    rewrite awaitRateLimit_clock. reflexivity.
  - destruct (take h (suspended w)) as [[[e [d | |]] rest] |]; try discriminate.
    injection Hex as <-. reflexivity.
  - destruct (take h (suspended w)) as [[[e [d | |]] rest] |]; try discriminate.
    injection Hex as <-. unfold finally. rewrite process_clock.
    destruct o; reflexivity.
Qed.

Lemma run_rate (evs : list Event) (w w' : World) :
  run evs w = Some w' ->
  steady (clock w) evs ->
  0 < requestsPerSecond (rq w) ->
  log_agrees w -> rate_ok w ->
  log_agrees w' /\ rate_ok w'.
Proof.
  revert w. induction evs as [| ev evs IH]; intros w Hrun Hst Hpos Hlog Hrate;
    simpl in Hrun.
  - injection Hrun as <-. split; assumption.
  - destruct (exec ev w) as [w1 |] eqn:Hex; [| discriminate].
    pose proof (exec_clock _ _ _ Hex) as Hck.
    destruct (exec_limits _ _ _ Hex) as [_ Hr].
    assert (Hmono : forall t, ev = Tick t -> clock w <= t).
    { intros t ->. simpl in Hst. tauto. }
    destruct (exec_rate _ _ _ Hex Hmono Hpos Hlog Hrate) as [Hlog1 Hrate1].
    apply (IH w1); try assumption.
    + rewrite Hck. destruct ev; simpl in Hst; tauto.
    + rewrite Hr. exact Hpos.
Qed.

(** ** The life of an entry *)

Lemma lifecycle_perm (sh qh suh suh' : list nat) (ps : list Promise)
    (cl cl' : nat -> list Outcome) :
  suh ≡ₚ suh' -> (forall h, cl' h = cl h) ->
  lifecycle sh qh suh ps cl -> lifecycle sh qh suh' ps cl'.
Proof.
  intros Hp Hc (F & S1 & S2 & P & K). unfold lifecycle.
  split; [exact F |]. split; [rewrite <- Hp; exact S1 |].
  split; [intros h; rewrite <- Hp; apply S2 |].
  split; [intros h; rewrite <- Hp; apply P |].
  intros h. rewrite Hc. apply K.
Qed.

Lemma lifecycle_shifted_fresh (sh qh suh : list nat) (ps : list Promise)
    (cl : nat -> list Outcome) (h : nat) :
  lifecycle sh qh suh ps cl -> h ∈ sh -> h ∉ qh.
Proof.
  intros (F & _) Hin Hq.
  pose proof (NoDup_seq 0 (length ps)) as Hnd. rewrite <- F in Hnd.
  apply NoDup_app in Hnd. destruct Hnd as (_ & Hd & _).
  exact (Hd h Hin Hq).
Qed.

(** Line 45 and the activation that follows it. *)
Lemma lifecycle_dispatch (sh qh suh : list nat) (ps : list Promise)
    (cl : nat -> list Outcome) (h : nat) :
  lifecycle sh (h :: qh) suh ps cl ->
  lifecycle (sh ++ [h]) qh (suh ++ [h]) ps cl.
Proof.
  intros Hl. pose proof Hl as (F & S1 & S2 & P & K). unfold lifecycle.
  assert (Hfresh : h ∉ sh).
  { intros Hin. apply (lifecycle_shifted_fresh _ _ _ _ _ h Hl Hin). left. }
  split; [rewrite <- app_assoc; exact F |].
  split.
  { apply NoDup_app. split; [exact S1 |]. split; [| apply NoDup_singleton].
    intros x Hx Hx'. apply list_elem_of_singleton in Hx'. subst x.
    apply Hfresh, S2, Hx. }
  split.
  { intros x Hx. apply elem_of_app in Hx. apply elem_of_app.
    destruct Hx as [Hx | Hx]; [left; apply S2, Hx | right; exact Hx]. }
  split; [| exact K].
  intros x. rewrite P. rewrite elem_of_cons, elem_of_app, list_elem_of_singleton.
  tauto.
Qed.

(** Lines 33-34: a new pending promise and its entry at the back. *)
Lemma lifecycle_submit (sh qh suh : list nat) (ps : list Promise)
    (cl : nat -> list Outcome) :
  lifecycle sh qh suh ps cl ->
  lifecycle sh (qh ++ [length ps]) suh (ps ++ [Pending]) cl.
Proof.
  intros (F & S1 & S2 & P & K). unfold lifecycle.
  assert (Hbound : forall h, h ∈ qh \/ h ∈ suh -> (h < length ps)%nat).
  { intros h Hh.
    assert (Hin : h ∈ sh ++ qh).
    { apply elem_of_app. destruct Hh as [Hh | Hh]; [right; exact Hh | left; apply S2, Hh]. }
    rewrite F in Hin. apply elem_of_seq in Hin. lia. }
  split.
  { rewrite length_app. simpl length. rewrite Nat.add_1_r, seq_S. simpl.
    rewrite app_assoc, F. reflexivity. }
  split; [exact S1 |]. split; [exact S2 |].
  split.
  - intros h. rewrite elem_of_app, list_elem_of_singleton.
    destruct (Nat.lt_trichotomy h (length ps)) as [Hlt | [Heq | Hgt]].
    + rewrite lookup_app_l by exact Hlt. rewrite P. split; [tauto |].
      intros [[Hq | Heq] | Hs]; [left; exact Hq | lia | right; exact Hs].
    + subst h. split; [intros _; left; right; reflexivity |].
      intros _. apply list_lookup_middle. reflexivity.
    + split.
      * intros Hsome. apply lookup_lt_Some in Hsome.
        rewrite length_app in Hsome. simpl in Hsome. lia.
      * intros [[Hq | Heq] | Hs]; [| lia |].
        -- specialize (Hbound h (or_introl Hq)). lia.
        -- specialize (Hbound h (or_intror Hs)). lia.
  - intros h. rewrite K.
    destruct (Nat.lt_trichotomy h (length ps)) as [Hlt | [Heq | Hgt]].
    + rewrite lookup_app_l by exact Hlt. reflexivity.
    + subst h. rewrite list_lookup_middle by reflexivity.
      rewrite (proj2 (lookup_ge_None ps (length ps))) by lia. reflexivity.
    + rewrite (proj2 (lookup_ge_None ps h)) by lia.
      rewrite (proj2 (lookup_ge_None (ps ++ [Pending]) h)); [reflexivity |].
      rewrite length_app. simpl. lia.
Qed.

(** Lines 50 and 52: the one settling call of the entry whose activation
    ends. *)
Lemma lifecycle_settle (sh qh suh : list nat) (ps : list Promise)
    (cl : nat -> list Outcome) (h : nat) (o : Outcome) :
  lifecycle sh qh (h :: suh) ps cl ->
  ps !! h = Some Pending
  /\ lifecycle sh qh suh (<[h := of_outcome o]> ps)
       (fun h' => cl h' ++ if (h =? h')%nat then [o] else []).
Proof.
  intros Hl. pose proof Hl as (F & S1 & S2 & P & K).
  assert (Hpend : ps !! h = Some Pending).
  { apply P. right. left. }
  split; [exact Hpend |]. unfold lifecycle.
  assert (Hlt : (h < length ps)%nat) by (eapply lookup_lt_Some; exact Hpend).
  assert (Hnq : h ∉ qh).
  { apply (lifecycle_shifted_fresh _ _ _ _ _ h Hl). apply S2. left. }
  assert (Hns : h ∉ suh) by (apply NoDup_cons_1_1; exact S1).
  split; [rewrite length_insert; exact F |].
  split; [eapply NoDup_cons_1_2; exact S1 |].
  split; [intros x Hx; apply S2; right; exact Hx |].
  split.
  - intros x. destruct (Nat.eq_dec h x) as [<- | Hne].
    + rewrite list_lookup_insert_eq by exact Hlt. split.
      * intros E. destruct o; discriminate.
      * intros [Hq | Hs]; contradiction.
    + rewrite list_lookup_insert_ne by exact Hne. rewrite P, elem_of_cons.
      split; [intros [Hq | [E | Hs]]; [left; exact Hq | congruence | right; exact Hs] |].
      intros [Hq | Hs]; [left; exact Hq | right; right; exact Hs].
  - intros x. destruct (Nat.eq_dec h x) as [<- | Hne].
    + rewrite Nat.eqb_refl, K, Hpend.
      rewrite list_lookup_insert_eq by exact Hlt. destruct o; reflexivity.
    + apply Nat.eqb_neq in Hne as Hb. rewrite Hb, app_nil_r, K.
      rewrite list_lookup_insert_ne by exact Hne. reflexivity.
Qed.

Lemma shifts_app (tr tr' : list Obs) :
  shifts (tr ++ tr') = shifts tr ++ shifts tr'.
Proof.
  induction tr as [| o tr IH]; simpl; [reflexivity |].
  destruct o; simpl; rewrite IH; reflexivity.
Qed.

Lemma cleared_app (tr tr' : list Obs) :
  cleared (tr ++ tr') = cleared tr ++ cleared tr'.
Proof.
  induction tr as [| o tr IH]; simpl; [reflexivity |].
  destruct o; simpl; rewrite IH; reflexivity.
Qed.

Lemma invocations_app (tr tr' : list Obs) :
  invocations (tr ++ tr') = invocations tr ++ invocations tr'.
Proof.
  induction tr as [| o tr IH]; simpl; [reflexivity |].
  destruct o; simpl; rewrite IH; reflexivity.
Qed.

Lemma calls_app (h : nat) (tr tr' : list Obs) :
  calls h (tr ++ tr') = calls h tr ++ calls h tr'.
Proof.
  induction tr as [| o tr IH]; simpl; [reflexivity |].
  destruct o; simpl; try exact IH;
    destruct (_ =? h)%nat; simpl; rewrite IH; reflexivity.
Qed.

Lemma take_handles (h : nat) (l rest : list Activation) (a : Activation) :
  take h l = Some (a, rest) ->
  map (fun a => handle (entry a)) l
    ≡ₚ h :: map (fun a => handle (entry a)) rest.
Proof.
  intros Ht. rewrite <- (take_handle _ _ _ _ Ht).
  apply (Permutation_map (fun a => handle (entry a)) (take_Permutation _ _ _ _ Ht)).
Qed.

Lemma awaitRateLimit_lifecycle (e : Entry) (w : World) :
  lifecycle (shifts (trace w)) (queued_handles w)
    (suspended_handles w ++ [handle e]) (promises w)
    (fun h => calls h (trace w)) ->
  lifecycle_ok (awaitRateLimit e w).
Proof.
  intros Hl. unfold lifecycle_ok, queued_handles, suspended_handles.
  destruct (awaitRateLimit_cases e w) as [[-> _] | (oldest & _ & _ & ->)];
    simpl; rewrite map_app; simpl.
  - rewrite shifts_app. simpl. rewrite app_nil_r.
    refine (lifecycle_perm _ _ _ _ _ _ _ _ _ Hl); [reflexivity |].
    intros h. rewrite calls_app. simpl. apply app_nil_r.
  - exact Hl.
Qed.

Lemma process_lifecycle (w : World) :
  lifecycle_ok w -> lifecycle_ok (process w).
Proof.
  intros Hl.
  destruct (process_cases w) as [[-> _] | (e & rest & Hq & _ & ->)].
  - exact Hl.
  - apply awaitRateLimit_lifecycle. unfold queued_handles, suspended_handles. simpl.
    unfold lifecycle_ok, queued_handles in Hl. rewrite Hq in Hl. simpl in Hl.
    apply lifecycle_dispatch in Hl. rewrite shifts_app. simpl.
    refine (lifecycle_perm _ _ _ _ _ _ _ _ _ Hl); [reflexivity |].
    intros h. rewrite calls_app. simpl. apply app_nil_r.
Qed.

Lemma submit_lifecycle (f : Task) (w : World) :
  lifecycle_ok w ->
  lifecycle_ok
    (with_rq (with_queue (queue (rq w) ++ [mkEntry f (length (promises w))]) (rq w))
       (with_promises (promises w ++ [Pending]) w)).
Proof.
  intros Hl.
  unfold lifecycle_ok, queued_handles, suspended_handles. simpl.
  rewrite map_app. simpl. apply lifecycle_submit. exact Hl.
Qed.

Lemma add_lifecycle (f : Task) (w : World) :
  lifecycle_ok w -> lifecycle_ok (add f w).
Proof.
  intros Hl. unfold add. apply process_lifecycle.
  apply (submit_lifecycle f w Hl).
Qed.

Lemma deliver_lifecycle (e : Entry) (o : Outcome) (rest : list Activation) (w : World) :
  lifecycle (shifts (trace w)) (queued_handles w)
    (handle e :: map (fun a => handle (entry a)) rest) (promises w)
    (fun h => calls h (trace w)) ->
  promises w !! handle e = Some Pending
  /\ promises (deliver e o (with_suspended rest w))
     = <[handle e := of_outcome o]> (promises w)
  /\ lifecycle_ok (deliver e o (with_suspended rest w)).
Proof.
  intros Hl. destruct (lifecycle_settle _ _ _ _ _ _ o Hl) as [Hpend Hl'].
  split; [exact Hpend |].
  assert (Hs : forall p, settle (handle e) p (promises w) = <[handle e := p]> (promises w)).
  { intros p. unfold settle. rewrite Hpend. reflexivity. }
  split.
  - destruct o; simpl; apply Hs.
  - unfold lifecycle_ok, queued_handles, suspended_handles.
    destruct o; simpl; rewrite Hs, shifts_app; simpl; rewrite app_nil_r;
      (refine (lifecycle_perm _ _ _ _ _ _ _ _ _ Hl'); [reflexivity |]);
      intros h; rewrite calls_app; simpl; destruct (_ =? h)%nat; reflexivity.
Qed.

Lemma exec_lifecycle (ev : Event) (w w' : World) :
  exec ev w = Some w' -> lifecycle_ok w -> lifecycle_ok w'.
Proof.
  intros Hex Hl. destruct ev as [t | f | h | h | h o]; simpl in Hex.
  - injection Hex as <-. exact Hl.
  - injection Hex as <-. apply add_lifecycle. exact Hl.
  - destruct (take h (suspended w)) as [[[e [d | |]] rest] |] eqn:Ht; try discriminate.
    destruct (d <=? clock w); [| discriminate]. injection Hex as <-.
    apply awaitRateLimit_lifecycle. unfold queued_handles, suspended_handles. simpl.
    refine (lifecycle_perm _ _ _ _ _ _ _ _ _ Hl); [| reflexivity].
    unfold suspended_handles. rewrite (take_handles _ _ _ _ Ht).
    rewrite <- (take_handle _ _ _ _ Ht). simpl.
    apply Permutation_cons_append.
  - destruct (take h (suspended w)) as [[[e [d | |]] rest] |] eqn:Ht; try discriminate.
    injection Hex as <-.
    unfold lifecycle_ok, queued_handles, suspended_handles. simpl.
    rewrite map_app, shifts_app. simpl. rewrite app_nil_r.
    refine (lifecycle_perm _ _ _ _ _ _ _ _ _ Hl).
    + unfold suspended_handles. rewrite (take_handles _ _ _ _ Ht).
      rewrite <- (take_handle _ _ _ _ Ht). simpl.
      apply Permutation_cons_append.
    + intros x. rewrite calls_app. simpl. apply app_nil_r.
  - destruct (take h (suspended w)) as [[[e [d | |]] rest] |] eqn:Ht; try discriminate.
    injection Hex as <-.
    assert (Hl1 : lifecycle (shifts (trace w)) (queued_handles w)
              (handle e :: map (fun a => handle (entry a)) rest) (promises w)
              (fun h => calls h (trace w))).
    { refine (lifecycle_perm _ _ _ _ _ _ _ _ _ Hl); [| reflexivity].
      unfold suspended_handles. rewrite (take_handles _ _ _ _ Ht).
      rewrite <- (take_handle _ _ _ _ Ht). reflexivity. }
    destruct (deliver_lifecycle e o rest w Hl1) as (_ & _ & Hl2).
    unfold finally. apply process_lifecycle.
    exact Hl2.
Qed.

(** ** The order of what happens to an entry *)

Lemma orderly_nil : orderly [].
Proof. intros past o rest H. destruct past; discriminate. Qed.

Lemma orderly_snoc (tr : list Obs) (o : Obs) :
  orderly tr -> may_follow tr o -> orderly (tr ++ [o]).
Proof.
  intros Ho Hm past o' rest E.
  destruct rest as [| x rest' _] using rev_ind.
  - apply (app_inj_tail tr past o o') in E. destruct E as [-> ->]. exact Hm.
  - change (past ++ o' :: rest' ++ [x]) with (past ++ (o' :: rest') ++ [x]) in E.
    rewrite app_assoc in E. apply app_inj_tail in E. destruct E as [E _].
    exact (Ho past o' rest' E).
Qed.

Lemma stage_ok_keep (tr : list Obs) (o : Obs) (a : Activation) :
  cleared [o] = [] -> invocations [o] = [] ->
  stage_ok tr a -> stage_ok (tr ++ [o]) a.
Proof.
  intros Hc Hi. unfold stage_ok.
  rewrite cleared_app, invocations_app, Hc, Hi, !app_nil_r. tauto.
Qed.

Lemma stage_ok_other (tr : list Obs) (o : Obs) (h : nat) (a : Activation) :
  (forall x, x ∈ cleared [o] -> x = h) ->
  (forall x, x ∈ invocations [o] -> x = h) ->
  handle (entry a) <> h ->
  stage_ok tr a -> stage_ok (tr ++ [o]) a.
Proof.
  intros Hc Hi Hne. unfold stage_ok.
  rewrite cleared_app, invocations_app.
  assert (Hc' : handle (entry a) ∉ cleared [o]) by (intros H; apply Hne, Hc, H).
  assert (Hi' : handle (entry a) ∉ invocations [o]) by (intros H; apply Hne, Hi, H).
  destruct (stage a); rewrite ?elem_of_app; tauto.
Qed.

Lemma Forall_stage_ok_other (tr : list Obs) (o : Obs) (h : nat) (l : list Activation) :
  (forall x, x ∈ cleared [o] -> x = h) ->
  (forall x, x ∈ invocations [o] -> x = h) ->
  h ∉ map (fun a => handle (entry a)) l ->
  Forall (stage_ok tr) l -> Forall (stage_ok (tr ++ [o])) l.
Proof.
  intros Hc Hi Hnin Hf. induction Hf as [| a l Ha Hf IH]; constructor.
  - apply (stage_ok_other tr o h); try assumption.
    intros E. apply Hnin. simpl. rewrite E. left.
  - apply IH. intros Hin. apply Hnin. simpl. right. exact Hin.
Qed.

Lemma Forall_stage_ok_keep (tr : list Obs) (o : Obs) (l : list Activation) :
  cleared [o] = [] -> invocations [o] = [] ->
  Forall (stage_ok tr) l -> Forall (stage_ok (tr ++ [o])) l.
Proof.
  intros Hc Hi Hf. eapply Forall_impl; [exact Hf |].
  intros a. apply stage_ok_keep; assumption.
Qed.

(** [await this.waitForRateLimit()] for an entry that was shifted and has no
    clearance yet. *)
Lemma awaitRateLimit_starts (e : Entry) (w : World) :
  starts_ok w ->
  handle e ∈ shifts (trace w) ->
  handle e ∉ cleared (trace w) ->
  handle e ∉ suspended_handles w ->
  starts_ok (awaitRateLimit e w).
Proof.
  intros (Ho & Hf & Hcs & Hic) Hsh Hnc Hns.
  assert (Hni : handle e ∉ invocations (trace w)) by (intros H; apply Hnc, Hic, H).
  destruct (awaitRateLimit_cases e w) as [[-> _] | (oldest & _ & _ & ->)];
    unfold starts_ok; simpl.
  - split; [apply orderly_snoc; [exact Ho | split; assumption] |].
    split.
    { apply Forall_app. split.
      - apply (Forall_stage_ok_other _ _ (handle e)); try assumption.
        + intros x Hx. simpl in Hx. apply list_elem_of_singleton in Hx. exact Hx.
        + intros x Hx. simpl in Hx. inversion Hx.
      - constructor; [| constructor]. unfold stage_ok. simpl.
        rewrite cleared_app, invocations_app. simpl. rewrite app_nil_r.
        split; [apply elem_of_app; right; left | exact Hni]. }
    split.
    + intros h. rewrite cleared_app, shifts_app. simpl. rewrite app_nil_r.
      rewrite elem_of_app, list_elem_of_singleton.
      intros [H | ->]; [apply Hcs, H | exact Hsh].
    + intros h. rewrite cleared_app, invocations_app. simpl. rewrite app_nil_r.
      intros H. apply elem_of_app. left. apply Hic, H.
  - split; [exact Ho |]. split; [| split; assumption].
    apply Forall_app. split; [exact Hf |].
    constructor; [| constructor]. unfold stage_ok. simpl. split; assumption.
Qed.

Lemma process_starts (w : World) :
  lifecycle_ok w -> starts_ok w -> starts_ok (process w).
Proof.
  intros Hl Hs.
  destruct (process_cases w) as [[-> _] | (e & rest & Hq & _ & ->)]; [exact Hs |].
  pose proof Hl as (F & S1 & S2 & P & K).
  destruct Hs as (Ho & Hf & Hcs & Hic).
  assert (Hfresh : handle e ∉ shifts (trace w)).
  { intros Hin. apply (lifecycle_shifted_fresh _ _ _ _ _ _ Hl Hin).
    unfold queued_handles. rewrite Hq. left. }
  apply awaitRateLimit_starts; simpl.
  - unfold starts_ok. simpl.
    split; [apply orderly_snoc; [exact Ho | exact Hfresh] |].
    split; [apply Forall_stage_ok_keep; [reflexivity | reflexivity | exact Hf] |].
    split.
    + intros h. rewrite cleared_app, shifts_app. simpl. rewrite app_nil_r.
      intros H. apply elem_of_app. left. apply Hcs, H.
    + intros h. rewrite cleared_app, invocations_app. simpl. rewrite !app_nil_r.
      apply Hic.
  - rewrite shifts_app. apply elem_of_app. right. left.
  - rewrite cleared_app. simpl. rewrite app_nil_r.
    intros H. apply Hfresh, Hcs, H.
  - unfold suspended_handles. simpl. intros H. apply Hfresh, S2, H.
Qed.

Lemma take_Forall (P : Activation -> Prop) (h : nat) (l rest : list Activation)
    (a : Activation) :
  take h l = Some (a, rest) -> Forall P l -> P a /\ Forall P rest.
Proof.
  intros Ht Hf. apply take_Permutation in Ht. rewrite Ht in Hf.
  apply Forall_cons in Hf. exact Hf.
Qed.

Lemma take_NoDup (h : nat) (l rest : list Activation) (a : Activation) :
  take h l = Some (a, rest) ->
  NoDup (map (fun a => handle (entry a)) l) ->
  h ∉ map (fun a => handle (entry a)) rest.
Proof.
  intros Ht Hnd. rewrite (take_handles _ _ _ _ Ht) in Hnd.
  apply NoDup_cons_1_1 in Hnd. exact Hnd.
Qed.

Lemma take_elem (h : nat) (l rest : list Activation) (a : Activation) :
  take h l = Some (a, rest) -> h ∈ map (fun a => handle (entry a)) l.
Proof.
  intros Ht. rewrite (take_handles _ _ _ _ Ht). left.
Qed.

Lemma exec_starts (ev : Event) (w w' : World) :
  exec ev w = Some w' -> lifecycle_ok w -> starts_ok w -> starts_ok w'.
Proof.
  intros Hex Hl Hs. destruct ev as [t | f | h | h | h o]; simpl in Hex.
  - injection Hex as <-. exact Hs.
  - injection Hex as <-. unfold add. apply process_starts.
    + apply (submit_lifecycle f w Hl).
    + exact Hs.
  - destruct (take h (suspended w)) as [[[e [d | |]] rest] |] eqn:Ht; try discriminate.
    destruct (d <=? clock w); [| discriminate]. injection Hex as <-.
    pose proof Hl as (F & S1 & S2 & P & K).
    destruct Hs as (Ho & Hf & Hcs & Hic).
    pose proof (take_handle _ _ _ _ Ht) as Hh. simpl in Hh.
    destruct (take_Forall _ _ _ _ _ Ht Hf) as [[Ha1 Ha2] Hrest]. simpl in Ha1, Ha2.
    apply awaitRateLimit_starts; simpl.
    + split; [exact Ho | split; [exact Hrest | split; assumption]].
    + apply S2. rewrite Hh. apply (take_elem _ _ _ _ Ht).
    + exact Ha1.
    + rewrite Hh. apply (take_NoDup _ _ _ _ Ht S1).
  - destruct (take h (suspended w)) as [[[e [d | |]] rest] |] eqn:Ht; try discriminate.
    injection Hex as <-.
    pose proof Hl as (F & S1 & S2 & P & K).
    destruct Hs as (Ho & Hf & Hcs & Hic).
    pose proof (take_handle _ _ _ _ Ht) as Hh. simpl in Hh. subst h.
    destruct (take_Forall _ _ _ _ _ Ht Hf) as [[Ha1 Ha2] Hrest]. simpl in Ha1, Ha2.
    unfold starts_ok. simpl.
    split; [apply orderly_snoc; [exact Ho | split; assumption] |].
    split.
    { apply Forall_app. split.
      - apply (Forall_stage_ok_other _ _ (handle e)); try assumption.
        + intros x Hx. inversion Hx.
        + intros x Hx. simpl in Hx. apply list_elem_of_singleton in Hx. exact Hx.
        + apply (take_NoDup _ _ _ _ Ht S1).
      - constructor; [| constructor]. unfold stage_ok. simpl.
        rewrite cleared_app, invocations_app. simpl. rewrite app_nil_r.
        split; [exact Ha1 | apply elem_of_app; right; left]. }
    split.
    + intros x. rewrite cleared_app, shifts_app. simpl. rewrite !app_nil_r. apply Hcs.
    + intros x. rewrite cleared_app, invocations_app. simpl. rewrite app_nil_r.
      rewrite elem_of_app, list_elem_of_singleton.
      intros [H | ->]; [apply Hic, H | exact Ha1].
  - destruct (take h (suspended w)) as [[[e [d | |]] rest] |] eqn:Ht; try discriminate.
    injection Hex as <-.
    pose proof Hl as (F & S1 & S2 & P & K).
    pose proof (take_handle _ _ _ _ Ht) as Hh. simpl in Hh. subst h.
    assert (Hl1 : lifecycle (shifts (trace w)) (queued_handles w)
              (handle e :: map (fun a => handle (entry a)) rest) (promises w)
              (fun h => calls h (trace w))).
    { refine (lifecycle_perm _ _ _ _ _ _ _ _ _ Hl); [| reflexivity].
      unfold suspended_handles. rewrite (take_handles _ _ _ _ Ht). reflexivity. }
    destruct (deliver_lifecycle e o rest w Hl1) as (Hpend & _ & Hl2).
    destruct Hs as (Ho & Hf & Hcs & Hic).
    destruct (take_Forall _ _ _ _ _ Ht Hf) as [[Ha1 Ha2] Hrest]. simpl in Ha1, Ha2.
    assert (Hcalls : calls (handle e) (trace w) = []).
    { rewrite K, Hpend. reflexivity. }
    unfold finally. apply process_starts; [exact Hl2 |].
    unfold starts_ok. destruct o; simpl.
    all: split; [apply orderly_snoc; [exact Ho | split; assumption] |].
    all: split; [apply Forall_stage_ok_keep; [reflexivity | reflexivity | exact Hrest] |].
    all: split; intros x; rewrite ?cleared_app, ?shifts_app, ?invocations_app; simpl;
           rewrite ?app_nil_r; [apply Hcs | apply Hic].
Qed.

Lemma exec_well_formed (ev : Event) (w w' : World) :
  exec ev w = Some w' -> well_formed w -> well_formed w'.
Proof.
  intros Hex (Hc & Hl & Hs). split; [| split].
  - eapply exec_counter; eassumption.
  - eapply exec_lifecycle; eassumption.
  - eapply exec_starts; eassumption.
Qed.

Lemma boot_well_formed (mc rps : option Z) (t0 : Z) :
  well_formed (boot (constructor mc rps) t0).
Proof.
  split; [apply boot_counter; reflexivity |]. split.
  - unfold lifecycle_ok, lifecycle. simpl.
    split; [reflexivity |]. split; [apply NoDup_nil_2 |].
    split; [intros h H; inversion H |].
    split; [| intros h; reflexivity].
    intros h. split; [intros H; discriminate |].
    intros [H | H]; inversion H.
  - unfold starts_ok. simpl. split; [apply orderly_nil |].
    split; [constructor |]. split; intros h H; inversion H.
Qed.

Lemma run_well_formed (evs : list Event) (w w' : World) :
  run evs w = Some w' -> well_formed w -> well_formed w'.
Proof. apply (run_invariant well_formed exec_well_formed). Qed.

Lemma reachable_well_formed (mc rps : option Z) (t0 : Z) (evs : list Event) (w : World) :
  run evs (boot (constructor mc rps) t0) = Some w -> well_formed w.
Proof.
  intros Hrun. apply (run_well_formed _ _ _ Hrun). apply boot_well_formed.
Qed.

(** ** The phases of an entry *)

Lemma awaitRateLimit_trace (e : Entry) (w : World) :
  exists tr', trace (awaitRateLimit e w) = trace w ++ tr'
              /\ promises (awaitRateLimit e w) = promises w.
Proof.
  destruct (awaitRateLimit_cases e w) as [[-> _] | (oldest & _ & _ & ->)]; simpl.
  - eexists. split; reflexivity.
  - exists []. rewrite app_nil_r. split; reflexivity.
Qed.

Lemma process_trace (w : World) :
  exists tr', trace (process w) = trace w ++ tr'
              /\ promises (process w) = promises w.
Proof.
  destruct (process_cases w) as [[-> _] | (e & rest & _ & _ & ->)].
  - exists []. rewrite app_nil_r. split; reflexivity.
  - match goal with
    | |- context [awaitRateLimit e ?u] =>
        destruct (awaitRateLimit_trace e u) as (tr' & -> & ->)
    end.
    simpl. rewrite <- app_assoc. eexists. split; reflexivity.
Qed.

(** The trace only grows. *)
Lemma exec_trace (ev : Event) (w w' : World) :
  exec ev w = Some w' -> exists tr', trace w' = trace w ++ tr'.
Proof.
  intros Hex. destruct ev as [t | f | h | h | h o]; simpl in Hex.
  - injection Hex as <-. exists []. simpl. rewrite app_nil_r. reflexivity.
  - injection Hex as <-. unfold add.
    match goal with
    | |- context [process ?u] => destruct (process_trace u) as (tr' & -> & _)
    end.
    exists tr'. reflexivity.
  - destruct (take h (suspended w)) as [[[e [d | |]] rest] |]; try discriminate.
    destruct (d <=? clock w); [| discriminate]. injection Hex as <-.
    match goal with
    | |- context [awaitRateLimit e ?u] =>
        destruct (awaitRateLimit_trace e u) as (tr' & -> & _)
    end.
    exists tr'. reflexivity.
  - destruct (take h (suspended w)) as [[[e [d | |]] rest] |]; try discriminate.
    injection Hex as <-. eexists. reflexivity.
  - destruct (take h (suspended w)) as [[[e [d | |]] rest] |]; try discriminate.
    injection Hex as <-. unfold finally.
    match goal with
    | |- context [process ?u] => destruct (process_trace u) as (tr' & -> & _)
    end.
    destruct o; simpl; rewrite <- app_assoc; eexists; reflexivity.
Qed.

Lemma run_trace (evs : list Event) (w w' : World) :
  run evs w = Some w' -> exists tr', trace w' = trace w ++ tr'.
Proof.
  revert w. induction evs as [| ev evs IH]; intros w Hrun; simpl in Hrun.
  - injection Hrun as <-. exists []. rewrite app_nil_r. reflexivity.
  - destruct (exec ev w) as [w1 |] eqn:Hex; [| discriminate].
    destruct (exec_trace _ _ _ Hex) as (tr1 & E1).
    destruct (IH _ Hrun) as (tr2 & E2).
    exists (tr1 ++ tr2). rewrite E2, E1, app_assoc. reflexivity.
Qed.

Lemma lifecycle_phase (w : World) (h : nat) :
  lifecycle_ok w -> (h < length (promises w))%nat -> exists p, in_phase w h p.
Proof.
  intros Hl Hlt. pose proof Hl as (F & S1 & S2 & P & K).
  destruct (promises w !! h) as [[| v | e] |] eqn:Hp.
  - destruct (proj1 (P h) Hp) as [Hq | Hs].
    + exists Queued. simpl. rewrite K, Hp. repeat split; try assumption.
      intros Hs. apply (lifecycle_shifted_fresh _ _ _ _ _ h Hl); [apply S2, Hs | exact Hq].
    + exists Dispatched. simpl. rewrite K, Hp. repeat split; try assumption.
      apply (lifecycle_shifted_fresh _ _ _ _ _ h Hl). apply S2, Hs.
  - exists (Succeeded v). simpl. rewrite K, Hp.
    assert (Hn : ~ (h ∈ queued_handles w \/ h ∈ suspended_handles w)).
    { intros H. apply P in H. rewrite Hp in H. discriminate. }
    repeat split; try reflexivity; intros H; apply Hn; tauto.
  - exists (Failed e). simpl. rewrite K, Hp.
    assert (Hn : ~ (h ∈ queued_handles w \/ h ∈ suspended_handles w)).
    { intros H. apply P in H. rewrite Hp in H. discriminate. }
    repeat split; try reflexivity; intros H; apply Hn; tauto.
  - apply lookup_ge_None in Hp. lia.
Qed.

Lemma in_phase_unique (w : World) (h : nat) (p p' : Phase) :
  in_phase w h p -> in_phase w h p' -> p = p'.
Proof.
  destruct p, p'; simpl; intros (A1 & A2 & A3 & A4) (B1 & B2 & B3 & B4);
    try reflexivity; try contradiction; try congruence.
Qed.

Lemma phase_moves_forward (evs : list Event) (w w' : World) (h : nat) (p p' : Phase) :
  lifecycle_ok w -> lifecycle_ok w' ->
  run evs w = Some w' ->
  in_phase w h p -> in_phase w' h p' -> phase_step p p'.
Proof.
  intros Hl Hl' Hrun Hp Hp'.
  destruct (run_trace _ _ _ Hrun) as (tr' & Etr).
  pose proof Hl as (F & S1 & S2 & P & K).
  pose proof Hl' as (F' & S1' & S2' & P' & K').
  assert (Hcalls : calls h (trace w') = calls h (trace w) ++ calls h tr').
  { rewrite Etr. apply calls_app. }
  assert (Hshort : (length (calls h (trace w')) <= 1)%nat).
  { rewrite K'. destruct (promises w' !! h) as [[| ? | ?] |]; simpl; lia. }
  destruct p; simpl in Hp; destruct Hp as (A1 & A2 & A3 & A4).
  - exact I.
  - destruct p'; simpl in Hp'; destruct Hp' as (B1 & B2 & B3 & B4); simpl; try exact I.
    apply (lifecycle_shifted_fresh _ _ _ _ _ h Hl'); [| exact B1].
    rewrite Etr, shifts_app. apply elem_of_app. left. apply S2, A2.
  - rewrite A4 in Hcalls. rewrite Hcalls in Hshort. simpl in Hshort.
    assert (E : calls h tr' = []) by (destruct (calls h tr'); [reflexivity | simpl in Hshort; lia]).
    rewrite E in Hcalls. simpl in Hcalls.
    destruct p'; simpl in Hp'; destruct Hp' as (B1 & B2 & B3 & B4); simpl;
      congruence.
  - rewrite A4 in Hcalls. rewrite Hcalls in Hshort. simpl in Hshort.
    assert (E : calls h tr' = []) by (destruct (calls h tr'); [reflexivity | simpl in Hshort; lia]).
    rewrite E in Hcalls. simpl in Hcalls.
    destruct p'; simpl in Hp'; destruct Hp' as (B1 & B2 & B3 & B4); simpl;
      congruence.
Qed.

Lemma phase_of_promise (w : World) (h : nat) (o : Outcome) :
  lifecycle_ok w -> promises w !! h = Some (of_outcome o) ->
  in_phase w h (terminal o).
Proof.
  intros Hl Hp.
  assert (Hlt : (h < length (promises w))%nat) by (eapply lookup_lt_Some; exact Hp).
  destruct (lifecycle_phase w h Hl Hlt) as (p & Hph).
  destruct p, o; simpl in *; destruct Hph as (A1 & A2 & A3 & A4);
    rewrite Hp in A3; try discriminate; injection A3 as <-;
    repeat split; assumption.
Qed.

Lemma phase_of_suspended (w : World) (h : nat) :
  lifecycle_ok w -> h ∈ suspended_handles w -> in_phase w h Dispatched.
Proof.
  intros Hl Hs. pose proof Hl as (F & S1 & S2 & P & K). simpl.
  assert (Hp : promises w !! h = Some Pending) by (apply P; right; exact Hs).
  rewrite K, Hp. repeat split; try assumption.
  apply (lifecycle_shifted_fresh _ _ _ _ _ h Hl). apply S2, Hs.
Qed.

(** What one event does to the promise table. *)
Lemma exec_promises (ev : Event) (w w' : World) :
  lifecycle_ok w -> exec ev w = Some w' ->
  match ev with
  | TaskDone h o =>
      h ∈ suspended_handles w
      /\ promises w !! h = Some Pending
      /\ promises w' = <[h := of_outcome o]> (promises w)
  | Add _ => promises w' = promises w ++ [Pending]
  | _ => promises w' = promises w
  end.
Proof.
  intros Hl Hex. destruct ev as [t | f | h | h | h o]; simpl in Hex.
  - injection Hex as <-. reflexivity.
  - injection Hex as <-. unfold add.
    match goal with
    | |- context [process ?u] => destruct (process_trace u) as (tr' & _ & ->)
    end.
    reflexivity.
  - destruct (take h (suspended w)) as [[[e [d | |]] rest] |]; try discriminate.
    destruct (d <=? clock w); [| discriminate]. injection Hex as <-.
    match goal with
    | |- context [awaitRateLimit e ?u] =>
        destruct (awaitRateLimit_trace e u) as (tr' & _ & ->)
    end.
    reflexivity.
  - destruct (take h (suspended w)) as [[[e [d | |]] rest] |]; try discriminate.
    injection Hex as <-. reflexivity.
  - destruct (take h (suspended w)) as [[[e [d | |]] rest] |] eqn:Ht; try discriminate.
    injection Hex as <-.
    pose proof (take_handle _ _ _ _ Ht) as Hh. simpl in Hh. subst h.
    assert (Hl1 : lifecycle (shifts (trace w)) (queued_handles w)
              (handle e :: map (fun a => handle (entry a)) rest) (promises w)
              (fun h => calls h (trace w))).
    { refine (lifecycle_perm _ _ _ _ _ _ _ _ _ Hl); [| reflexivity].
      unfold suspended_handles. rewrite (take_handles _ _ _ _ Ht). reflexivity. }
    destruct (deliver_lifecycle e o rest w Hl1) as (Hpend & Hins & _).
    split; [apply (take_elem _ _ _ _ Ht) |]. split; [exact Hpend |].
    unfold finally.
    match goal with
    | |- context [process ?u] => destruct (process_trace u) as (tr' & _ & ->)
    end.
    exact Hins.
Qed.

(** ** Order of dispatch *)

Lemma awaitRateLimit_entries (e : Entry) (w : World) (x : Entry) :
  x ∈ entries_of (awaitRateLimit e w) -> x ∈ entries_of w \/ x = e.
Proof.
  unfold entries_of.
  destruct (awaitRateLimit_cases e w) as [[-> _] | (oldest & _ & _ & ->)];
    simpl; rewrite map_app, !elem_of_app; simpl; rewrite list_elem_of_singleton;
    tauto.
Qed.

Lemma process_entries (w : World) (x : Entry) :
  x ∈ entries_of (process w) -> x ∈ entries_of w.
Proof.
  destruct (process_cases w) as [[-> _] | (e & rest & Hq & _ & ->)]; [tauto |].
  intros Hx. apply awaitRateLimit_entries in Hx. revert Hx.
  unfold entries_of. simpl. rewrite Hq, !elem_of_app, elem_of_cons. tauto.
Qed.

Lemma take_entries (h : nat) (l rest : list Activation) (a : Activation) (x : Entry) :
  take h l = Some (a, rest) ->
  x ∈ map entry rest \/ x = entry a -> x ∈ map entry l.
Proof.
  intros Ht Hx. apply take_Permutation in Ht.
  apply (Permutation_map entry) in Ht. rewrite Ht. simpl.
  apply elem_of_cons. tauto.
Qed.

(** The entries after an event are entries from before it, or the one
    [add] has just made. *)
Lemma exec_entries (ev : Event) (w w' : World) (x : Entry) :
  exec ev w = Some w' -> x ∈ entries_of w' ->
  x ∈ entries_of w
  \/ exists f, ev = Add f /\ x = mkEntry f (length (promises w)).
Proof.
  intros Hex Hx. destruct ev as [t | f | h | h | h o]; simpl in Hex.
  - injection Hex as <-. left. exact Hx.
  - injection Hex as <-. unfold add in Hx. apply process_entries in Hx.
    revert Hx. unfold entries_of. simpl.
    rewrite !elem_of_app, list_elem_of_singleton.
    intros [[H | ->] | H]; [left; left; exact H | right; exists f; split; reflexivity
                            | left; right; exact H].
  - destruct (take h (suspended w)) as [[[e [d | |]] rest] |] eqn:Ht; try discriminate.
    destruct (d <=? clock w); [| discriminate]. injection Hex as <-.
    left. apply awaitRateLimit_entries in Hx. revert Hx. unfold entries_of. simpl.
    rewrite !elem_of_app. intros [[H | H] | ->].
    + left. exact H.
    + right. apply (take_entries _ _ _ _ _ Ht). left. exact H.
    + right. apply (take_entries _ _ _ _ _ Ht). right. reflexivity.
  - destruct (take h (suspended w)) as [[[e [d | |]] rest] |] eqn:Ht; try discriminate.
    injection Hex as <-. left. revert Hx. unfold entries_of. simpl.
    rewrite map_app, !elem_of_app. simpl. rewrite list_elem_of_singleton.
    intros [H | [H | ->]].
    + left. exact H.
    + right. apply (take_entries _ _ _ _ _ Ht). left. exact H.
    + right. apply (take_entries _ _ _ _ _ Ht). right. reflexivity.
  - destruct (take h (suspended w)) as [[[e [d | |]] rest] |] eqn:Ht; try discriminate.
    injection Hex as <-. left. unfold finally in Hx. apply process_entries in Hx.
    revert Hx. unfold entries_of. destruct o; simpl; rewrite !elem_of_app;
      (intros [H | H]; [left; exact H |]);
      right; apply (take_entries _ _ _ _ _ Ht); left; exact H.
Qed.

Lemma exec_tasks (subs : list Task) (ev : Event) (w w' : World) :
  lifecycle_ok w -> tasks_ok subs w -> exec ev w = Some w' ->
  tasks_ok (subs ++ submissions [ev]) w'.
Proof.
  intros Hl [Hlen Hfn] Hex. split.
  - pose proof (exec_promises _ _ _ Hl Hex) as Hps.
    destruct ev as [t | f | h | h | h o]; simpl; rewrite ?app_nil_r;
      try (rewrite Hps; exact Hlen).
    + rewrite Hps, !length_app, Hlen. reflexivity.
    + destruct Hps as (_ & _ & ->). rewrite length_insert. exact Hlen.
  - intros x Hx. destruct (exec_entries _ _ _ _ Hex Hx) as [Hold | (f & -> & ->)].
    + specialize (Hfn x Hold). rewrite lookup_app_l; [exact Hfn |].
      eapply lookup_lt_Some. exact Hfn.
    + simpl. rewrite <- Hlen. apply list_lookup_middle. reflexivity.
Qed.

Lemma run_tasks (subs : list Task) (evs : list Event) (w w' : World) :
  lifecycle_ok w -> tasks_ok subs w -> run evs w = Some w' ->
  tasks_ok (subs ++ submissions evs) w'.
Proof.
  revert subs w. induction evs as [| ev evs IH]; intros subs w Hl Ht Hrun;
    simpl in Hrun.
  - injection Hrun as <-. simpl. rewrite app_nil_r. exact Ht.
  - destruct (exec ev w) as [w1 |] eqn:Hex; [| discriminate].
    pose proof (exec_tasks subs ev w w1 Hl Ht Hex) as Ht1.
    pose proof (exec_lifecycle _ _ _ Hex Hl) as Hl1.
    specialize (IH _ w1 Hl1 Ht1 Hrun).
    replace (subs ++ submissions (ev :: evs))
      with ((subs ++ submissions [ev]) ++ submissions evs); [exact IH |].
    rewrite <- app_assoc. f_equal. destruct ev; reflexivity.
Qed.

(** C5, as the code has it.  Handles count the calls of [add]: 0, 1, 2,
    ...  In every world a run can reach, the handles shifted so far, in the
    order they were shifted, followed by the handles still in the queue,
    front first, are exactly the numbers of the submissions in order; and
    the queue holds, front first, the tasks that were submitted and not yet
    shifted, in the order they were submitted.  So entries leave the queue in
    the order they were submitted.  Nothing is said of the order in which
    tasks are called. *)
Theorem dequeue_order_is_submission_order
    (mc rps : option Z) (t0 : Z) (evs : list Event) (w : World) :
  run evs (boot (constructor mc rps) t0) = Some w ->
  shifts (trace w) ++ queued_handles w = seq 0 (length (submissions evs))
  /\ map fn (queue (rq w)) = drop (length (shifts (trace w))) (submissions evs).
Proof.
  intros Hrun.
  destruct (reachable_well_formed _ _ _ _ _ Hrun) as (_ & (F & _) & _).
  pose proof (boot_well_formed mc rps t0) as (_ & Hl0 & _).
  assert (Ht0 : tasks_ok [] (boot (constructor mc rps) t0)).
  { split; [reflexivity |]. intros x Hx. inversion Hx. }
  destruct (run_tasks [] evs _ w Hl0 Ht0 Hrun) as [Hlen Hfn]. simpl in Hlen, Hfn.
  rewrite Hlen. split; [exact F |].
  set (k := length (shifts (trace w))).
  assert (Hk : (k <= length (promises w))%nat).
  { apply (f_equal length) in F. rewrite length_app, length_seq in F. lia. }
  assert (Hqh : queued_handles w = seq k (length (promises w) - k)).
  { replace (length (promises w)) with (k + (length (promises w) - k))%nat in F by lia.
    rewrite seq_app in F. apply app_inj_1 in F; [apply F |].
    rewrite length_seq. reflexivity. }
  apply list_eq. intros i. rewrite lookup_drop.
  change (map fn (queue (rq w))) with (fn <$> queue (rq w)).
  rewrite list_lookup_fmap.
  destruct (queue (rq w) !! i) as [e |] eqn:He; simpl.
  - assert (Hh : queued_handles w !! i = Some (handle e)).
    { unfold queued_handles. change (map handle (queue (rq w))) with (handle <$> queue (rq w)).
      rewrite list_lookup_fmap, He. reflexivity. }
    rewrite Hqh in Hh. apply lookup_seq in Hh. destruct Hh as [Hh _].
    rewrite <- Hh. symmetry. apply Hfn. unfold entries_of.
    apply elem_of_app. left. eapply list_elem_of_lookup_2. exact He.
  - symmetry. apply lookup_ge_None. apply lookup_ge_None in He.
    assert (Hl : length (queued_handles w) = length (queue (rq w)))
      by (unfold queued_handles; apply length_map).
    rewrite Hqh, length_seq in Hl. lia.
Qed.

(** ** What a promise ends up holding *)

Lemma run_promise (evs : list Event) (w w' : World) (h : nat) (p : Promise) :
  lifecycle_ok w -> run evs w = Some w' ->
  promises w' !! h = Some p ->
  p = match promises w !! h with
      | Some (Fulfilled v) => Fulfilled v
      | Some (Rejected e) => Rejected e
      | _ => match outcome_of h evs with
             | Some o => of_outcome o
             | None => Pending
             end
      end.
Proof.
  revert w. induction evs as [| ev evs IH]; intros w Hl Hrun Hp; simpl in Hrun.
  - injection Hrun as <-. rewrite Hp. simpl. destruct p; reflexivity.
  - destruct (exec ev w) as [w1 |] eqn:Hex; [| discriminate].
    pose proof (exec_lifecycle _ _ _ Hex Hl) as Hl1.
    specialize (IH w1 Hl1 Hrun Hp).
    pose proof (exec_promises _ _ _ Hl Hex) as Hps.
    destruct ev as [t | f | k | k | k o]; simpl outcome_of.
    + rewrite Hps in IH. exact IH.
    + rewrite Hps in IH.
      destruct (promises w !! h) as [q |] eqn:Hq.
      * rewrite lookup_app_l in IH by (eapply lookup_lt_Some; exact Hq).
        rewrite Hq in IH. exact IH.
      * destruct ((promises w ++ [Pending]) !! h) as [q |] eqn:Hq'; [| exact IH].
        apply lookup_snoc_Some in Hq'. destruct Hq' as [[_ Hq'] | [_ <-]].
        -- rewrite Hq in Hq'. discriminate.
        -- exact IH.
    + rewrite Hps in IH. exact IH.
    + rewrite Hps in IH. exact IH.
    + destruct Hps as (_ & Hpend & Hins). rewrite Hins in IH.
      destruct (Nat.eq_dec k h) as [-> | Hne].
      * rewrite Nat.eqb_refl, Hpend.
        rewrite list_lookup_insert_eq in IH by (eapply lookup_lt_Some; exact Hpend).
        destruct o; exact IH.
      * rewrite list_lookup_insert_ne in IH by exact Hne.
        apply Nat.eqb_neq in Hne. rewrite Hne. exact IH.
Qed.

Lemma orderly_invocations_NoDup (tr : list Obs) :
  orderly tr -> NoDup (invocations tr).
Proof.
  induction tr as [| o tr IH] using rev_ind; intros Ho.
  - apply NoDup_nil_2.
  - assert (Ho' : orderly tr).
    { intros past o' rest E. apply (Ho past o' (rest ++ [o])).
      rewrite E, <- app_assoc. reflexivity. }
    specialize (IH Ho').
    pose proof (Ho tr o [] eq_refl) as Hm.
    rewrite invocations_app. destruct o; simpl; rewrite ?app_nil_r; try exact IH.
    apply NoDup_app. split; [exact IH |]. split; [| apply NoDup_singleton].
    intros x Hx Hx'. apply list_elem_of_singleton in Hx'. subst x.
    simpl in Hm. destruct Hm as [_ Hm]. exact (Hm Hx).
Qed.

Lemma orderly_cleared_NoDup (tr : list Obs) :
  orderly tr -> NoDup (cleared tr).
Proof.
  induction tr as [| o tr IH] using rev_ind; intros Ho.
  - apply NoDup_nil_2.
  - assert (Ho' : orderly tr).
    { intros past o' rest E. apply (Ho past o' (rest ++ [o])).
      rewrite E, <- app_assoc. reflexivity. }
    specialize (IH Ho').
    pose proof (Ho tr o [] eq_refl) as Hm.
    rewrite cleared_app. destruct o; simpl; rewrite ?app_nil_r; try exact IH.
    apply NoDup_app. split; [exact IH |]. split; [| apply NoDup_singleton].
    intros x Hx Hx'. apply list_elem_of_singleton in Hx'. subst x.
    simpl in Hm. destruct Hm as [_ Hm]. exact (Hm Hx).
Qed.

(** ** Progress *)

Lemma run_app (evs evs' : list Event) (w w1 w2 : World) :
  run evs w = Some w1 -> run evs' w1 = Some w2 -> run (evs ++ evs') w = Some w2.
Proof.
  revert w. induction evs as [| ev evs IH]; intros w H1 H2; simpl in *.
  - injection H1 as ->. exact H2.
  - destruct (exec ev w) as [u |]; [| discriminate]. exact (IH u H1 H2).
Qed.

Lemma run_clock (evs : list Event) (w w' : World) :
  run evs w = Some w' -> clock w' = clock_after (clock w) evs.
Proof.
  revert w. induction evs as [| ev evs IH]; intros w Hrun; simpl in Hrun.
  - injection Hrun as <-. reflexivity.
  - destruct (exec ev w) as [u |] eqn:Hex; [| discriminate].
    rewrite (IH u Hrun), (exec_clock _ _ _ Hex). destruct ev; reflexivity.
Qed.

Lemma steady_app (t0 : Z) (evs evs' : list Event) :
  steady t0 evs -> steady (clock_after t0 evs) evs' -> steady t0 (evs ++ evs').
Proof.
  revert t0. induction evs as [| ev evs IH]; intros t0 H1 H2; simpl in *.
  - exact H2.
  - destruct ev; try (apply IH; assumption).
    destruct H1 as [Hle H1]. split; [exact Hle | apply IH; assumption].
Qed.

Lemma latest_ge (l : list Z) (x : Z) : In x l -> x <= latest l.
Proof.
  induction l as [| y l IH]; simpl; [contradiction |].
  intros [-> | Hin]; [lia | specialize (IH Hin); lia].
Qed.

Lemma recent_none (c : Z) (l : list Z) :
  (forall x, In x l -> x <= c) -> recent c l = [].
Proof.
  intros H. unfold recent. induction l as [| y l IH]; simpl; [reflexivity |].
  assert (E : (c <? y) = false) by (apply Z.ltb_ge; apply H; left; reflexivity).
  rewrite E. apply IH. intros x Hx. apply H. right. exact Hx.
Qed.

Lemma take_last (h : nat) (l : list Activation) (a : Activation) :
  h ∉ map (fun a => handle (entry a)) l -> handle (entry a) = h ->
  take h (l ++ [a]) = Some (a, l).
Proof.
  intros Hnin Ha. induction l as [| b l IH]; simpl.
  - rewrite Ha, Nat.eqb_refl. reflexivity.
  - assert (Hb : (handle (entry b) =? h)%nat = false).
    { apply Nat.eqb_neq. intros E. apply Hnin. simpl. rewrite E. left. }
    rewrite Hb, IH; [reflexivity |].
    intros Hin. apply Hnin. simpl. right. exact Hin.
Qed.

Lemma awaitRateLimit_backlog (e : Entry) (w : World) :
  backlog (awaitRateLimit e w) = S (backlog w).
Proof.
  unfold backlog.
  destruct (awaitRateLimit_cases e w) as [[-> _] | (oldest & _ & _ & ->)];
    simpl; rewrite length_app; simpl; lia.
Qed.

Lemma process_backlog (w : World) : backlog (process w) = backlog w.
Proof.
  destruct (process_cases w) as [[-> _] | (e & rest & Hq & _ & ->)]; [reflexivity |].
  rewrite awaitRateLimit_backlog. unfold backlog. simpl. rewrite Hq. simpl. lia.
Qed.

(** The task of a suspended activation ends. *)
Lemma finish_task (w : World) (h : nat) (e : Entry) (rest : list Activation) (o : Outcome) :
  take h (suspended w) = Some (mkActivation e AwaitTask, rest) ->
  exists w1, exec (TaskDone h o) w = Some w1 /\ S (backlog w1) = backlog w.
Proof.
  intros Ht. simpl. rewrite Ht. eexists. split; [reflexivity |].
  unfold finally. rewrite process_backlog. unfold backlog.
  rewrite (take_length _ _ _ _ Ht). destruct o; simpl; lia.
Qed.

(** A cleared activation is resumed: its task is called. *)
Lemma finish_clearance (w : World) (h : nat) (e : Entry) (rest : list Activation) :
  take h (suspended w) = Some (mkActivation e AwaitClearance, rest) ->
  h ∉ map (fun a => handle (entry a)) rest ->
  exists w1,
    exec (Resume h) w = Some w1
    /\ take h (suspended w1) = Some (mkActivation e AwaitTask, rest)
    /\ backlog w1 = backlog w.
Proof.
  intros Ht Hnin. simpl. rewrite Ht. eexists. split; [reflexivity |].
  simpl. split.
  - apply take_last; [exact Hnin |]. exact (take_handle _ _ _ _ Ht).
  - unfold backlog. simpl. rewrite length_app, (take_length _ _ _ _ Ht). simpl. lia.
Qed.

(** Once every logged start is 1000ms old, the timer of a waiting
    activation fires and the new check grants clearance, whatever
    [requestsPerSecond] is. *)
Lemma finish_timer (w : World) (h : nat) (e : Entry) (d : Z) (rest : list Activation) :
  take h (suspended w) = Some (mkActivation e (AwaitTimer d), rest) ->
  h ∉ map (fun a => handle (entry a)) rest ->
  exists t w1,
    clock w <= t
    /\ run [Tick t; TimerFires h] w = Some w1
    /\ take h (suspended w1) = Some (mkActivation e AwaitClearance, rest)
    /\ backlog w1 = backlog w.
Proof.
  intros Ht Hnin.
  set (t := Z.max (clock w) (Z.max d (latest (requestTimestamps (rq w)) + 1000))).
  exists t. simpl. rewrite Ht.
  assert (Hd : (d <=? t) = true) by (apply Z.leb_le; lia).
  rewrite Hd. eexists. split; [lia |]. split; [reflexivity |].
  split; [| rewrite awaitRateLimit_backlog; unfold backlog; simpl;
            rewrite (take_length _ _ _ _ Ht); lia].
  match goal with
  | |- context [awaitRateLimit e ?u] =>
      destruct (awaitRateLimit_cases e u) as [[-> _] | (oldest & Hh & _ & _)]
  end.
  - simpl. apply take_last; [exact Hnin |]. exact (take_handle _ _ _ _ Ht).
  - exfalso. simpl in Hh. rewrite recent_none in Hh; [discriminate |].
    intros x Hx. apply latest_ge in Hx. lia.
Qed.

(** The first suspended activation can be brought to its end. *)
Lemma finish_one (out : nat -> Outcome) (w : World) (a : Activation)
    (rest : list Activation) :
  lifecycle_ok w -> suspended w = a :: rest ->
  exists pre w1,
    run pre w = Some w1
    /\ steady (clock w) pre
    /\ Forall (plays out) pre
    /\ S (backlog w1) = backlog w.
Proof.
  intros Hl Hs. destruct a as [e s]. set (h := handle e).
  assert (Ht : take h (suspended w) = Some (mkActivation e s, rest)).
  { rewrite Hs. simpl. unfold h. rewrite Nat.eqb_refl. reflexivity. }
  assert (Hnin : h ∉ map (fun a => handle (entry a)) rest).
  { destruct Hl as (_ & S1 & _). apply (take_NoDup _ _ _ _ Ht S1). }
  destruct s as [d | |].
  - destruct (finish_timer w h e d rest Ht Hnin) as (t & w1 & Hle & R1 & T1 & B1).
    destruct (finish_clearance w1 h e rest T1 Hnin) as (w2 & R2 & T2 & B2).
    destruct (finish_task w2 h e rest (out h) T2) as (w3 & R3 & B3).
    exists ([Tick t; TimerFires h] ++ [Resume h; TaskDone h (out h)]), w3.
    split; [| split; [| split]].
    + apply (run_app _ _ _ w1 _ R1). cbn [run]. rewrite R2, R3. reflexivity.
    + simpl. tauto.
    + repeat constructor.
    + lia.
  - destruct (finish_clearance w h e rest Ht Hnin) as (w2 & R2 & T2 & B2).
    destruct (finish_task w2 h e rest (out h) T2) as (w3 & R3 & B3).
    exists [Resume h; TaskDone h (out h)], w3.
    split; [| split; [| split]].
    + cbn [run]. rewrite R2, R3. reflexivity.
    + simpl. exact I.
    + repeat constructor.
    + lia.
  - destruct (finish_task w h e rest (out h) Ht) as (w3 & R3 & B3).
    exists [TaskDone h (out h)], w3.
    split; [| split; [| split]].
    + cbn [run]. rewrite R3. reflexivity.
    + simpl. exact I.
    + repeat constructor.
    + exact B3.
Qed.

(** With a positive [maxConcurrent], the backlog can be brought to zero
    without any new submission, on a clock that is never set back, whatever
    the tasks hand back. *)
Lemma drain (out : nat -> Outcome) (n : nat) (w : World) :
  well_formed w -> 0 < maxConcurrent (rq w) -> backlog w = n ->
  exists evs w',
    run evs w = Some w'
    /\ steady (clock w) evs
    /\ Forall (plays out) evs
    /\ backlog w' = 0%nat.
Proof.
  revert w. induction n as [| n IH]; intros w Hwf Hmc Hb.
  - exists [], w. repeat split; [constructor | exact Hb].
  - destruct (suspended w) as [| a rest] eqn:Hs.
    + exfalso. destruct Hwf as ((Ha & _ & Hq) & _ & _).
      rewrite Hs in Ha. simpl in Ha.
      assert (Hne : queue (rq w) <> []).
      { intros E. unfold backlog in Hb. rewrite E, Hs in Hb. discriminate. }
      specialize (Hq Hne). lia.
    + destruct Hwf as (Hc & Hl & Hst).
      destruct (finish_one out w a rest Hl Hs) as (pre & w1 & R1 & St1 & P1 & B1).
      assert (Hwf1 : well_formed w1)
        by exact (run_well_formed _ _ _ R1 (conj Hc (conj Hl Hst))).
      destruct (run_limits _ _ _ R1) as [Hm1 _].
      destruct (IH w1 Hwf1 ltac:(lia) ltac:(lia)) as (evs & w' & R2 & St2 & P2 & B2).
      exists (pre ++ evs), w'. split; [| split; [| split]].
      * exact (run_app _ _ _ _ _ R1 R2).
      * apply steady_app; [exact St1 |]. rewrite <- (run_clock _ _ _ R1). exact St2.
      * apply Forall_app. split; assumption.
      * exact B2.
Qed.

Lemma outcome_of_plays (out : nat -> Outcome) (h : nat) (evs : list Event) (o : Outcome) :
  Forall (plays out) evs -> outcome_of h evs = Some o -> o = out h.
Proof.
  intros Hf. induction Hf as [| ev evs Hev Hf IH]; simpl; [discriminate |].
  destruct ev as [t | f | k | k | k o']; try exact IH.
  destruct (Nat.eqb_spec k h) as [-> | Hne]; [| exact IH].
  intros E. injection E as <-. exact Hev.
Qed.

Lemma run_plays_length (out : nat -> Outcome) (evs : list Event) (w w' : World) :
  Forall (plays out) evs -> lifecycle_ok w -> run evs w = Some w' ->
  length (promises w') = length (promises w).
Proof.
  intros Hf. revert w. induction Hf as [| ev evs Hev Hf IH]; intros w Hl Hrun;
    simpl in Hrun.
  - injection Hrun as <-. reflexivity.
  - destruct (exec ev w) as [w1 |] eqn:Hex; [| discriminate].
    rewrite (IH w1 (exec_lifecycle _ _ _ Hex Hl) Hrun).
    pose proof (exec_promises _ _ _ Hl Hex) as Hps.
    destruct ev as [t | f | k | k | k o]; try (rewrite Hps; reflexivity).
    + contradiction.
    + destruct Hps as (_ & _ & ->). apply length_insert.
Qed.

(** Every pending promise can still be settled, with whatever its task
    hands back; the settled ones stay as they are. *)
Lemma can_settle_all (out : nat -> Outcome) (w : World) :
  well_formed w -> 0 < maxConcurrent (rq w) ->
  exists evs w',
    run evs w = Some w'
    /\ steady (clock w) evs
    /\ Forall (plays out) evs
    /\ length (promises w') = length (promises w)
    /\ forall h p,
         promises w !! h = Some p ->
         promises w' !! h
           = Some match p with Pending => of_outcome (out h) | _ => p end.
Proof.
  intros Hwf Hmc.
  destruct (drain out (backlog w) w Hwf Hmc eq_refl) as (evs & w' & R & St & Pl & B).
  exists evs, w'. pose proof Hwf as (_ & Hl & _).
  pose proof (run_plays_length out evs w w' Pl Hl R) as Hlen.
  repeat (split; [assumption |]).
  intros h p Hp.
  assert (Hlt : (h < length (promises w'))%nat)
    by (rewrite Hlen; eapply lookup_lt_Some; exact Hp).
  destruct (proj2 (lookup_lt_is_Some (promises w') h) Hlt) as (p' & Hp').
  rewrite Hp'. f_equal.
  pose proof (run_promise evs w w' h p' Hl R Hp') as E. rewrite Hp in E.
  assert (Hnp : p' <> Pending).
  { intros ->.
    pose proof (run_well_formed _ _ _ R Hwf) as (_ & (_ & _ & _ & P' & _) & _).
    apply P' in Hp'. unfold backlog in B.
    unfold queued_handles, suspended_handles in Hp'.
    destruct (queue (rq w')); [| discriminate].
    destruct (suspended w'); [| discriminate].
    simpl in Hp'. destruct Hp' as [H | H]; inversion H. }
  destruct p as [| v | e]; try exact E.
  destruct (outcome_of h evs) as [o |] eqn:Ho; [| contradiction].
  rewrite (outcome_of_plays out h evs o Pl Ho) in E. exact E.
Qed.

(** ** One settling call per promise, sooner or later *)

(** C6.  For every entry submitted in a run: the entry is in exactly one
    phase; its promise has received no settling call while the entry is
    queued or dispatched, and exactly one call, [resolve] or [reject], never
    both, once it is in a terminal phase; when its task ends the promise is
    settled in that same step, from [Dispatched]; however the run goes on,
    the entry never goes back to an earlier phase and never changes its
    terminal phase; and with a positive [maxConcurrent] the run can always go
    on, with no new submission, until the entry is in a terminal phase, the
    one its task decides. *)
Theorem future_settles_exactly_once
    (mc rps : option Z) (t0 : Z) (evs : list Event) (w : World) (h : nat) :
  run evs (boot (constructor mc rps) t0) = Some w ->
  (h < length (promises w))%nat ->
  (exists p, in_phase w h p /\ forall p', in_phase w h p' -> p' = p)
  /\ (length (calls h (trace w)) <= 1)%nat
  /\ (forall o w',
        exec (TaskDone h o) w = Some w' ->
        in_phase w h Dispatched /\ in_phase w' h (terminal o))
  /\ (forall evs' w' p p',
        run evs' w = Some w' ->
        in_phase w h p -> in_phase w' h p' -> phase_step p p')
  /\ (0 < maxConcurrent (rq w) ->
      forall out : nat -> Outcome, exists evs' w' o,
        run evs' w = Some w'
        /\ steady (clock w) evs'
        /\ Forall (plays out) evs'
        /\ in_phase w' h (terminal o)
        /\ (promises w !! h = Some Pending -> o = out h)).
Proof.
  intros Hrun Hlt.
  pose proof (reachable_well_formed _ _ _ _ _ Hrun) as Hwf.
  pose proof Hwf as (Hc & Hl & Hs).
  split; [| split; [| split; [| split]]].
  - destruct (lifecycle_phase w h Hl Hlt) as (p & Hp). exists p.
    split; [exact Hp |]. intros p' Hp'. exact (in_phase_unique w h p' p Hp' Hp).
  - destruct Hl as (_ & _ & _ & _ & K). rewrite K.
    destruct (promises w !! h) as [[| ? | ?] |]; simpl; lia.
  - intros o w' Hex.
    destruct (exec_promises _ _ _ Hl Hex) as (Hin & Hpend & Hins).
    split; [apply phase_of_suspended; assumption |].
    apply phase_of_promise; [eapply exec_lifecycle; eassumption |].
    rewrite Hins. apply list_lookup_insert_eq. exact Hlt.
  - intros evs' w' p p' Hrun' Hp Hp'.
    assert (Hl' : lifecycle_ok w')
      by exact (run_invariant lifecycle_ok exec_lifecycle evs' w w' Hrun' Hl).
    exact (phase_moves_forward evs' w w' h p p' Hl Hl' Hrun' Hp Hp').
  - intros Hmc out.
    destruct (can_settle_all out w Hwf Hmc) as (evs' & w' & R & St & Pl & _ & Hall).
    pose proof (run_well_formed _ _ _ R Hwf) as (_ & Hl' & _).
    destruct (proj2 (lookup_lt_is_Some (promises w) h) Hlt) as (p & Hp).
    specialize (Hall h p Hp).
    exists evs', w'.
    destruct p as [| v | e].
    + exists (out h). repeat (split; [assumption |]).
      split; [apply phase_of_promise; assumption | reflexivity].
    + exists (Returned v). repeat (split; [assumption |]).
      split; [apply phase_of_promise; assumption | rewrite Hp; discriminate].
    + exists (Threw e). repeat (split; [assumption |]).
      split; [apply phase_of_promise; assumption | rewrite Hp; discriminate].
Qed.

(** ** Submitting *)

(** C8.  In every world a run can reach: [add] runs for any task and
    returns a new promise that is pending; a promise holds [Pending] until
    its task has finished and from then on the value the task returned
    ([Fulfilled]) or the error it raised ([Rejected]), the same object, and
    nothing else ever; no task is called twice; and with a positive
    [maxConcurrent] the host can always go on, without any new submission and
    without setting the clock back, until every pending promise is settled
    with whatever its task hands back. *)
Theorem add_promise_settles_with_task_outcome
    (mc rps : option Z) (t0 : Z) (evs : list Event) (w : World) :
  run evs (boot (constructor mc rps) t0) = Some w ->
  (forall f, exists w',
      exec (Add f) w = Some w'
      /\ length (promises w') = S (length (promises w))
      /\ promises w' !! length (promises w) = Some Pending)
  /\ (forall h p,
        promises w !! h = Some p ->
        p = match outcome_of h evs with
            | Some o => of_outcome o
            | None => Pending
            end)
  /\ NoDup (invocations (trace w))
  /\ (0 < maxConcurrent (rq w) ->
      forall out : nat -> Outcome, exists evs' w',
        run evs' w = Some w'
        /\ steady (clock w) evs'
        /\ Forall (plays out) evs'
        /\ forall h p,
             promises w !! h = Some p ->
             promises w' !! h
               = Some match p with Pending => of_outcome (out h) | _ => p end).
Proof.
  intros Hrun.
  pose proof (reachable_well_formed _ _ _ _ _ Hrun) as Hwf.
  pose proof Hwf as (Hc & Hl & Hs).
  split; [| split; [| split]].
  - intros f. eexists. split; [reflexivity |].
    assert (Hl' : lifecycle_ok w) by exact Hl.
    pose proof (exec_promises (Add f) w (add f w) Hl eq_refl) as Hps.
    simpl in Hps. rewrite Hps, length_app. simpl.
    split; [lia | apply list_lookup_middle; reflexivity].
  - intros h p Hp.
    pose proof (boot_well_formed mc rps t0) as (_ & Hl0 & _).
    exact (run_promise evs _ w h p Hl0 Hrun Hp).
  - apply orderly_invocations_NoDup. destruct Hs as (Ho & _). exact Ho.
  - intros Hmc out.
    destruct (can_settle_all out w Hwf Hmc) as (evs' & w' & R & St & Pl & _ & Hall).
    exists evs', w'. repeat (split; [assumption |]). exact Hall.
Qed.

(** ** A failing task *)

Lemma settle_other (h h' : nat) (p : Promise) (ps : list Promise) :
  h <> h' -> settle h p ps !! h' = ps !! h'.
Proof.
  intros Hne. unfold settle. destruct (ps !! h) as [[| |] |]; try reflexivity.
  apply list_lookup_insert_ne. exact Hne.
Qed.

(** What [process] does to the object and to the suspended activations
    does not depend on the promise table or on the trace. *)
Lemma process_frame (u1 u2 : World) :
  rq u1 = rq u2 -> clock u1 = clock u2 -> suspended u1 = suspended u2 ->
  rq (process u1) = rq (process u2)
  /\ suspended (process u1) = suspended (process u2)
  /\ clock (process u1) = clock (process u2)
  /\ promises (process u1) = promises u1
  /\ promises (process u2) = promises u2
  /\ exists tr', trace (process u1) = trace u1 ++ tr'
                 /\ trace (process u2) = trace u2 ++ tr'.
Proof.
  destruct u1 as [q c s p tr], u2 as [q2 c2 s2 p2 tr2]. simpl.
  intros -> -> ->. unfold process. simpl.
  destruct ((maxConcurrent q2 <=? activeRequests q2) || _).
  - repeat (split; [reflexivity |]). exists []. rewrite !app_nil_r. split; reflexivity.
  - destruct (queue q2) as [| e rest].
    + repeat (split; [reflexivity |]). exists []. rewrite !app_nil_r. split; reflexivity.
    + unfold awaitRateLimit. simpl.
      destruct (waitForRateLimit c2 _) as [[| wt] q']; simpl;
        repeat (split; [reflexivity |]).
      * eexists. rewrite <- !app_assoc. split; reflexivity.
      * eexists. split; reflexivity.
Qed.

(** C7.  In every world a run can reach:
    - the counter is the number of suspended activations, and an entry has
      one exactly from its shift (the statement after the increment of line
      44) until its promise is settled; a task is called only for an entry
      that was shifted, so only after that increment;
    - a task that throws and a task that returns leave the same object, the
      same suspended activations and the same dispatch history behind: only
      the promise of that task differs;
    - after a task throws, its promise is rejected, its slot is free or
      taken by the entry that was at the front of the queue, which is
      dispatched in the same step, and every promise still pending can be
      settled by going on. *)
Theorem failing_task_frees_slot_and_loop_goes_on
    (mc rps : option Z) (t0 : Z) (evs : list Event) (w : World) :
  run evs (boot (constructor mc rps) t0) = Some w ->
  (activeRequests (rq w) = Z.of_nat (length (suspended w))
   /\ (forall h, h ∈ suspended_handles w
                 <-> h ∈ shifts (trace w) /\ promises w !! h = Some Pending)
   /\ (forall h, h ∈ invocations (trace w) -> h ∈ shifts (trace w)))
  /\ (forall h v e,
        match exec (TaskDone h (Returned v)) w, exec (TaskDone h (Threw e)) w with
        | Some w1, Some w2 =>
            rq w1 = rq w2 /\ suspended w1 = suspended w2 /\ clock w1 = clock w2
            /\ shifts (trace w1) = shifts (trace w2)
            /\ stamps (trace w1) = stamps (trace w2)
            /\ (forall h', h' <> h -> promises w1 !! h' = promises w2 !! h')
        | None, None => True
        | _, _ => False
        end)
  /\ (forall h e w',
        exec (TaskDone h (Threw e)) w = Some w' ->
        promises w' !! h = Some (Rejected e)
        /\ match queue (rq w) with
           | [] =>
               activeRequests (rq w') = activeRequests (rq w) - 1
               /\ queue (rq w') = []
           | x :: rest =>
               activeRequests (rq w') = activeRequests (rq w)
               /\ queue (rq w') = rest
               /\ handle x ∈ suspended_handles w'
           end
        /\ forall out : nat -> Outcome, exists evs' w'',
             run evs' w' = Some w''
             /\ forall k p,
                  promises w' !! k = Some p ->
                  promises w'' !! k
                    = Some match p with Pending => of_outcome (out k) | _ => p end).
Proof.
  intros Hrun.
  pose proof (reachable_well_formed _ _ _ _ _ Hrun) as Hwf.
  pose proof Hwf as ((Ha & Hm & Hq) & Hl & Hs).
  pose proof Hl as (F & S1 & S2 & P & K).
  split; [| split].
  - split; [exact Ha |]. split.
    + intros h. split.
      * intros Hin. split; [apply S2, Hin | apply P; right; exact Hin].
      * intros [Hsh Hp]. apply P in Hp. destruct Hp as [Hqh | Hsu]; [| exact Hsu].
        exfalso. exact (lifecycle_shifted_fresh _ _ _ _ _ h Hl Hsh Hqh).
    + intros h Hin. destruct Hs as (_ & _ & Hcs & Hic). apply Hcs, Hic, Hin.
  - intros h v e. simpl.
    destruct (take h (suspended w)) as [[[x [d | |]] rest] |] eqn:Ht; try exact I.
    unfold finally.
    match goal with
    | |- context [rq (process ?a) = rq (process ?b)] =>
        destruct (process_frame a b eq_refl eq_refl eq_refl)
          as (E1 & E2 & E3 & E4 & E5 & tr' & E6 & E7)
    end.
    rewrite E1, E2, E3, E4, E5, E6, E7. simpl.
    repeat (split; [reflexivity |]).
    rewrite !shifts_app, !stamps_app. simpl. rewrite !app_nil_r.
    repeat (split; [reflexivity |]).
    intros h' Hne. pose proof (take_handle _ _ _ _ Ht) as Hh. simpl in Hh.
    rewrite !settle_other by congruence. reflexivity.
  - intros h e w' Hex.
    pose proof (exec_well_formed _ _ _ Hex Hwf) as Hwf'.
    destruct (exec_promises _ _ _ Hl Hex) as (Hin & Hpend & Hins).
    destruct (exec_limits _ _ _ Hex) as [Hmc _].
    assert (Hle : activeRequests (rq w) <= maxConcurrent (rq w)).
    { destruct Hm as [E | H]; [| exact H].
      unfold suspended_handles in Hin. rewrite E in Hin. inversion Hin. }
    assert (Hpos : 0 < activeRequests (rq w)).
    { rewrite Ha. unfold suspended_handles in Hin.
      destruct (suspended w); [inversion Hin | simpl; lia]. }
    split; [| split].
    + rewrite Hins. apply (list_lookup_insert_eq (promises w) h (Rejected e)).
      eapply lookup_lt_Some. exact Hpend.
    + simpl in Hex.
      destruct (take h (suspended w)) as [[[x [d | |]] rest] |] eqn:Ht; try discriminate.
      injection Hex as <-. unfold finally.
      match goal with
      | |- context [process ?u] =>
          destruct (process_cases u) as [[-> Hidle] | (y & rest' & Hqe & _ & ->)]
      end.
      * simpl in Hidle. destruct Hidle as [Hidle | Hidle]; [lia |].
        rewrite Hidle. simpl. split; [reflexivity | exact Hidle].
      * simpl in Hqe. rewrite Hqe.
        match goal with
        | |- context [awaitRateLimit y ?u] =>
            destruct (awaitRateLimit_cases y u) as [[-> _] | (oldest & _ & _ & ->)]
        end; unfold suspended_handles; simpl;
          (split; [lia | split; [reflexivity |]]);
          rewrite map_app; apply elem_of_app; right; left.
    + intros out.
      destruct (can_settle_all out w' Hwf' ltac:(lia)) as (evs' & w'' & R & _ & _ & _ & Hall).
      exists evs', w''. split; assumption.
Qed.

(** ** Clearances per window *)

Lemma cleared_stamps_length (tr : list Obs) :
  length (cleared tr) = length (stamps tr).
Proof.
  induction tr as [| o tr IH]; simpl; [reflexivity |].
  destruct o; simpl; rewrite ?IH; reflexivity.
Qed.

Lemma awaitRateLimit_past (e : Entry) (w : World) :
  stamps_past w -> stamps_past (awaitRateLimit e w).
Proof.
  intros Hp.
  destruct (awaitRateLimit_cases e w) as [[-> _] | (oldest & _ & _ & ->)];
    unfold stamps_past; simpl.
  - intros h ts Hin. apply in_app_or in Hin. destruct Hin as [Hin | [Hin | []]].
    + exact (Hp h ts Hin).
    + injection Hin as _ <-. lia.
  - exact Hp.
Qed.

Lemma process_past (w : World) : stamps_past w -> stamps_past (process w).
Proof.
  intros Hp.
  destruct (process_cases w) as [[-> _] | (e & rest & _ & _ & ->)]; [exact Hp |].
  apply awaitRateLimit_past. unfold stamps_past. simpl.
  intros h ts Hin. apply in_app_or in Hin. destruct Hin as [Hin | [Hin | []]].
  - exact (Hp h ts Hin).
  - discriminate.
Qed.

Lemma exec_past (ev : Event) (w w' : World) :
  exec ev w = Some w' ->
  (forall t, ev = Tick t -> clock w <= t) ->
  stamps_past w -> stamps_past w'.
Proof.
  intros Hex Hmono Hp. destruct ev as [t | f | h | h | h o]; simpl in Hex.
  - injection Hex as <-. specialize (Hmono t eq_refl).
    intros k ts Hin. simpl in *. specialize (Hp k ts Hin). lia.
  - injection Hex as <-. unfold add. apply process_past. exact Hp.
  - destruct (take h (suspended w)) as [[[e [d | |]] rest] |]; try discriminate.
    destruct (d <=? clock w); [| discriminate]. injection Hex as <-.
    apply awaitRateLimit_past. exact Hp.
  - destruct (take h (suspended w)) as [[[e [d | |]] rest] |]; try discriminate.
    injection Hex as <-. intros k ts Hin. simpl in Hin.
    apply in_app_or in Hin. destruct Hin as [Hin | [Hin | []]].
    + exact (Hp k ts Hin).
    + discriminate.
  - destruct (take h (suspended w)) as [[[e [d | |]] rest] |]; try discriminate.
    injection Hex as <-. unfold finally. apply process_past.
    intros k ts Hin. destruct o; simpl in Hin;
      (apply in_app_or in Hin; destruct Hin as [Hin | [Hin | []]];
       [exact (Hp k ts Hin) | discriminate]).
Qed.

Lemma cleared_Stamped (h : nat) (tr : list Obs) :
  h ∈ cleared tr -> exists ts, In (Stamped h ts) tr.
Proof.
  induction tr as [| o tr IH]; simpl; intros Hin.
  - inversion Hin.
  - destruct o as [k | k ts | k | k v | k e];
      try (destruct (IH Hin) as (ts' & H'); exists ts'; right; exact H').
    apply elem_of_cons in Hin. destruct Hin as [-> | Hin].
    + exists ts. left. reflexivity.
    + destruct (IH Hin) as (ts' & H'). exists ts'. right. exact H'.
Qed.

(** A task is called at or after the instant of its clearance. *)
Lemma run_calls_after_clearance (evs : list Event) (w w' : World) :
  run evs w = Some w' ->
  steady (clock w) evs ->
  well_formed w -> stamps_past w ->
  forall h t, In (h, t) (calls_at evs w) ->
    exists ts, In (Stamped h ts) (trace w') /\ ts <= t.
Proof.
  revert w. induction evs as [| ev evs IH]; intros w Hrun Hst Hwf Hp h t Hin;
    simpl in Hrun, Hin.
  - contradiction.
  - destruct (exec ev w) as [w1 |] eqn:Hex; [| discriminate].
    pose proof (exec_clock _ _ _ Hex) as Hck.
    assert (Hmono : forall t', ev = Tick t' -> clock w <= t').
    { intros t' ->. simpl in Hst. tauto. }
    assert (Hst1 : steady (clock w1) evs).
    { rewrite Hck. destruct ev; simpl in Hst; tauto. }
    pose proof (exec_well_formed _ _ _ Hex Hwf) as Hwf1.
    pose proof (exec_past _ _ _ Hex Hmono Hp) as Hp1.
    assert (Hrest : In (h, t) (calls_at evs w1) ->
                    exists ts, In (Stamped h ts) (trace w') /\ ts <= t)
      by (intros Hin'; exact (IH w1 Hrun Hst1 Hwf1 Hp1 h t Hin')).
    destruct ev as [t' | f | k | k | k o]; try (apply Hrest; exact Hin).
    destruct Hin as [Heq | Hin]; [| apply Hrest; exact Hin].
    injection Heq as -> <-.
    simpl in Hex.
    destruct (take h (suspended w)) as [[[e [d | |]] rest] |] eqn:Ht;
      try discriminate.
    destruct Hwf as (_ & _ & (_ & Hstage & _ & _)).
    destruct (take_Forall _ _ _ _ _ Ht Hstage) as [Ha _].
    unfold stage_ok in Ha. simpl in Ha. destruct Ha as [Hc _].
    pose proof (take_handle _ _ _ _ Ht) as Hh. simpl in Hh. rewrite Hh in Hc.
    destruct (cleared_Stamped h (trace w) Hc) as (ts & Hts).
    exists ts. split; [| exact (Hp h ts Hts)].
    destruct (exec_trace (Resume h) w w1) as (tr1 & E1);
      [simpl; rewrite Ht; exact Hex |].
    destruct (run_trace _ _ _ Hrun) as (tr2 & E2).
    rewrite E2, E1. apply in_or_app. left. apply in_or_app. left. exact Hts.
Qed.

(** C1, as amended.  Take any run of a dispatcher constructed with a
    positive [requestsPerSecond], on a clock that is never set back.  For
    every instant [t], the clearances given in the 1000ms that end at [t]
    (the instants [ts] that line 29 logged, with [t - 1000 < ts <= t])
    number at most [requestsPerSecond].  An entry is logged once, when it
    gets clearance, and a task is called only for an entry that was logged,
    at or after the instant of its clearance.  The call follows on a later
    turn of the job queue, at whatever the clock reads then: the instants of
    the calls themselves are not bounded. *)
Theorem clearances_in_window_bounded
    (mc rps : option Z) (t0 : Z) (evs : list Event) (w : World) :
  0 < requestsPerSecond (constructor mc rps) ->
  steady t0 evs ->
  run evs (boot (constructor mc rps) t0) = Some w ->
  (forall t : Z,
     Z.of_nat (length (window t (stamps (trace w))))
       <= requestsPerSecond (constructor mc rps))
  /\ NoDup (cleared (trace w))
  /\ length (cleared (trace w)) = length (stamps (trace w))
  /\ (forall h, h ∈ invocations (trace w) -> h ∈ cleared (trace w))
  /\ (forall h t,
        In (h, t) (calls_at evs (boot (constructor mc rps) t0)) ->
        exists ts, In (Stamped h ts) (trace w) /\ ts <= t).
Proof.
  intros Hpos Hst Hrun.
  destruct (reachable_well_formed _ _ _ _ _ Hrun) as (_ & _ & (Ho & _ & _ & Hic)).
  split; [| split; [apply orderly_cleared_NoDup; exact Ho
                   | split; [apply cleared_stamps_length | split; [exact Hic |]]]].
  - intros t.
    destruct (run_limits _ _ _ Hrun) as [_ Hr]. simpl rq in Hr. rewrite <- Hr.
    refine (proj2 (run_rate evs _ w Hrun Hst Hpos _ _) t).
    + intros c _. reflexivity.
    + intros t'. simpl in *. lia.
  - apply (run_calls_after_clearance evs _ w Hrun Hst (boot_well_formed mc rps t0)).
    intros h ts Hin. simpl in Hin. contradiction.
Qed.

(** ** More about the dispatcher *)

(** *** No slot stays free while an entry is queued *)

(** X1.  In every world a run can reach, an entry is in the queue only
    while the counter is at [maxConcurrent] or above: [add] and the [finally]
    block each call [process], which dispatches the head of the queue whenever
    the counter is below the limit.  With a limit that is not negative the
    counter then equals the limit. *)
Theorem queue_waits_only_when_saturated
    (mc rps : option Z) (t0 : Z) (evs : list Event) (w : World) :
  run evs (boot (constructor mc rps) t0) = Some w ->
  queue (rq w) <> [] ->
  maxConcurrent (rq w) <= activeRequests (rq w)
  /\ (0 <= maxConcurrent (rq w) ->
      activeRequests (rq w) = maxConcurrent (rq w)
      /\ Z.of_nat (length (suspended w)) = maxConcurrent (rq w)).
Proof.
  intros Hrun Hq.
  destruct (reachable_well_formed _ _ _ _ _ Hrun) as ((Ha & Hm & Hfull) & _ & _).
  specialize (Hfull Hq). split; [exact Hfull |].
  intros Hmc.
  assert (E : activeRequests (rq w) = maxConcurrent (rq w)).
  { destruct Hm as [Hs | Hle]; [| lia]. rewrite Hs in Ha. simpl in Ha. lia. }
  split; [exact E | rewrite <- Ha; exact E].
Qed.

(** X2.  In every world a run can reach in which no promise is pending,
    the dispatcher is at rest: the counter is 0, the queue is empty and no
    activation is suspended. *)
Theorem all_settled_means_idle
    (mc rps : option Z) (t0 : Z) (evs : list Event) (w : World) :
  run evs (boot (constructor mc rps) t0) = Some w ->
  (forall h, promises w !! h <> Some Pending) ->
  activeRequests (rq w) = 0 /\ queue (rq w) = [] /\ suspended w = [].
Proof.
  intros Hrun Hnone.
  destruct (reachable_well_formed _ _ _ _ _ Hrun) as ((Ha & _ & _) & (_ & _ & _ & P & _) & _).
  assert (Hs : suspended w = []).
  { destruct (suspended w) as [| a l] eqn:E; [reflexivity |].
    exfalso. apply (Hnone (handle (entry a))). apply P. right.
    unfold suspended_handles. rewrite E. left. }
  assert (Hq : queue (rq w) = []).
  { destruct (queue (rq w)) as [| e l] eqn:E; [reflexivity |].
    exfalso. apply (Hnone (handle e)). apply P. left.
    unfold queued_handles. rewrite E. left. }
  rewrite Ha, Hs. repeat split; assumption.
Qed.

(** *** The size of the timestamp log *)

Lemma recent_length_le (c : Z) (l : list Z) :
  (length (recent c l) <= length l)%nat.
Proof. unfold recent. apply filter_length_le. Qed.

Lemma awaitRateLimit_short (e : Entry) (w : World) :
  log_short w -> log_short (awaitRateLimit e w).
Proof.
  unfold log_short. intros Hs.
  pose proof (recent_length_le (clock w - 1000) (requestTimestamps (rq w))) as Hle.
  destruct (awaitRateLimit_cases e w) as [[-> Hroom] | (oldest & _ & _ & ->)]; simpl.
  - rewrite length_app. simpl length.
    destruct Hroom as [Hroom | [Hk _]]; [lia | rewrite Hk; simpl; lia].
  - lia.
Qed.

Lemma process_short (w : World) : log_short w -> log_short (process w).
Proof.
  intros Hs.
  destruct (process_cases w) as [[-> _] | (e & rest & _ & _ & ->)]; [exact Hs |].
  apply awaitRateLimit_short. exact Hs.
Qed.

Lemma exec_short (ev : Event) (w w' : World) :
  exec ev w = Some w' -> log_short w -> log_short w'.
Proof.
  intros Hex Hs. destruct ev as [t | f | h | h | h o]; simpl in Hex.
  - injection Hex as <-. exact Hs.
  - injection Hex as <-. unfold add. apply process_short. exact Hs.
  - destruct (take h (suspended w)) as [[[e [d | |]] rest] |]; try discriminate.
    destruct (d <=? clock w); [| discriminate]. injection Hex as <-.
    apply awaitRateLimit_short. exact Hs.
  - destruct (take h (suspended w)) as [[[e [d | |]] rest] |]; try discriminate.
    injection Hex as <-. exact Hs.
  - destruct (take h (suspended w)) as [[[e [d | |]] rest] |]; try discriminate.
    injection Hex as <-. unfold finally. apply process_short.
    destruct o; exact Hs.
Qed.

(** X3.  In every world a run can reach, on any clock, the timestamp log
    holds at most [requestsPerSecond] entries, and at most one when the limit
    is below one: the log does not grow with the number of tasks. *)
Theorem requestTimestamps_length_bounded
    (mc rps : option Z) (t0 : Z) (evs : list Event) (w : World) :
  run evs (boot (constructor mc rps) t0) = Some w ->
  Z.of_nat (length (requestTimestamps (rq w)))
    <= Z.max 1 (requestsPerSecond (constructor mc rps)).
Proof.
  intros Hrun.
  destruct (run_limits _ _ _ Hrun) as [_ Hr]. simpl rq in Hr. rewrite <- Hr.
  apply (run_invariant log_short exec_short evs _ _ Hrun).
  unfold log_short. simpl. lia.
Qed.

(** X4.  One wait is enough when nothing else starts meanwhile.  In a
    world a run can reach, if the clearance check stops at a timer of
    [waitTime] milliseconds, then the check evaluated on the log it left, at
    any instant from [waitTime] milliseconds later on, grants clearance. *)
Theorem one_wait_is_enough
    (mc rps : option Z) (t0 : Z) (evs : list Event) (w : World)
    (waitTime : Z) (q : RequestQueue) (later : Z) :
  run evs (boot (constructor mc rps) t0) = Some w ->
  waitForRateLimit (clock w) (rq w) = (Wait waitTime, q) ->
  clock w + waitTime <= later ->
  fst (waitForRateLimit later q) = Granted.
Proof.
  intros Hrun Hw Hlater.
  assert (Hs : log_short w).
  { apply (run_invariant log_short exec_short evs _ _ Hrun).
    unfold log_short. simpl. lia. }
  unfold log_short in Hs.
  set (kept := recent (clock w - 1000) (requestTimestamps (rq w))) in *.
  pose proof (recent_length_le (clock w - 1000) (requestTimestamps (rq w))) as Hle.
  fold kept in Hle.
  destruct (Z_lt_le_dec (Z.of_nat (length kept)) (requestsPerSecond (rq w))) as [Hlt | Hfull].
  { rewrite waitForRateLimit_below in Hw by exact Hlt. discriminate. }
  destruct (head kept) as [oldest |] eqn:Hh.
  2:{ assert (Hk : kept = []) by (destruct kept; [reflexivity | discriminate]).
      rewrite waitForRateLimit_none_left in Hw by exact Hk. discriminate. }
  rewrite (waitForRateLimit_full _ oldest) in Hw by assumption.
  injection Hw as <- <-. fold kept.
  destruct kept as [| x l] eqn:Ek; [discriminate |].
  simpl in Hh. injection Hh as ->.
  assert (Hdrop : recent (later - 1000) (oldest :: l) = recent (later - 1000) l).
  { unfold recent. simpl.
    assert (E : (later - 1000 <? oldest) = false) by (apply Z.ltb_ge; lia).
    rewrite E. reflexivity. }
  pose proof (recent_length_le (later - 1000) l) as Hl.
  destruct (Z_lt_le_dec (requestsPerSecond (rq w)) 1) as [Hsmall | Hbig].
  - assert (El : l = []).
    { destruct l; [reflexivity |]. simpl length in *. lia. }
    subst l. rewrite waitForRateLimit_none_left; [reflexivity |].
    simpl requestTimestamps. rewrite Hdrop. reflexivity.
  - rewrite waitForRateLimit_below; [reflexivity |].
    simpl requestTimestamps. simpl requestsPerSecond. rewrite Hdrop.
    simpl length in *. lia.
Qed.

(** *** The log on a clock that is never set back *)

Lemma recent_Forall (P : Z -> Prop) (c : Z) (l : list Z) :
  Forall P l -> Forall P (recent c l).
Proof.
  intros H. unfold recent. induction H as [| x l Hx H IH]; simpl; [constructor |].
  destruct (c <? x); [constructor; assumption | exact IH].
Qed.

Lemma recent_sorted (c : Z) (l : list Z) :
  StronglySorted Z.le l -> StronglySorted Z.le (recent c l).
Proof.
  intros H. induction H as [| x l H IH Hx]; [constructor |].
  unfold recent in *. simpl. destruct (c <? x); [| exact IH].
  constructor; [exact IH |]. apply (recent_Forall _ c l Hx).
Qed.

Lemma sorted_snoc (l : list Z) (y : Z) :
  StronglySorted Z.le l -> Forall (fun x => x <= y) l ->
  StronglySorted Z.le (l ++ [y]).
Proof.
  intros H. induction H as [| x l H IH Hx]; intros Hy; simpl.
  - constructor; constructor.
  - apply Forall_cons in Hy. destruct Hy as [Hxy Hy].
    constructor; [apply IH; exact Hy |].
    apply Forall_app. split; [exact Hx | constructor; [exact Hxy | constructor]].
Qed.

Lemma recent_head_In (c oldest : Z) (l : list Z) :
  head (recent c l) = Some oldest -> In oldest l.
Proof.
  intros H. apply (recent_In c oldest l).
  destruct (recent c l); [discriminate |]. injection H as ->. left. reflexivity.
Qed.

Lemma awaitRateLimit_in_order (e : Entry) (w : World) :
  log_in_order w -> log_in_order (awaitRateLimit e w).
Proof.
  intros (Hpast & Hsort & Hdue).
  pose proof (recent_Forall _ (clock w - 1000) _ Hpast) as Hk.
  pose proof (recent_sorted (clock w - 1000) _ Hsort) as Hks.
  destruct (awaitRateLimit_cases e w) as [[-> _] | (oldest & Hh & _ & ->)];
    unfold log_in_order; simpl.
  - split; [apply Forall_app; split; [exact Hk | constructor; [lia | constructor]] |].
    split; [apply sorted_snoc; assumption |].
    apply Forall_app. split; [exact Hdue | constructor; [exact I | constructor]].
  - split; [exact Hk |]. split; [exact Hks |].
    apply Forall_app. split; [exact Hdue |].
    constructor; [| constructor]. unfold due_by. simpl.
    apply recent_head_In in Hh.
    rewrite Forall_forall in Hpast. apply list_elem_of_In in Hh.
    specialize (Hpast oldest Hh). lia.
Qed.

Lemma process_in_order (w : World) : log_in_order w -> log_in_order (process w).
Proof.
  intros H.
  destruct (process_cases w) as [[-> _] | (e & rest & _ & _ & ->)]; [exact H |].
  apply awaitRateLimit_in_order. exact H.
Qed.

Lemma exec_in_order (ev : Event) (w w' : World) :
  exec ev w = Some w' ->
  (forall t, ev = Tick t -> clock w <= t) ->
  log_in_order w -> log_in_order w'.
Proof.
  intros Hex Hmono H. pose proof H as (Hpast & Hsort & Hdue).
  destruct ev as [t | f | h | h | h o]; simpl in Hex.
  - injection Hex as <-. specialize (Hmono t eq_refl).
    unfold log_in_order. simpl. split; [| split; [exact Hsort |]].
    + eapply Forall_impl; [exact Hpast |]. intros x Hx. simpl in Hx. lia.
    + eapply Forall_impl; [exact Hdue |]. intros a. unfold due_by.
      destruct (stage a); [lia | tauto | tauto].
  - injection Hex as <-. unfold add. apply process_in_order. exact H.
  - destruct (take h (suspended w)) as [[[e [d | |]] rest] |] eqn:Ht; try discriminate.
    destruct (d <=? clock w); [| discriminate]. injection Hex as <-.
    apply awaitRateLimit_in_order.
    split; [exact Hpast | split; [exact Hsort |]].
    exact (proj2 (take_Forall _ _ _ _ _ Ht Hdue)).
  - destruct (take h (suspended w)) as [[[e [d | |]] rest] |] eqn:Ht; try discriminate.
    injection Hex as <-.
    split; [exact Hpast | split; [exact Hsort |]]. simpl.
    apply Forall_app. split; [exact (proj2 (take_Forall _ _ _ _ _ Ht Hdue)) |].
    constructor; [exact I | constructor].
  - destruct (take h (suspended w)) as [[[e [d | |]] rest] |] eqn:Ht; try discriminate.
    injection Hex as <-. unfold finally. apply process_in_order.
    pose proof (proj2 (take_Forall _ _ _ _ _ Ht Hdue)) as Hrest.
    destruct o; (split; [exact Hpast | split; [exact Hsort | exact Hrest]]).
Qed.

Lemma run_in_order (evs : list Event) (w w' : World) :
  run evs w = Some w' -> steady (clock w) evs ->
  log_in_order w -> log_in_order w'.
Proof.
  revert w. induction evs as [| ev evs IH]; intros w Hrun Hst H; simpl in Hrun.
  - injection Hrun as <-. exact H.
  - destruct (exec ev w) as [w1 |] eqn:Hex; [| discriminate].
    pose proof (exec_clock _ _ _ Hex) as Hck.
    apply (IH w1 Hrun).
    + rewrite Hck. destruct ev; simpl in Hst; tauto.
    + apply (exec_in_order _ _ _ Hex); [| exact H].
      intros t ->. simpl in Hst. tauto.
Qed.

Lemma boot_in_order (mc rps : option Z) (t0 : Z) :
  log_in_order (boot (constructor mc rps) t0).
Proof. repeat split; constructor. Qed.

(** X5.  On a clock that is never set back, in every world a run can
    reach: the timestamp log is in ascending order and holds no instant later
    than the clock, so its first element, which line 21 calls
    [oldestTimestamp], is the oldest one in the log. *)
Theorem first_timestamp_is_oldest
    (mc rps : option Z) (t0 : Z) (evs : list Event) (w : World) :
  steady t0 evs ->
  run evs (boot (constructor mc rps) t0) = Some w ->
  StronglySorted Z.le (requestTimestamps (rq w))
  /\ (forall ts, In ts (requestTimestamps (rq w)) -> ts <= clock w)
  /\ (forall oldest ts,
        head (requestTimestamps (rq w)) = Some oldest ->
        In ts (requestTimestamps (rq w)) -> oldest <= ts).
Proof.
  intros Hst Hrun.
  destruct (run_in_order evs _ w Hrun Hst (boot_in_order mc rps t0))
    as (Hpast & Hsort & _).
  split; [exact Hsort |]. split.
  - intros ts Hin. rewrite Forall_forall in Hpast.
    apply Hpast. apply list_elem_of_In. exact Hin.
  - intros oldest ts Hh Hin.
    destruct (requestTimestamps (rq w)) as [| x l]; [discriminate |].
    simpl in Hh. injection Hh as ->.
    destruct Hin as [<- | Hin]; [lia |].
    apply StronglySorted_inv in Hsort. destruct Hsort as [_ Hx].
    rewrite Forall_forall in Hx. apply Hx. apply list_elem_of_In. exact Hin.
Qed.

(** X6.  On a clock that is never set back, in every world a run can
    reach: a wait the clearance check asks for is longer than 0ms and not
    longer than 1000ms, and no suspended activation has a timer set more than
    1000ms ahead of the clock. *)
Theorem wait_is_at_most_a_second
    (mc rps : option Z) (t0 : Z) (evs : list Event) (w : World) :
  steady t0 evs ->
  run evs (boot (constructor mc rps) t0) = Some w ->
  (forall waitTime q,
     waitForRateLimit (clock w) (rq w) = (Wait waitTime, q) ->
     0 < waitTime <= 1000)
  /\ (forall e deadline,
        In (mkActivation e (AwaitTimer deadline)) (suspended w) ->
        deadline <= clock w + 1000).
Proof.
  intros Hst Hrun.
  destruct (run_in_order evs _ w Hrun Hst (boot_in_order mc rps t0))
    as (Hpast & _ & Hdue).
  split.
  - intros waitTime q Hw.
    set (kept := recent (clock w - 1000) (requestTimestamps (rq w))) in *.
    destruct (Z_lt_le_dec (Z.of_nat (length kept)) (requestsPerSecond (rq w))) as [Hlt | Hfull].
    { rewrite waitForRateLimit_below in Hw by exact Hlt. discriminate. }
    destruct (head kept) as [oldest |] eqn:Hh.
    2:{ assert (Hk : kept = []) by (destruct kept; [reflexivity | discriminate]).
        rewrite waitForRateLimit_none_left in Hw by exact Hk. discriminate. }
    rewrite (waitForRateLimit_full _ oldest) in Hw by assumption.
    injection Hw as <- _.
    pose proof (recent_head_young _ _ _ Hh) as Hy.
    apply recent_head_In in Hh.
    rewrite Forall_forall in Hpast. apply list_elem_of_In in Hh.
    specialize (Hpast oldest Hh). simpl in Hpast. lia.
  - intros e deadline Hin. rewrite Forall_forall in Hdue.
    apply list_elem_of_In in Hin. exact (Hdue _ Hin).
Qed.

(** *** A burst of submissions *)

Lemma recent_repeat (t0 : Z) (n : nat) :
  recent (t0 - 1000) (repeat t0 n) = repeat t0 n.
Proof.
  unfold recent. induction n as [| n IH]; simpl; [reflexivity |].
  assert (E : (t0 - 1000 <? t0) = true) by (apply Z.ltb_lt; lia).
  rewrite E, IH. reflexivity.
Qed.

Lemma repeat_snoc (t0 : Z) (n : nat) : repeat t0 n ++ [t0] = repeat t0 (S n).
Proof. induction n as [| n IH]; simpl; [reflexivity | rewrite IH; reflexivity]. Qed.

Lemma add_after_burst (m r t0 j : Z) (f : Task) (w : World) :
  0 <= m -> 0 <= j ->
  after_burst m r t0 j w -> after_burst m r t0 (j + 1) (add f w).
Proof.
  intros Hm Hj (Em & Er & Ec & Ea & Eq & El & Erep & Eg & Hst).
  unfold add.
  match goal with |- after_burst _ _ _ _ (process ?u) => set (u0 := u) end.
  destruct (process_cases u0) as [[-> Hidle] | (e & rest & Hq & Hlt & ->)].
  - (* no free slot, or nothing queued: the entry stays in the queue *)
    subst u0. simpl in Hidle.
    destruct Hidle as [Hsat | Hemp]; [| destruct (queue (rq w)); discriminate].
    unfold after_burst. simpl. rewrite length_app. simpl length.
    repeat split; try assumption; try lia.
  - (* a free slot: the queue was empty and the new entry is dispatched *)
    subst u0. simpl in Hq, Hlt.
    assert (Hempty : queue (rq w) = []).
    { destruct (queue (rq w)) as [| x l]; [reflexivity |]. simpl length in Eq. lia. }
    rewrite Hempty in Hq. simpl in Hq. injection Hq as <- <-.
    set (g := length (stamps (trace w))) in *.
    unfold awaitRateLimit. simpl.
    destruct (Z_lt_le_dec (Z.of_nat g) r) as [Hroom | Hfull].
    + rewrite waitForRateLimit_below;
        [| simpl; rewrite El, Erep, Ec, recent_repeat, repeat_length; lia].
      unfold after_burst. simpl.
      rewrite El, Erep, Ec, recent_repeat, !stamps_app. simpl.
      rewrite Erep, !app_nil_r, repeat_snoc, !repeat_length. fold g.
      repeat split; try assumption; try lia.
      apply Forall_app. split; [exact Hst | constructor; [exact I | constructor]].
    + destruct g as [| g'] eqn:Eg0.
      * rewrite waitForRateLimit_none_left;
          [| simpl; rewrite El, Erep; reflexivity].
        unfold after_burst. simpl.
        rewrite !stamps_app. simpl. rewrite Erep, Ec. simpl.
        repeat split; try assumption; try lia.
        apply Forall_app. split; [exact Hst | constructor; [exact I | constructor]].
      * rewrite (waitForRateLimit_full _ t0);
          [| simpl; rewrite El, Erep, Ec, recent_repeat, repeat_length; lia
           | simpl; rewrite El, Erep, Ec, recent_repeat; reflexivity].
        unfold after_burst. simpl.
        rewrite El, Erep, Ec, recent_repeat, !stamps_app. simpl.
        rewrite !app_nil_r, Erep, !repeat_length.
        repeat split; try assumption; try lia.
        apply Forall_app. split; [exact Hst |].
        constructor; [simpl; lia | constructor].
Qed.

Lemma run_after_burst (m r t0 : Z) (tasks : list Task) (j : Z) (w : World) :
  0 <= m -> 0 <= j ->
  after_burst m r t0 j w ->
  exists w',
    run (map Add tasks) w = Some w'
    /\ after_burst m r t0 (j + Z.of_nat (length tasks)) w'.
Proof.
  intros Hm. revert j w. induction tasks as [| f tasks IH]; intros j w Hj Hb.
  - exists w. simpl. rewrite Z.add_0_r. split; [reflexivity | exact Hb].
  - simpl map. cbn [run exec].
    destruct (IH (j + 1) (add f w) ltac:(lia) (add_after_burst m r t0 j f w Hm Hj Hb))
      as (w' & Hrun & Hb').
    exists w'. split; [exact Hrun |].
    replace (j + Z.of_nat (length (f :: tasks)))
      with (j + 1 + Z.of_nat (length tasks)) by (simpl length; lia).
    exact Hb'.
Qed.

Lemma process_invocations (w : World) :
  invocations (trace (process w)) = invocations (trace w).
Proof.
  destruct (process_cases w) as [[-> _] | (e & rest & _ & _ & ->)]; [reflexivity |].
  match goal with
  | |- context [awaitRateLimit e ?u] =>
      destruct (awaitRateLimit_cases e u) as [[-> _] | (oldest & _ & _ & ->)]
  end; simpl; rewrite !invocations_app; simpl; rewrite ?app_nil_r; reflexivity.
Qed.

Lemma burst_invocations (tasks : list Task) (w w' : World) :
  run (map Add tasks) w = Some w' ->
  invocations (trace w') = invocations (trace w).
Proof.
  revert w. induction tasks as [| f tasks IH]; intros w Hrun.
  - simpl in Hrun. injection Hrun as <-. reflexivity.
  - simpl map in Hrun. cbn [run exec] in Hrun.
    rewrite (IH _ Hrun). unfold add. rewrite process_invocations. reflexivity.
Qed.

(** X7.  Submitting [k] tasks in a row to a new dispatcher, at one
    reading of the clock (as a caller does that maps [add] over a list):
    [min k maxConcurrent] entries are dispatched at once and the others stay
    in the queue; of the dispatched ones, [requestsPerSecond] at most (one
    when the limit is below one) get clearance at once, and each of the
    others waits on a timer of 1000ms; no task has been called yet. *)
Theorem burst_of_submissions
    (mc rps : option Z) (t0 : Z) (tasks : list Task) :
  0 <= maxConcurrent (constructor mc rps) ->
  exists w,
    run (map Add tasks) (boot (constructor mc rps) t0) = Some w
    /\ activeRequests (rq w)
       = Z.min (Z.of_nat (length tasks)) (maxConcurrent (constructor mc rps))
    /\ Z.of_nat (length (queue (rq w)))
       = Z.of_nat (length tasks)
         - Z.min (Z.of_nat (length tasks)) (maxConcurrent (constructor mc rps))
    /\ Z.of_nat (length (stamps (trace w)))
       = Z.min (Z.min (Z.of_nat (length tasks)) (maxConcurrent (constructor mc rps)))
           (Z.max 1 (requestsPerSecond (constructor mc rps)))
    /\ (forall e deadline,
          In (mkActivation e (AwaitTimer deadline)) (suspended w) ->
          deadline = t0 + 1000)
    /\ invocations (trace w) = [].
Proof.
  intros Hm.
  set (m := maxConcurrent (constructor mc rps)) in *.
  set (r := requestsPerSecond (constructor mc rps)).
  assert (Hb0 : after_burst m r t0 0 (boot (constructor mc rps) t0)).
  { unfold after_burst. simpl. repeat split; try reflexivity; try lia. constructor. }
  destruct (run_after_burst m r t0 tasks 0 _ Hm ltac:(lia) Hb0) as (w & Hrun & Hb).
  simpl in Hb. destruct Hb as (_ & _ & _ & Ea & Eq & _ & _ & Eg & Hst).
  exists w. split; [exact Hrun |]. repeat split; try assumption.
  - intros e deadline Hin. rewrite Forall_forall in Hst.
    apply list_elem_of_In in Hin. exact (Hst _ Hin).
  - rewrite (burst_invocations tasks _ w Hrun). reflexivity.
Qed.

End Dispatcher.

(** ** Concrete runs

    Tasks, values and errors are integers here. *)

(** One start per second and room for three tasks.  Task 10 is submitted at
    0ms and starts.  Task 11 is submitted at 100ms and has to wait until
    1000ms.  Task 12 is submitted at 1001ms, when the timer of task 11 is due
    and has not fired yet: it gets the clearance and starts.  The timer of
    task 11 then fires, the check is evaluated again and task 11 waits until
    2001ms. *)
Local Abbreviation overtaking_run :=
  ([Tick 0; Add 10; Resume 0; Tick 100; Add 11; Tick 1001; Add 12;
    Resume 2; TimerFires 1; Tick 2001; TimerFires 1; Resume 1]
   : list (@Event Z Z Z)) (only parsing).

(** One task at a time: task 10 is running, task 11 waits in the queue. *)
Local Abbreviation queued_behind_run :=
  ([Add 10; Add 11; Resume 0] : list (@Event Z Z Z)) (only parsing).

(** One task from submission to its result. *)
Local Abbreviation one_task_run :=
  ([Add 10; Resume 0; TaskDone 0 (Returned 7)] : list (@Event Z Z Z)) (only parsing).

(** The amended C1 on the run above: the clearances are at least 1000ms
    apart. *)
Lemma clearances_in_window_bounded_witness :
  exists w : @World Z Z Z,
    0 < requestsPerSecond (@constructor Z (Some 3) (Some 1))
    /\ steady 0 overtaking_run
    /\ run overtaking_run (boot (constructor (Some 3) (Some 1)) 0) = Some w
    /\ stamps (trace w) = [0; 1001; 2001]
    /\ Z.of_nat (length (window 1500 (stamps (trace w)))) <= 1.
Proof.
  eexists. split; [reflexivity |]. split; [simpl; lia |].
  split; [vm_compute; reflexivity |]. split; [reflexivity |].
  refine (proj1 (clearances_in_window_bounded (Some 3) (Some 1) 0 overtaking_run
                   _ _ _ _) 1500).
  - reflexivity.
  - simpl. lia.
  - vm_compute. reflexivity.
Defined.

(** One start per second.  A caller submits task 10 at 0ms, keeps the
    thread for 1000ms and submits task 11: the clearance of task 10 is 1000ms
    old and task 11 gets clearance at once.  The two [await]s of line 48
    continue when the caller lets go, one after the other. *)
Local Abbreviation blocked_caller_run :=
  ([Tick 0; Add 10; Tick 1000; Add 11; Resume 0; Resume 1]
   : list (@Event Z Z Z)) (only parsing).

(** C1 fails for the instants at which the tasks are called: on the run
    above, with [requestsPerSecond = 1] and a clock that is never set back,
    the clearances are logged at 0ms and 1000ms, and both tasks are called at
    1000ms, two calls in the 1000ms that end at 1000ms. *)
Lemma two_calls_in_one_window :
  exists w : @World Z Z Z,
    0 < requestsPerSecond (@constructor Z (Some 3) (Some 1))
    /\ steady 0 blocked_caller_run
    /\ run blocked_caller_run (boot (constructor (Some 3) (Some 1)) 0) = Some w
    /\ stamps (trace w) = [0; 1000]
    /\ invocations (trace w) = [0%nat; 1%nat]
    /\ call_instants blocked_caller_run (boot (constructor (Some 3) (Some 1)) 0)
       = [1000; 1000]
    /\ requestsPerSecond (@constructor Z (Some 3) (Some 1))
       < Z.of_nat (length (window 1000
                             (call_instants blocked_caller_run
                                (boot (constructor (Some 3) (Some 1)) 0)))).
Proof.
  eexists. split; [reflexivity |]. split; [simpl; lia |].
  split; [vm_compute; reflexivity |].
  split; [reflexivity |]. split; [reflexivity |].
  split; [vm_compute; reflexivity |]. vm_compute. reflexivity.
Qed.

(** C2 with room for one task and two submitted. *)
Lemma activeRequests_bounded_witness :
  exists w : @World Z Z Z,
    0 <= maxConcurrent (@constructor Z (Some 1) None)
    /\ run queued_behind_run (boot (constructor (Some 1) None) 0) = Some w
    /\ 0 <= activeRequests (rq w) <= maxConcurrent (rq w)
    /\ Z.of_nat (length (executing w)) <= activeRequests (rq w)
    /\ Z.of_nat (length (executing w)) <= maxConcurrent (rq w).
Proof.
  eexists. split; [simpl; lia |]. split; [vm_compute; reflexivity |].
  apply (activeRequests_bounded (Some 1) None 0 queued_behind_run).
  - simpl. lia.
  - vm_compute. reflexivity.
Defined.

(** C3 at 100ms with one start logged at 0ms and a limit of one: a wait of
    900ms, the log unchanged. *)
Lemma waitForRateLimit_algorithm_witness :
  requestsPerSecond (@mkRequestQueue Z 30 1 1 [] [0])
    <= Z.of_nat (length (recent (100 - 1000)
                           (requestTimestamps (@mkRequestQueue Z 30 1 1 [] [0]))))
  /\ head (recent (100 - 1000) (requestTimestamps (@mkRequestQueue Z 30 1 1 [] [0])))
     = Some 0
  /\ 0 < 0 + 1000 - 100
  /\ waitForRateLimit 100 (@mkRequestQueue Z 30 1 1 [] [0])
     = (Wait 900, mkRequestQueue 30 1 1 [] [0]).
Proof.
  split; [simpl; lia |]. split; [reflexivity |].
  apply (proj1 (proj2 (proj2
           (waitForRateLimit_algorithm (Value:=Z) (Error:=Z) 100
              (mkRequestQueue 30 1 1 [] [0])))) 0).
  - simpl. lia.
  - reflexivity.
Defined.

(** C4 fails: with [requestsPerSecond = 0] the first check grants
    clearance, the start is logged and the task is called; the same with
    [requestsPerSecond = -5]. *)
Lemma nonpositive_limit_grants_clearance :
  fst (waitForRateLimit 5000 (@constructor Z (Some 30) (Some 0))) = Granted
  /\ (exists w : @World Z Z Z,
        run [Add 10; Resume 0] (boot (constructor (Some 30) (Some 0)) 5000) = Some w
        /\ requestTimestamps (rq w) = [5000]
        /\ invocations (trace w) = [0%nat])
  /\ (exists w : @World Z Z Z,
        run [Add 10; Resume 0] (boot (constructor (Some 30) (Some (-5))) 5000) = Some w
        /\ requestTimestamps (rq w) = [5000]
        /\ invocations (trace w) = [0%nat]).
Proof.
  split; [reflexivity |].
  split; eexists; (split; [vm_compute; reflexivity |]); split; reflexivity.
Qed.

(** The amended C4 on a new dispatcher with a limit of zero. *)
Lemma nonpositive_limit_acts_as_one_witness :
  requestsPerSecond (@constructor Z (Some 30) (Some 0)) <= 0
  /\ recent (5000 - 1000) (requestTimestamps (@constructor Z (Some 30) (Some 0))) = []
  /\ waitForRateLimit 5000 (@constructor Z (Some 30) (Some 0))
     = (Granted, with_requestTimestamps [5000] (constructor (Some 30) (Some 0))).
Proof.
  split; [simpl; lia |]. split; [reflexivity |].
  apply (proj1 (nonpositive_limit_acts_as_one 5000 (constructor (Some 30) (Some 0))
                  ltac:(simpl; lia))).
  reflexivity.
Defined.

(** C5 fails: the entries leave the queue in the order 0, 1, 2 and
    their tasks are called in the order 0, 2, 1.  Entry 1 was submitted
    before entry 2 and dispatched before it, and at 1001ms its wait was over:
    had its timer fired first, it would have been called then.  Entry 2 is
    submitted at that instant, takes the clearance and is called, while
    entry 1 is put on a new timer until 2001ms. *)
Lemma later_entry_called_first :
  (exists w : @World Z Z Z,
     run [Tick 0; Add 10; Resume 0; Tick 100; Add 11; Tick 1001;
          TimerFires 1; Resume 1]
       (boot (constructor (Some 3) (Some 1)) 0) = Some w
     /\ invocations (trace w) = [0; 1]%nat)
  /\ (exists w : @World Z Z Z,
        run [Tick 0; Add 10; Resume 0; Tick 100; Add 11; Tick 1001; Add 12;
             Resume 2; TimerFires 1]
          (boot (constructor (Some 3) (Some 1)) 0) = Some w
        /\ shifts (trace w) = [0; 1; 2]%nat
        /\ invocations (trace w) = [0; 2]%nat
        /\ stage_of 1 w = Some (AwaitTimer 2001))
  /\ (exists w : @World Z Z Z,
        run overtaking_run (boot (constructor (Some 3) (Some 1)) 0) = Some w
        /\ shifts (trace w) = [0; 1; 2]%nat
        /\ invocations (trace w) = [0; 2; 1]%nat).
Proof.
  split; [| split]; eexists; (split; [vm_compute; reflexivity |]);
    repeat split; reflexivity.
Qed.

(** The amended C5 on the same run. *)
Lemma dequeue_order_is_submission_order_witness :
  exists w : @World Z Z Z,
    run overtaking_run (boot (constructor (Some 3) (Some 1)) 0) = Some w
    /\ shifts (trace w) ++ queued_handles w = seq 0 (length (submissions overtaking_run))
    /\ map fn (queue (rq w)) = drop (length (shifts (trace w))) (submissions overtaking_run).
Proof.
  eexists. split; [vm_compute; reflexivity |].
  apply (dequeue_order_is_submission_order (Some 3) (Some 1) 0 overtaking_run).
  vm_compute. reflexivity.
Defined.

(** C6 for a task that returns 7. *)
Lemma future_settles_exactly_once_witness :
  exists w : @World Z Z Z,
    run one_task_run (boot (constructor None None) 0) = Some w
    /\ (0 < length (promises w))%nat
    /\ (exists p, in_phase w 0 p /\ forall p', in_phase w 0 p' -> p' = p)
    /\ (length (calls 0 (trace w)) <= 1)%nat.
Proof.
  eexists. split; [vm_compute; reflexivity |]. split; [simpl; lia |].
  pose proof (future_settles_exactly_once None None 0 one_task_run _ 0%nat
                ltac:(vm_compute; reflexivity) ltac:(simpl; lia)) as H.
  split; [exact (proj1 H) | exact (proj1 (proj2 H))].
Defined.

(** C7: task 10 throws 5; its promise is rejected with 5 and the entry of
    task 11 takes the slot. *)
Lemma failing_task_frees_slot_and_loop_goes_on_witness :
  exists w w' : @World Z Z Z,
    run queued_behind_run (boot (constructor (Some 1) None) 0) = Some w
    /\ exec (TaskDone 0 (Threw 5)) w = Some w'
    /\ promises w' !! 0%nat = Some (Rejected 5)
    /\ activeRequests (rq w') = activeRequests (rq w)
    /\ queue (rq w') = []
    /\ (1%nat ∈ suspended_handles w').
Proof.
  eexists. eexists. split; [vm_compute; reflexivity |].
  split; [vm_compute; reflexivity |].
  pose proof (proj2 (proj2 (failing_task_frees_slot_and_loop_goes_on
                              (Some 1) None 0 queued_behind_run _
                              ltac:(vm_compute; reflexivity)))
                0%nat 5 _ ltac:(vm_compute; reflexivity)) as H.
  split; [exact (proj1 H) |]. exact (proj1 (proj2 H)).
Defined.

(** C8: the promise of a task that returns 7 holds 7. *)
Lemma add_promise_settles_with_task_outcome_witness :
  exists w : @World Z Z Z,
    run one_task_run (boot (constructor None None) 0) = Some w
    /\ promises w !! 0%nat = Some (Fulfilled 7)
    /\ Fulfilled 7 = match outcome_of 0 one_task_run with
                     | Some o => of_outcome o
                     | None => Pending
                     end.
Proof.
  eexists. split; [vm_compute; reflexivity |]. split; [reflexivity |].
  apply (proj1 (proj2 (add_promise_settles_with_task_outcome None None 0 one_task_run _
                         ltac:(vm_compute; reflexivity))) 0%nat (Fulfilled 7)).
  reflexivity.
Defined.

(** C9 with the one slot taken and an entry in the queue. *)
Lemma process_idle_unchanged_witness :
  exists w : @World Z Z Z,
    run queued_behind_run (boot (constructor (Some 1) None) 0) = Some w
    /\ (queue (rq w) = [] \/ maxConcurrent (rq w) <= activeRequests (rq w))
    /\ process w = w
    /\ queue (rq (process w)) = queue (rq w)
    /\ activeRequests (rq (process w)) = activeRequests (rq w)
    /\ requestTimestamps (rq (process w)) = requestTimestamps (rq w).
Proof.
  eexists. split; [vm_compute; reflexivity |].
  split; [right; simpl; lia |].
  apply process_idle_unchanged. right. simpl. lia.
Defined.

(** ** Where the hypotheses matter *)

(** The bound of C1 needs a clock that is never set back.  Two starts per
    second: starts are logged at 1000ms and 1001ms; the clock jumps to 2001ms,
    the log is emptied and a third start is logged; the clock is set back to
    1002ms and a fourth start is logged, the third within 1000ms of the first
    two. *)
Example clock_set_back_overfills_window :
  exists w : @World Z Z Z,
    run [Tick 1000; Add 10; Tick 1001; Add 11; Tick 2001; Add 12; Tick 1002; Add 13]
      (boot (constructor (Some 30) (Some 2)) 0) = Some w
    /\ stamps (trace w) = [1000; 1001; 2001; 1002]
    /\ window 1999 (stamps (trace w)) = [1000; 1001; 1002].
Proof. eexists. split; [vm_compute; reflexivity |]. split; reflexivity. Qed.

(** The window of C1 is the 1000 instants [t - 1000 < ts <= t]: with one
    start per second, starts can be exactly 1000ms apart. *)
Example starts_a_second_apart :
  exists w : @World Z Z Z,
    run [Tick 0; Add 10; Tick 1000; Add 11]
      (boot (constructor (Some 3) (Some 1)) 0) = Some w
    /\ stamps (trace w) = [0; 1000]
    /\ window 1000 (stamps (trace w)) = [1000].
Proof. eexists. split; [vm_compute; reflexivity |]. split; reflexivity. Qed.

(** The upper bound of C2 needs a limit that is not negative.  The
    constructor stores [-1] as it is; the counter is 0 from the start, and
    nothing is ever dispatched: the entry stays in the queue. *)
Example negative_limit_dispatches_nothing :
  exists w : @World Z Z Z,
    run [Add 10] (boot (constructor (Some (-1)) None) 0) = Some w
    /\ maxConcurrent (rq w) = -1
    /\ activeRequests (rq w) = 0
    /\ queued_handles w = [0%nat]
    /\ suspended w = [].
Proof. eexists. split; [vm_compute; reflexivity |]. repeat split; reflexivity. Qed.

(** * The loop of the scraper *)

Section ScraperLoop.

Import Scraper.

Lemma ids_nil (first last : Z) : last < first -> ids first last = [].
Proof.
  intros H. unfold ids. replace (Z.to_nat (last - first + 1)) with 0%nat by lia.
  reflexivity.
Qed.

Lemma ids_cons (first last : Z) :
  first <= last -> ids first last = first :: ids (first + 1) last.
Proof.
  intros H. unfold ids.
  replace (Z.to_nat (last - first + 1)) with (S (Z.to_nat (last - (first + 1) + 1))) by lia.
  cbn [seq map]. f_equal; [lia |].
  rewrite <- seq_shift, map_map. apply map_ext. intros k. lia.
Qed.

Lemma ids_length (first last : Z) :
  Z.of_nat (length (ids first last)) = Z.max 0 (last - first + 1).
Proof. unfold ids. rewrite length_map, length_seq. lia. Qed.

Lemma ids_app (first mid last : Z) :
  first <= mid + 1 -> mid <= last ->
  ids first last = ids first mid ++ ids (mid + 1) last.
Proof.
  intros H1 H2.
  remember (Z.to_nat (mid - first + 1)) as n eqn:En.
  revert first H1 En. induction n as [| n IH]; intros first H1 En.
  - assert (first = mid + 1) by lia. subst first.
    rewrite (ids_nil (mid + 1) mid) by lia. reflexivity.
  - rewrite (ids_cons first last) by lia. rewrite (ids_cons first mid) by lia.
    simpl. f_equal. apply IH; lia.
Qed.

Lemma fillBatch_enough (fuel : nat) (j batchEnd : Z) (batch : list Z) :
  (Z.to_nat (batchEnd - j + 1) <= fuel)%nat ->
  fillBatch fuel j (Some batchEnd) batch = Some (batch ++ ids j batchEnd).
Proof.
  revert j batch. induction fuel as [| fuel IH]; intros j batch Hf.
  - simpl. assert (E : (j <=? batchEnd) = false) by (apply Z.leb_gt; lia).
    rewrite E, ids_nil, app_nil_r by lia. reflexivity.
  - cbn [fillBatch js_le]. destruct (j <=? batchEnd) eqn:E.
    + apply Z.leb_le in E. rewrite IH by lia.
      rewrite (ids_cons j batchEnd) by lia. rewrite <- app_assoc. reflexivity.
    + apply Z.leb_gt in E. rewrite ids_nil, app_nil_r by lia. reflexivity.
Qed.

Lemma batches_of_app (l l' : list Step) :
  batches_of (l ++ l') = batches_of l ++ batches_of l'.
Proof.
  induction l as [| x l IH]; simpl; [reflexivity |].
  destruct x; simpl; rewrite IH; reflexivity.
Qed.

Lemma results_of_app (l l' : list Step) :
  results_of (l ++ l') = results_of l ++ results_of l'.
Proof.
  induction l as [| x l IH]; simpl; [reflexivity |].
  destruct x; simpl; rewrite IH, ?app_assoc; reflexivity.
Qed.

Lemma pauses_of_app (l l' : list Step) :
  pauses_of (l ++ l') = pauses_of l ++ pauses_of l'.
Proof.
  induction l as [| x l IH]; simpl; [reflexivity |].
  destruct x; simpl; rewrite IH; reflexivity.
Qed.

Lemma filter_map_snd (p : Result -> bool)
    (results : list (list Logger.Call * Result)) :
  length (List.filter (fun r => p (snd r)) results)
  = length (List.filter p (map snd results)).
Proof.
  induction results as [| r l IH]; simpl; [reflexivity |].
  destruct (p (snd r)); simpl; rewrite IH; reflexivity.
Qed.

Lemma batchLoop_enough (host : Z -> Circumstances) (M : Z) (fuel : nat) :
  forall (i : Z) (tally : Tally) (steps : list Step),
    (Z.to_nat (M - i + 1) + 100 <= fuel)%nat ->
    exists tally' new,
      batchLoop fuel host i (Some M) tally steps = Some (tally', steps ++ new)
      /\ loop_adds host i M tally tally' new.
Proof.
  induction fuel as [| fuel IH]; intros i tally steps Hf; [lia |].
  cbn [batchLoop js_le Math_min].
  destruct (i <=? M) eqn:Ei.
  2:{ apply Z.leb_gt in Ei. exists tally, []. rewrite app_nil_r.
      split; [reflexivity |]. unfold loop_adds. simpl.
      rewrite ids_nil by lia.
      assert (E : (i <=? M) = false) by (apply Z.leb_gt; lia). rewrite E.
      split; [reflexivity |]. split; [intros k b Hk; discriminate |].
      repeat split; try reflexivity; lia. }
  apply Z.leb_le in Ei.
  set (e := Z.min (i + batchSize - 1) M).
  assert (He : i <= e <= i + 99) by (unfold e, batchSize; lia).
  rewrite fillBatch_enough by lia. simpl app at 1.
  set (batch := ids i e).
  set (results := processMultipleShows host batch).
  match goal with
  | |- context [batchLoop fuel host (i + batchSize) (Some M) ?t ?st] =>
      destruct (IH (i + batchSize) t st ltac:(unfold batchSize; lia))
        as (tally' & rest & Hrun & Hc & Hk & Hn & Hp & Hr & Hs & Hx);
      set (st1 := st) in *
  end.
  rewrite Hrun.
  set (pause := if i + batchSize <=? M then [Slept 500] else []).
  exists tally'.
  exists ([Logged (say Logger.Info
             ("Processing batch: " +:+ pretty i +:+ " to " +:+ js_shown (Some e)
              +:+ " (" +:+ pretty (length batch) +:+ " shows)"));
           Processed batch results;
           Logged (say Logger.Info
             ("Batch completed - Success: "
              +:+ pretty (length (List.filter (fun r => not_null (snd r)) results))
              +:+ ", Failed/Skipped: "
              +:+ pretty (length (List.filter (fun r => is_null (snd r)) results))))]
          ++ pause ++ rest).
  split.
  { f_equal. f_equal. subst st1 pause. destruct (i + batchSize <=? M);
      rewrite <- ?app_assoc; reflexivity. }
  assert (Hb : batches_of pause = [] /\ results_of pause = [] ).
  { unfold pause. destruct (i + batchSize <=? M); split; reflexivity. }
  destruct Hb as [Hb1 Hb2].
  assert (Hbatches : forall tl, batches_of
            ([Logged (say Logger.Info
             ("Processing batch: " +:+ pretty i +:+ " to " +:+ js_shown (Some e)
              +:+ " (" +:+ pretty (length batch) +:+ " shows)"));
           Processed batch results;
           Logged (say Logger.Info
             ("Batch completed - Success: "
              +:+ pretty (length (List.filter (fun r => not_null (snd r)) results))
              +:+ ", Failed/Skipped: "
              +:+ pretty (length (List.filter (fun r => is_null (snd r)) results))))]
          ++ pause ++ tl) = batch :: batches_of tl).
  { intros tl. cbn [app batches_of]. rewrite batches_of_app, Hb1. reflexivity. }
  unfold loop_adds. rewrite Hbatches.
  assert (Hres : results_of
            ([Logged (say Logger.Info
             ("Processing batch: " +:+ pretty i +:+ " to " +:+ js_shown (Some e)
              +:+ " (" +:+ pretty (length batch) +:+ " shows)"));
           Processed batch results;
           Logged (say Logger.Info
             ("Batch completed - Success: "
              +:+ pretty (length (List.filter (fun r => not_null (snd r)) results))
              +:+ ", Failed/Skipped: "
              +:+ pretty (length (List.filter (fun r => is_null (snd r)) results))))]
          ++ pause ++ rest) = map snd results ++ results_of rest).
  { cbn [app results_of]. rewrite results_of_app, Hb2. reflexivity. }
  rewrite Hres.
  assert (Hsplit : ids i M = batch ++ ids (i + batchSize) M).
  { unfold batch. rewrite (ids_app i e M) by lia.
    f_equal. unfold e, batchSize.
    destruct (Z_le_gt_dec (i + 100 - 1) M) as [Hle | Hgt].
    - rewrite Z.min_l by lia. f_equal. lia.
    - rewrite Z.min_r by lia. rewrite !ids_nil by lia. reflexivity. }
  split; [| split; [| split; [| split; [| split; [| split]]]]].
  - cbn [concat]. rewrite Hc. symmetry. exact Hsplit.
  - intros k b Hlk. destruct k as [| k].
    + simpl in Hlk. injection Hlk as <-.
      rewrite Z.mul_0_r, Z.add_0_r. split; [exact Ei | reflexivity].
    + simpl in Hlk. destruct (Hk k b Hlk) as [H1 H2].
      replace (i + batchSize * Z.of_nat (S k))
        with (i + batchSize + batchSize * Z.of_nat k) by (unfold batchSize; lia).
      split; assumption.
  - cbn [length]. rewrite Nat2Z.inj_succ, Hn.
    assert (E : (i <=? M) = true) by (apply Z.leb_le; exact Ei). rewrite E.
    unfold batchSize. destruct (i + 100 <=? M) eqn:E2.
    + apply Z.leb_le in E2.
      replace (M - i) with ((M - (i + 100)) + 1 * 100) by lia.
      rewrite Z.div_add by lia. lia.
    + apply Z.leb_gt in E2. rewrite Z.div_small by lia. lia.
  - cbn [app pauses_of]. rewrite pauses_of_app, Hp. cbn [length pred].
    unfold pause. destruct (i + batchSize <=? M) eqn:E2.
    + apply Z.leb_le in E2.
      assert (Hpos : (0 < length (batches_of rest))%nat).
      { pose proof (Z.div_pos (M - (i + batchSize)) batchSize ltac:(lia)
                      ltac:(unfold batchSize; lia)). lia. }
      destruct (length (batches_of rest)); [lia | reflexivity].
    + destruct (length (batches_of rest)); [reflexivity | lia].
  - rewrite Hr, Hsplit, map_app. f_equal.
    unfold results, processMultipleShows. rewrite map_map. reflexivity.
  - rewrite Hs. cbn [successCount]. rewrite List.filter_app, length_app.
    rewrite filter_map_snd, Nat2Z.inj_add, Z.add_assoc. reflexivity.
  - rewrite Hx. cbn [errorCount]. rewrite List.filter_app, length_app.
    rewrite filter_map_snd, Nat2Z.inj_add, Z.add_assoc. reflexivity.
Qed.

Lemma ids_NoDup (first last : Z) : NoDup (ids first last).
Proof.
  unfold ids. change (map ?f ?l) with (f <$> l).
  apply NoDup_fmap_2; [| apply NoDup_seq].
  intros a b H. lia.
Qed.

(** X8.  With enough fuel the loop of [main] ends, and the batches it
    hands to [processMultipleShows], one after the other, are the ids from
    [lastProcessedId + 1] to [maxId] in ascending order: every id of the
    range is processed once, none twice, none outside the range, and the
    results come back in that order. *)
Theorem scrape_processes_each_id_once
    (fuel : nat) (host : Z -> Circumstances) (lastProcessedId maxId : Z) :
  (Z.to_nat (maxId - lastProcessedId) + 100 <= fuel)%nat ->
  exists tally steps,
    scrape fuel host lastProcessedId (Some maxId) = Some (tally, steps)
    /\ concat (batches_of steps) = ids (lastProcessedId + 1) maxId
    /\ NoDup (concat (batches_of steps))
    /\ (forall id, In id (concat (batches_of steps))
                   <-> lastProcessedId < id <= maxId)
    /\ results_of steps
       = map (fun id => snd (processShow host id)) (ids (lastProcessedId + 1) maxId).
Proof.
  intros Hf. unfold scrape.
  destruct (batchLoop_enough host maxId fuel (lastProcessedId + 1) (mkTally 0 0) []
              ltac:(lia)) as (tally & steps & Hrun & Hc & _ & _ & _ & Hr & _).
  exists tally, steps. simpl in Hrun. split; [exact Hrun |].
  split; [exact Hc |]. rewrite Hc. split; [apply ids_NoDup |]. split; [| exact Hr].
  intros id. unfold ids. rewrite in_map_iff. split.
  - intros (k & <- & Hk). apply in_seq in Hk. lia.
  - intros Hid. exists (Z.to_nat (id - (lastProcessedId + 1))).
    split; [lia | apply in_seq; lia].
Qed.

(** X9.  The batches of the loop: the [k]-th one holds the ids from
    [lastProcessedId + 1 + 100 k] up to 99 more, cut at [maxId].  So every
    batch has between 1 and 100 ids, every batch but the last has exactly
    100, and there are [(maxId - lastProcessedId - 1) / 100 + 1] of them when
    there is an id to process. *)
Theorem scrape_batches_of_a_hundred
    (fuel : nat) (host : Z -> Circumstances) (lastProcessedId maxId : Z) :
  (Z.to_nat (maxId - lastProcessedId) + 100 <= fuel)%nat ->
  exists tally steps,
    scrape fuel host lastProcessedId (Some maxId) = Some (tally, steps)
    /\ (forall k b,
          batches_of steps !! k = Some b ->
          b = ids (lastProcessedId + 1 + 100 * Z.of_nat k)
                (Z.min (lastProcessedId + 1 + 100 * Z.of_nat k + 99) maxId)
          /\ (1 <= length b <= 100)%nat
          /\ ((S k < length (batches_of steps))%nat -> length b = 100%nat))
    /\ Z.of_nat (length (batches_of steps))
       = (if lastProcessedId <? maxId
          then (maxId - lastProcessedId - 1) / 100 + 1 else 0).
Proof.
  intros Hf. unfold scrape.
  destruct (batchLoop_enough host maxId fuel (lastProcessedId + 1) (mkTally 0 0) []
              ltac:(lia)) as (tally & steps & Hrun & _ & Hk & Hn & _).
  exists tally, steps. simpl in Hrun. split; [exact Hrun |]. split.
  - intros k b Hb. destruct (Hk k b Hb) as [Hle ->]. unfold batchSize in *.
    replace (lastProcessedId + 1 + 100 * Z.of_nat k + 100 - 1)
      with (lastProcessedId + 1 + 100 * Z.of_nat k + 99) by lia.
    split; [reflexivity |].
    pose proof (ids_length (lastProcessedId + 1 + 100 * Z.of_nat k)
                  (Z.min (lastProcessedId + 1 + 100 * Z.of_nat k + 99) maxId)) as Hl.
    split; [lia |].
    intros Hnext.
    destruct (proj2 (lookup_lt_is_Some (batches_of steps) (S k)) Hnext) as (b' & Hb').
    destruct (Hk (S k) b' Hb') as [Hle' _]. lia.
  - rewrite Hn. unfold batchSize.
    destruct (lastProcessedId + 1 <=? maxId) eqn:E1;
      destruct (lastProcessedId <? maxId) eqn:E2; try lia.
    f_equal. f_equal. lia.
Qed.

Lemma work_of_app (l l' : list Step) :
  work_of (l ++ l') = work_of l ++ work_of l'.
Proof.
  induction l as [| x l IH]; simpl; [reflexivity |].
  destruct x; simpl; rewrite IH; reflexivity.
Qed.

Lemma batchLoop_work (host : Z -> Circumstances) (maxId : option Z) (fuel : nat) :
  forall (i : Z) (tally tally' : Tally) (steps out : list Step),
    batchLoop fuel host i maxId tally steps = Some (tally', out) ->
    exists new,
      out = steps ++ new
      /\ work_of new = pause_between 500 (batches_of new)
      /\ (if js_le i maxId then batches_of new <> [] else new = []).
Proof.
  induction fuel as [| fuel IH]; intros i tally tally' steps out Hrun.
  - simpl in Hrun. destruct (js_le i maxId).
    + discriminate.
    + injection Hrun as <- <-. exists []. rewrite app_nil_r. auto.
  - cbn [batchLoop] in Hrun. destruct (js_le i maxId).
    2:{ injection Hrun as <- <-. exists []. rewrite app_nil_r. auto. }
    destruct (fillBatch (S fuel) i (Math_min (i + batchSize - 1) maxId) [])
      as [batch |]; [| discriminate].
    apply IH in Hrun as (new & -> & Hw & Hnext).
    destruct (js_le (i + batchSize) maxId).
    + eexists. split; [rewrite <- !app_assoc; reflexivity |].
      cbn [app work_of batches_of]. rewrite Hw.
      split; [| discriminate].
      destruct (batches_of new); [contradiction | reflexivity].
    + subst new. eexists. split; [rewrite app_nil_r, <- !app_assoc; reflexivity |].
      cbn. split; [reflexivity | discriminate].
Qed.

(** X10.  The loop pauses 500ms between one batch and the next, and
    nowhere else: not before the first batch, not after the last, and not
    at all when there is at most one batch. *)
Theorem scrape_pauses_between_batches
    (fuel : nat) (host : Z -> Circumstances) (lastProcessedId maxId : Z) :
  (Z.to_nat (maxId - lastProcessedId) + 100 <= fuel)%nat ->
  exists tally steps,
    scrape fuel host lastProcessedId (Some maxId) = Some (tally, steps)
    /\ work_of steps = pause_between 500 (batches_of steps)
    /\ pauses_of steps = repeat 500 (pred (length (batches_of steps))).
Proof.
  intros Hf. unfold scrape.
  destruct (batchLoop_enough host maxId fuel (lastProcessedId + 1) (mkTally 0 0) []
              ltac:(lia)) as (tally & steps & Hrun & _ & _ & _ & Hp & _).
  exists tally, steps. simpl in Hrun. split; [exact Hrun |]. split; [| exact Hp].
  destruct (batchLoop_work _ _ _ _ _ _ _ _ Hrun) as (new & Hnew & Hw & _).
  simpl in Hnew. subst new. exact Hw.
Qed.

(** X11.  The two counts [main] reports: together they count every id of
    the range once, [successCount] the ids whose chain ended without an
    error and [errorCount] the ids whose chain was caught. *)
Theorem scrape_counts_every_id
    (fuel : nat) (host : Z -> Circumstances) (lastProcessedId maxId : Z) :
  (Z.to_nat (maxId - lastProcessedId) + 100 <= fuel)%nat ->
  exists tally steps,
    scrape fuel host lastProcessedId (Some maxId) = Some (tally, steps)
    /\ successCount tally + errorCount tally = Z.max 0 (maxId - lastProcessedId)
    /\ successCount tally
       = Z.of_nat (length (List.filter
                             (fun id => not_null (snd (processShow host id)))
                             (ids (lastProcessedId + 1) maxId)))
    /\ errorCount tally
       = Z.of_nat (length (List.filter
                             (fun id => is_null (snd (processShow host id)))
                             (ids (lastProcessedId + 1) maxId))).
Proof.
  intros Hf. unfold scrape.
  destruct (batchLoop_enough host maxId fuel (lastProcessedId + 1) (mkTally 0 0) []
              ltac:(lia)) as (tally & steps & Hrun & _ & _ & _ & _ & Hr & Hs & Hx).
  exists tally, steps. simpl in Hrun. split; [exact Hrun |].
  cbn [successCount errorCount] in Hs, Hx. rewrite Hr in Hs, Hx.
  assert (Hcount : forall (p : Result -> bool) (l : list Z),
             length (List.filter p (map (fun id => snd (processShow host id)) l))
             = length (List.filter (fun id => p (snd (processShow host id))) l)).
  { intros p l. induction l as [| x l IHl]; simpl; [reflexivity |].
    destruct (p (snd (processShow host x))); simpl; rewrite IHl; reflexivity. }
  rewrite Hcount in Hs, Hx.
  assert (Hboth : forall l : list Z,
             (length (List.filter (fun id => not_null (snd (processShow host id))) l)
              + length (List.filter (fun id => is_null (snd (processShow host id))) l)
              = length l)%nat).
  { intros l. induction l as [| x l IHl]; simpl; [reflexivity |].
    destruct (snd (processShow host x)); simpl; lia. }
  pose proof (Hboth (ids (lastProcessedId + 1) maxId)) as Hsum.
  pose proof (ids_length (lastProcessedId + 1) maxId) as Hlen.
  split; [lia |]. split; [lia | lia].
Qed.

(** X12.  When [maxId] is NaN (the total read from the configuration is
    no number) or not above [lastProcessedId], the loop ends at once,
    whatever the fuel: no batch, no pause, no log line, both counts 0. *)
Theorem scrape_nothing_to_do
    (fuel : nat) (host : Z -> Circumstances) (lastProcessedId : Z)
    (maxId : option Z) :
  match maxId with Some M => M <= lastProcessedId | None => True end ->
  scrape fuel host lastProcessedId maxId = Some (mkTally 0 0, []).
Proof.
  intros H. unfold scrape.
  assert (E : js_le (lastProcessedId + 1) maxId = false).
  { destruct maxId as [M |]; simpl; [apply Z.leb_gt; lia | reflexivity]. }
  destruct fuel; simpl; rewrite E; reflexivity.
Qed.

End ScraperLoop.

(** * The chain of one show *)

Section ScraperChain.

Import Scraper.

Lemma processShow_result (host : Z -> Circumstances) (id : Z) :
  snd (processShow host id)
  = match fetchError (host id), saveError (database (host id)) with
    | None, None => Undefined
    | _, _ => Null
    end.
Proof.
  unfold processShow, fetchShowData, fetchError, saveShowToDatabase, saveError,
    fetchFailed, saveFailed, processFailed.
  destruct (answer (host id)) as [[[show |]] | error]; simpl;
    try reflexivity.
  destruct (findOne (database (host id))) as [existing | error]; simpl;
    [| reflexivity].
  destruct (written (database (host id))); reflexivity.
Qed.

(** X13.  [processMultipleShows] gives one result per id, in the order
    of the ids, and the result of an id depends on what happens to that id
    alone: it is [null] exactly when its fetch or its save threw, and
    [undefined] exactly when neither did.  A show that fails leaves the
    results of the other shows of the batch as they are. *)
Theorem processMultipleShows_one_result_per_id
    (host : Z -> Circumstances) (showIds : list Z) :
  length (processMultipleShows host showIds) = length showIds
  /\ forall k id,
       showIds !! k = Some id ->
       exists r,
         processMultipleShows host showIds !! k = Some r
         /\ r = processShow host id
         /\ (snd r = Undefined
             <-> fetchError (host id) = None
                 /\ saveError (database (host id)) = None)
         /\ (snd r = Null
             <-> fetchError (host id) <> None
                 \/ saveError (database (host id)) <> None).
Proof.
  unfold processMultipleShows. split; [apply length_map |].
  intros k id Hk. exists (processShow host id).
  split.
  { change (map ?f ?l) with (f <$> l). rewrite list_lookup_fmap, Hk. reflexivity. }
  split; [reflexivity |].
  rewrite processShow_result.
  destruct (fetchError (host id)), (saveError (database (host id)));
    split; split; intros H; try discriminate; try reflexivity;
    try (destruct H; discriminate); try (destruct H; congruence);
    try (split; reflexivity); try (left; discriminate); try (right; discriminate).
Qed.

Lemma processShow_levels (host : Z -> Circumstances) (id : Z) :
  map Logger.level (fst (processShow host id))
  = match fetchError (host id) with
    | Some error =>
        if bool_decide (status error = Some 404) then [Logger.Warning]
        else [Logger.Error; Logger.Error]
    | None =>
        Logger.Success ::
        match saveError (database (host id)) with
        | Some error =>
            if bool_decide (status error = Some 404) then [Logger.Error]
            else [Logger.Error; Logger.Error]
        | None =>
            [match findOne (database (host id)) with
             | inl true => Logger.Info
             | _ => Logger.Success
             end]
        end
    end.
Proof.
  unfold processShow, fetchShowData, fetchError, saveShowToDatabase, saveError,
    fetchFailed, saveFailed, processFailed.
  destruct (answer (host id)) as [[[show |]] | error]; simpl.
  - destruct (findOne (database (host id))) as [existing | error]; simpl.
    + destruct (written (database (host id))) as [error |]; simpl.
      * destruct (bool_decide (status error = Some 404)); reflexivity.
      * destruct existing; reflexivity.
    + destruct (bool_decide (status error = Some 404)); reflexivity.
  - repeat destruct (bool_decide _); reflexivity.
  - repeat destruct (bool_decide _); reflexivity.
Qed.

(** X14.  The log of a chain tells its result.  The chain of a show ends
    in [null] exactly when it logged a warning or an error; it logs a
    warning exactly when the fetch failed with status 404, and then it logs
    that one line and no error: a 404 of the fetch is the one failure that
    is not reported as an error.  A chain that ends well logs two lines. *)
Theorem processShow_log_tells_result (host : Z -> Circumstances) (id : Z) :
  let log := map Logger.level (fst (processShow host id)) in
  let not_found :=
    exists error, fetchError (host id) = Some error /\ status error = Some 404 in
  (snd (processShow host id) = Null
   <-> In Logger.Warning log \/ In Logger.Error log)
  /\ (In Logger.Warning log <-> not_found)
  /\ (not_found -> log = [Logger.Warning])
  /\ (snd (processShow host id) = Undefined -> length log = 2%nat).
Proof.
  cbv zeta. rewrite processShow_levels, processShow_result.
  destruct (fetchError (host id)) as [error |].
  - destruct (bool_decide_reflect (status error = Some 404)) as [E | E]; simpl.
    + split; [split; [intros _; left; left; reflexivity | reflexivity] |].
      split; [split; [intros _; exists error; split; [reflexivity | exact E]
                     | intros _; left; reflexivity] |].
      split; [reflexivity | discriminate].
    + split; [split; [intros _; right; left; reflexivity | reflexivity] |].
      split; [split; [intros H; intuition discriminate
                     | intros (e & He & Hs); injection He as <-; contradiction] |].
      split; [intros (e & He & Hs); injection He as <-; contradiction | discriminate].
  - assert (Hno : ~ exists e : JsError, None = Some e /\ status e = Some 404)
      by (intros (e & He & _); discriminate).
    destruct (saveError (database (host id))) as [error |].
    + destruct (bool_decide (status error = Some 404)); simpl;
        (split; [split; [intros _; right; right; left; reflexivity | reflexivity] |]);
        (split; [split; [intros H; intuition discriminate
                        | intros H; contradiction] |]);
        (split; [intros H; contradiction | discriminate]).
    + destruct (findOne (database (host id))) as [[|] | e0]; simpl;
        (split; [split; [discriminate | intros H; intuition discriminate] |]);
        (split; [split; [intros H; intuition discriminate
                        | intros H; contradiction] |]);
        (split; [intros H; contradiction | reflexivity]).
Qed.

End ScraperChain.

(** * The files of the logger *)

Section LoggerFacts.

Import Logger.

Lemma append_cons (c : Ascii.ascii) (s t : string) :
  String c s +:+ t = String c (s +:+ t).
Proof. reflexivity. Qed.

Lemma append_empty_r (s : string) : s +:+ "" = s.
Proof.
  induction s as [| c s IH]; [reflexivity |]. rewrite append_cons, IH. reflexivity.
Qed.

Lemma append_assoc (s t u : string) : (s +:+ t) +:+ u = s +:+ t +:+ u.
Proof.
  induction s as [| c s IH]; [reflexivity |]. rewrite !append_cons, IH. reflexivity.
Qed.

Lemma append_length (s t : string) :
  String.length (s +:+ t) = (String.length s + String.length t)%nat.
Proof.
  induction s as [| c s IH]; [reflexivity |]. rewrite append_cons. simpl.
  rewrite IH. reflexivity.
Qed.

Lemma append_same_length (a b x y : string) :
  String.length a = String.length b -> a +:+ x = b +:+ y -> a = b /\ x = y.
Proof.
  revert b. induction a as [| c a IH]; intros [| d b] Hl H; try discriminate.
  - split; [reflexivity | exact H].
  - rewrite !append_cons in H. injection H as -> H. injection Hl as Hl.
    destruct (IH b Hl H) as [-> ->]. split; reflexivity.
Qed.

Lemma append_cancel_r (s1 s2 t : string) : s1 +:+ t = s2 +:+ t -> s1 = s2.
Proof.
  intros H. apply (append_same_length s1 s2 t t); [| exact H].
  apply (f_equal String.length) in H. rewrite !append_length in H. lia.
Qed.

(** Two digits for every number below 100, and different ones for
    different numbers. *)
Lemma padStart_two_digits (a b : nat) :
  (a < 100)%nat -> (b < 100)%nat ->
  String.length (padStart (pretty (Z.of_nat a)) 2 "0") = 2%nat
  /\ (padStart (pretty (Z.of_nat a)) 2 "0" = padStart (pretty (Z.of_nat b)) 2 "0"
      -> a = b).
Proof.
  intros Ha Hb.
  assert (Hall :
    forallb (fun a =>
      Nat.eqb (String.length (padStart (pretty (Z.of_nat a)) 2 "0")) 2
      && forallb (fun b =>
           implb (String.eqb (padStart (pretty (Z.of_nat a)) 2 "0")
                             (padStart (pretty (Z.of_nat b)) 2 "0"))
                 (Nat.eqb a b))
           (seq 0 100))
      (seq 0 100) = true) by (vm_compute; reflexivity).
  rewrite forallb_forall in Hall.
  specialize (Hall a ltac:(apply in_seq; lia)).
  apply andb_true_iff in Hall as [Hlen Hinj].
  split; [apply Nat.eqb_eq; exact Hlen |].
  intros Heq. rewrite forallb_forall in Hinj.
  specialize (Hinj b ltac:(apply in_seq; lia)).
  apply String.eqb_eq in Heq. rewrite Heq in Hinj. apply Nat.eqb_eq. exact Hinj.
Qed.

(** X15.  One file per day.  For two dates, the names
    [log_${day}_${month}_${year}.txt] are the same only if the dates are the
    same day of the same month of the same year; and so are the files
    [getLogFileName] gives, when [path.join] keeps these two names apart in
    the directory of the logs. *)
Theorem getLogFileName_one_file_per_day
    (path_join : string -> string -> string) (date1 date2 : LocalDate) :
  is_date date1 -> is_date date2 ->
  (baseName date1 = baseName date2 -> date1 = date2)
  /\ ((path_join logsDir (baseName date1) = path_join logsDir (baseName date2) ->
       baseName date1 = baseName date2) ->
      getLogFileName path_join date1 = getLogFileName path_join date2 ->
      date1 = date2).
Proof.
  intros [Hd1 Hm1] [Hd2 Hm2].
  assert (Hbase : baseName date1 = baseName date2 -> date1 = date2).
  { intros Hname. unfold baseName in Hname.
    destruct date1 as [d1 m1 y1], date2 as [d2 m2 y2]. simpl in *.
    destruct (padStart_two_digits (Z.to_nat d1) (Z.to_nat d2) ltac:(lia) ltac:(lia))
      as [Hld1 Hid].
    destruct (padStart_two_digits (Z.to_nat d2) (Z.to_nat d1) ltac:(lia) ltac:(lia))
      as [Hld2 _].
    destruct (padStart_two_digits (Z.to_nat (m1 + 1)) (Z.to_nat (m2 + 1))
                ltac:(lia) ltac:(lia)) as [Hlm1 Him].
    destruct (padStart_two_digits (Z.to_nat (m2 + 1)) (Z.to_nat (m1 + 1))
                ltac:(lia) ltac:(lia)) as [Hlm2 _].
    rewrite !Z2Nat.id in * by lia.
    apply String.app_inj in Hname.
    apply append_same_length in Hname as [Hday Hname]; [| congruence].
    apply String.app_inj in Hname.
    apply append_same_length in Hname as [Hmonth Hname]; [| congruence].
    apply String.app_inj in Hname.
    apply append_cancel_r in Hname. apply pretty_Z_inj in Hname.
    apply Hid in Hday. apply Him in Hmonth.
    f_equal; lia. }
  split; [exact Hbase |].
  intros Hjoin Hfile. apply Hbase. apply Hjoin. exact Hfile.
Qed.

Lemma contents_appendFileSync (file data other : string) (out : Output) :
  contents (mkOutput (console out) (appendFileSync file data (files out))) other
  = contents out other +:+ (if bool_decide (file = other) then data else "").
Proof.
  unfold contents, appendFileSync. simpl.
  destruct (bool_decide_reflect (file = other)) as [-> | Hne].
  - rewrite lookup_insert_eq. reflexivity.
  - rewrite lookup_insert_ne by exact Hne. rewrite append_empty_r. reflexivity.
Qed.

(** X16.  The logger only adds.  After any calls, the console shows what
    it showed before followed by one line per call, in the order of the
    calls; and a file holds what it held before followed by the lines of
    the calls made on its date, each ended by a newline.  Nothing that was
    written is changed, and a file of another date is left as it is. *)
Theorem loggerAll_appends
    (logSymbols : Level -> string) (path_join : string -> string -> string)
    (calls : list (Moment * Call)) (out : Output) (file : string) :
  console (loggerAll logSymbols path_join calls out)
  = console out ++ printed logSymbols calls
  /\ contents (loggerAll logSymbols path_join calls out) file
     = contents out file +:+ appended logSymbols path_join file calls
  /\ ((forall call, In call calls ->
         getLogFileName path_join (date (fst call)) <> file) ->
      contents (loggerAll logSymbols path_join calls out) file = contents out file).
Proof.
  assert (Hmain : forall calls out,
    console (loggerAll logSymbols path_join calls out)
    = console out ++ printed logSymbols calls
    /\ contents (loggerAll logSymbols path_join calls out) file
       = contents out file +:+ appended logSymbols path_join file calls).
  { clear calls out. intros calls.
    induction calls as [| [at_ c] calls IH]; intros out.
    - simpl. rewrite app_nil_r, append_empty_r. split; reflexivity.
    - cbn [loggerAll appended printed map fst snd].
      destruct (IH (logger logSymbols path_join at_ c out)) as [Hc Hf].
      rewrite Hc, Hf. unfold logger, write, writeToFile.
      split.
      + simpl. rewrite <- app_assoc. reflexivity.
      + rewrite (contents_appendFileSync _ _ file
                   (mkOutput (console out ++ _) (files out))).
        unfold contents at 1. simpl. fold (contents out file).
        rewrite append_assoc. f_equal. }
  destruct (Hmain calls out) as [Hc Hf].
  split; [exact Hc |]. split; [exact Hf |].
  intros Hother. rewrite Hf.
  assert (Hnone : appended logSymbols path_join file calls = "").
  { clear Hc Hf. induction calls as [| [at_ c] calls IH]; [reflexivity |].
    cbn [appended].
    rewrite bool_decide_eq_false_2 by (apply (Hother (at_, c)); left; reflexivity).
    rewrite IH by (intros call Hin; apply Hother; right; exact Hin). reflexivity. }
  rewrite Hnone, append_empty_r. reflexivity.
Qed.

End LoggerFacts.

(** * More concrete runs *)

(** X1 with room for one task and two submitted: the second waits in
    the queue and the counter is at the limit. *)
Lemma queue_waits_only_when_saturated_witness :
  exists w : @World Z Z Z,
    run queued_behind_run (boot (constructor (Some 1) None) 0) = Some w
    /\ queue (rq w) <> []
    /\ maxConcurrent (rq w) <= activeRequests (rq w)
    /\ (0 <= maxConcurrent (rq w) ->
        activeRequests (rq w) = maxConcurrent (rq w)
        /\ Z.of_nat (length (suspended w)) = maxConcurrent (rq w)).
Proof.
  eexists. split; [vm_compute; reflexivity |]. split; [discriminate |].
  apply (queue_waits_only_when_saturated (Some 1) None 0 queued_behind_run).
  - vm_compute. reflexivity.
  - discriminate.
Defined.

(** X2 after the one task of a run has returned. *)
Lemma all_settled_means_idle_witness :
  exists w : @World Z Z Z,
    run one_task_run (boot (constructor None None) 0) = Some w
    /\ (forall h, promises w !! h <> Some Pending)
    /\ activeRequests (rq w) = 0 /\ queue (rq w) = [] /\ suspended w = [].
Proof.
  eexists. split; [vm_compute; reflexivity |].
  assert (H : forall h : nat,
             @lookup nat (@Promise Z Z) _ _ h [Fulfilled 7] <> Some Pending).
  { intros [| [| h]]; discriminate. }
  split; [exact H |].
  apply (all_settled_means_idle None None 0 one_task_run).
  - vm_compute. reflexivity.
  - exact H.
Defined.

(** X3 with a limit of one start per second and three tasks. *)
Lemma requestTimestamps_length_bounded_witness :
  exists w : @World Z Z Z,
    run overtaking_run (boot (constructor (Some 3) (Some 1)) 0) = Some w
    /\ Z.of_nat (length (requestTimestamps (rq w)))
       <= Z.max 1 (requestsPerSecond (@constructor Z (Some 3) (Some 1))).
Proof.
  eexists. split; [vm_compute; reflexivity |].
  apply (requestTimestamps_length_bounded (Some 3) (Some 1) 0 overtaking_run).
  vm_compute. reflexivity.
Defined.

(** X4 with a limit of one start per second: a task has started at 0ms,
    the check at 0ms asks for 1000ms, the check at 1000ms grants. *)
Lemma one_wait_is_enough_witness :
  exists w : @World Z Z Z,
    run ([Add 10] : list (@Event Z Z Z))
      (boot (constructor (Some 3) (Some 1)) 0) = Some w
    /\ waitForRateLimit (clock w) (rq w) = (Wait 1000, rq w)
    /\ clock w + 1000 <= 1000
    /\ fst (waitForRateLimit 1000 (rq w)) = Granted.
Proof.
  eexists. split; [vm_compute; reflexivity |]. split; [reflexivity |].
  split; [simpl; lia |].
  match goal with
  | |- fst (waitForRateLimit 1000 (rq ?w)) = Granted =>
      apply (one_wait_is_enough (Some 3) (Some 1) 0 [Add 10] w 1000 (rq w) 1000)
  end.
  - vm_compute. reflexivity.
  - reflexivity.
  - simpl. lia.
Defined.

(** X5 on the run of three tasks a second apart. *)
Lemma first_timestamp_is_oldest_witness :
  exists w : @World Z Z Z,
    steady 0 overtaking_run
    /\ run overtaking_run (boot (constructor (Some 3) (Some 1)) 0) = Some w
    /\ StronglySorted Z.le (requestTimestamps (rq w))
    /\ (forall ts, In ts (requestTimestamps (rq w)) -> ts <= clock w)
    /\ (forall oldest ts,
          head (requestTimestamps (rq w)) = Some oldest ->
          In ts (requestTimestamps (rq w)) -> oldest <= ts).
Proof.
  eexists. split; [simpl; lia |]. split; [vm_compute; reflexivity |].
  apply (first_timestamp_is_oldest (Some 3) (Some 1) 0 overtaking_run).
  - simpl. lia.
  - vm_compute. reflexivity.
Defined.

(** One start per second: task 10 starts at 0ms, task 11 is submitted at
    100ms and waits on a timer due at 1000ms. *)
Local Abbreviation waiting_run :=
  ([Tick 0; Add 10; Resume 0; Tick 100; Add 11] : list (@Event Z Z Z))
  (only parsing).

(** X6 on the run above. *)
Lemma wait_is_at_most_a_second_witness :
  exists w : @World Z Z Z,
    steady 0 waiting_run
    /\ run waiting_run (boot (constructor (Some 3) (Some 1)) 0) = Some w
    /\ (forall waitTime q,
          waitForRateLimit (clock w) (rq w) = (Wait waitTime, q) ->
          0 < waitTime <= 1000)
    /\ (forall e deadline,
          In (mkActivation e (AwaitTimer deadline)) (suspended w) ->
          deadline <= clock w + 1000).
Proof.
  eexists. split; [simpl; lia |]. split; [vm_compute; reflexivity |].
  apply (wait_is_at_most_a_second (Some 3) (Some 1) 0 waiting_run).
  - simpl. lia.
  - vm_compute. reflexivity.
Defined.

(** X7 with three tasks, room for two and one start per second. *)
Lemma burst_of_submissions_witness :
  0 <= maxConcurrent (@constructor Z (Some 2) (Some 1))
  /\ exists w : @World Z Z Z,
       run (map Add [10; 11; 12]) (boot (constructor (Some 2) (Some 1)) 0) = Some w
       /\ activeRequests (rq w) = 2
       /\ Z.of_nat (length (queue (rq w))) = 1
       /\ Z.of_nat (length (stamps (trace w))) = 1
       /\ (forall e deadline,
             In (mkActivation e (AwaitTimer deadline)) (suspended w) ->
             deadline = 0 + 1000)
       /\ invocations (trace w) = [].
Proof.
  split; [simpl; lia |].
  apply (burst_of_submissions (Value:=Z) (Error:=Z) (Some 2) (Some 1) 0 [10; 11; 12]).
  simpl. lia.
Defined.

(** A host for the scraper: every seventh show is gone (404), the others
    are fetched and saved as new. *)
Local Abbreviation every_seventh_gone :=
  (fun id : Z =>
     Scraper.mkCircumstances
       (if id mod 7 =? 0
        then inr (Scraper.mkJsError (Some 404) None "Request failed with status code 404")
        else inl (Scraper.mkResponse (Some (Scraper.mkShow id (Some "A show")))))
       (Scraper.mkJsError None None "Cannot read properties of undefined")
       (Scraper.mkDatabase (inl false) None)) (only parsing).

(** X8 for the ids 1 to 250. *)
Lemma scrape_processes_each_id_once_witness :
  (Z.to_nat (250 - 0) + 100 <= 350)%nat
  /\ exists tally steps,
       Scraper.scrape 350 every_seventh_gone 0 (Some 250) = Some (tally, steps)
       /\ concat (Scraper.batches_of steps) = Scraper.ids (0 + 1) 250
       /\ NoDup (concat (Scraper.batches_of steps))
       /\ (forall id, In id (concat (Scraper.batches_of steps)) <-> 0 < id <= 250)
       /\ Scraper.results_of steps
          = map (fun id => snd (Scraper.processShow every_seventh_gone id))
              (Scraper.ids (0 + 1) 250).
Proof.
  split; [simpl; lia |].
  apply (scrape_processes_each_id_once 350 every_seventh_gone 0 250).
  simpl. lia.
Defined.

(** X9 for the ids 1 to 250: batches of 100, 100 and 50. *)
Lemma scrape_batches_of_a_hundred_witness :
  (Z.to_nat (250 - 0) + 100 <= 350)%nat
  /\ exists tally steps,
       Scraper.scrape 350 every_seventh_gone 0 (Some 250) = Some (tally, steps)
       /\ (forall k b,
             Scraper.batches_of steps !! k = Some b ->
             b = Scraper.ids (0 + 1 + 100 * Z.of_nat k)
                   (Z.min (0 + 1 + 100 * Z.of_nat k + 99) 250)
             /\ (1 <= length b <= 100)%nat
             /\ ((S k < length (Scraper.batches_of steps))%nat -> length b = 100%nat))
       /\ Z.of_nat (length (Scraper.batches_of steps))
          = (if 0 <? 250 then (250 - 0 - 1) / 100 + 1 else 0).
Proof.
  split; [simpl; lia |].
  apply (scrape_batches_of_a_hundred 350 every_seventh_gone 0 250).
  simpl. lia.
Defined.

(** X10 for the ids 1 to 250: two pauses between three batches. *)
Lemma scrape_pauses_between_batches_witness :
  (Z.to_nat (250 - 0) + 100 <= 350)%nat
  /\ exists tally steps,
       Scraper.scrape 350 every_seventh_gone 0 (Some 250) = Some (tally, steps)
       /\ Scraper.work_of steps
          = Scraper.pause_between 500 (Scraper.batches_of steps)
       /\ Scraper.pauses_of steps
          = repeat 500 (pred (length (Scraper.batches_of steps))).
Proof.
  split; [simpl; lia |].
  apply (scrape_pauses_between_batches 350 every_seventh_gone 0 250).
  simpl. lia.
Defined.

(** X11 for the ids 1 to 250. *)
Lemma scrape_counts_every_id_witness :
  (Z.to_nat (250 - 0) + 100 <= 350)%nat
  /\ exists tally steps,
       Scraper.scrape 350 every_seventh_gone 0 (Some 250) = Some (tally, steps)
       /\ Scraper.successCount tally + Scraper.errorCount tally = Z.max 0 (250 - 0)
       /\ Scraper.successCount tally
          = Z.of_nat (length (List.filter
               (fun id => Scraper.not_null (snd (Scraper.processShow every_seventh_gone id)))
               (Scraper.ids (0 + 1) 250)))
       /\ Scraper.errorCount tally
          = Z.of_nat (length (List.filter
               (fun id => Scraper.is_null (snd (Scraper.processShow every_seventh_gone id)))
               (Scraper.ids (0 + 1) 250))).
Proof.
  split; [simpl; lia |].
  apply (scrape_counts_every_id 350 every_seventh_gone 0 250).
  simpl. lia.
Defined.

(** X12 with a total that is no number, and no fuel. *)
Lemma scrape_nothing_to_do_witness :
  True
  /\ Scraper.scrape 0 every_seventh_gone 5 None
     = Some (Scraper.mkTally 0 0, []).
Proof.
  split; [exact I |].
  apply (scrape_nothing_to_do 0 every_seventh_gone 5 None). exact I.
Defined.

(** X13 for the batch of the shows 7 and 8: the fetch of show 7 fails,
    show 8 is saved. *)
Lemma processMultipleShows_one_result_per_id_witness :
  [7; 8] !! 1%nat = Some 8
  /\ exists r,
       Scraper.processMultipleShows every_seventh_gone [7; 8] !! 1%nat = Some r
       /\ r = Scraper.processShow every_seventh_gone 8
       /\ (snd r = Scraper.Undefined
           <-> Scraper.fetchError (every_seventh_gone 8) = None
               /\ Scraper.saveError (Scraper.database (every_seventh_gone 8)) = None)
       /\ (snd r = Scraper.Null
           <-> Scraper.fetchError (every_seventh_gone 8) <> None
               \/ Scraper.saveError (Scraper.database (every_seventh_gone 8)) <> None).
Proof.
  split; [reflexivity |].
  apply (proj2 (processMultipleShows_one_result_per_id every_seventh_gone [7; 8])
           1%nat 8).
  reflexivity.
Defined.

(** X14 for show 7, whose fetch fails with status 404: one warning. *)
Lemma processShow_log_tells_result_witness :
  (exists error,
      Scraper.fetchError (every_seventh_gone 7) = Some error
      /\ Scraper.status error = Some 404)
  /\ map Logger.level (fst (Scraper.processShow every_seventh_gone 7))
     = [Logger.Warning].
Proof.
  assert (H : exists error,
             Scraper.fetchError (every_seventh_gone 7) = Some error
             /\ Scraper.status error = Some 404).
  { eexists. split; reflexivity. }
  split; [exact H |].
  apply (proj1 (proj2 (proj2 (processShow_log_tells_result every_seventh_gone 7)))).
  exact H.
Defined.

(** What [path.join] of Node gives for a directory that starts with
    [./] and a plain file name: the [./] is dropped. *)
Local Abbreviation join_normalised :=
  (fun dir name : string =>
     (if String.prefix "./" dir
      then String.substring 2 (String.length dir - 2) dir
      else dir) +:+ "/" +:+ name) (only parsing).

(** X15 for the first of November and the eleventh of January, whose
    files are [logs/log_01_11_2026.txt] and [logs/log_11_01_2026.txt]. *)
Lemma getLogFileName_one_file_per_day_witness :
  Logger.is_date (Logger.mkLocalDate 1 10 2026)
  /\ Logger.is_date (Logger.mkLocalDate 11 0 2026)
  /\ Logger.getLogFileName join_normalised (Logger.mkLocalDate 1 10 2026)
     = "logs/log_01_11_2026.txt"
  /\ Logger.getLogFileName join_normalised (Logger.mkLocalDate 11 0 2026)
     = "logs/log_11_01_2026.txt"
  /\ (join_normalised Logger.logsDir (Logger.baseName (Logger.mkLocalDate 1 10 2026))
      = join_normalised Logger.logsDir (Logger.baseName (Logger.mkLocalDate 11 0 2026))
      -> Logger.baseName (Logger.mkLocalDate 1 10 2026)
         = Logger.baseName (Logger.mkLocalDate 11 0 2026))
  /\ (Logger.getLogFileName join_normalised (Logger.mkLocalDate 1 10 2026)
      = Logger.getLogFileName join_normalised (Logger.mkLocalDate 11 0 2026)
      -> Logger.mkLocalDate 1 10 2026 = Logger.mkLocalDate 11 0 2026).
Proof.
  assert (H1 : Logger.is_date (Logger.mkLocalDate 1 10 2026))
    by (unfold Logger.is_date; simpl; lia).
  assert (H2 : Logger.is_date (Logger.mkLocalDate 11 0 2026))
    by (unfold Logger.is_date; simpl; lia).
  assert (Hjoin :
    join_normalised Logger.logsDir (Logger.baseName (Logger.mkLocalDate 1 10 2026))
    = join_normalised Logger.logsDir (Logger.baseName (Logger.mkLocalDate 11 0 2026))
    -> Logger.baseName (Logger.mkLocalDate 1 10 2026)
       = Logger.baseName (Logger.mkLocalDate 11 0 2026)).
  { vm_compute. intros H. discriminate H. }
  split; [exact H1 |]. split; [exact H2 |].
  split; [vm_compute; reflexivity |]. split; [vm_compute; reflexivity |].
  split; [exact Hjoin |].
  exact (proj2 (getLogFileName_one_file_per_day join_normalised
                  (Logger.mkLocalDate 1 10 2026) (Logger.mkLocalDate 11 0 2026)
                  H1 H2) Hjoin).
Defined.

(** X16 for one call on the first of November and the file of the day
    before, which is left as it is. *)
Lemma loggerAll_appends_witness :
  (forall call,
      In call [(Logger.mkMoment "2026-11-01T09:00:00.000Z"
                  (Logger.mkLocalDate 1 10 2026),
                Logger.mkCall Logger.Info "TMDB Scraper Started")] ->
      Logger.getLogFileName (fun dir name => dir +:+ "/" +:+ name)
        (Logger.date (fst call)) <> "./logs/log_31_10_2026.txt")
  /\ Logger.contents
       (Logger.loggerAll (fun _ => "i") (fun dir name => dir +:+ "/" +:+ name)
          [(Logger.mkMoment "2026-11-01T09:00:00.000Z"
              (Logger.mkLocalDate 1 10 2026),
            Logger.mkCall Logger.Info "TMDB Scraper Started")]
          (Logger.mkOutput [] ∅))
       "./logs/log_31_10_2026.txt"
     = Logger.contents (Logger.mkOutput [] ∅) "./logs/log_31_10_2026.txt".
Proof.
  assert (H : forall call,
      In call [(Logger.mkMoment "2026-11-01T09:00:00.000Z"
                  (Logger.mkLocalDate 1 10 2026),
                Logger.mkCall Logger.Info "TMDB Scraper Started")] ->
      Logger.getLogFileName (fun dir name => dir +:+ "/" +:+ name)
        (Logger.date (fst call)) <> "./logs/log_31_10_2026.txt").
  { intros call [<- | []]. vm_compute. discriminate. }
  split; [exact H |].
  apply (proj2 (proj2 (loggerAll_appends (fun _ => "i")
                         (fun dir name => dir +:+ "/" +:+ name) _ _ _))).
  exact H.
Defined.
